(** * Rate-limiting service: model and checked properties

    A shallow embedding of the Python package [rate_limiter]
    (utils.py, storage/memory_storage.py, algorithms/token_bucket.py,
    algorithms/sliding_window.py, limiter.py, and the middleware of
    fastapi.py).

    Conventions of the model:
    - Python [int] is [Z]; Python [float] is an exact rational [Q]
      (no rounding); [int(x)] on a float truncates toward zero.
    - Python [str] is [string], restricted to ASCII text; the one
      message of the package that is not ASCII is held as its UTF-8 bytes.
    - [time.time()] is an argument [t : Q] (seconds); every clock read
      inside one call returns the same instant.
    - A raised exception is a value [Raise e]; the store keeps the writes
      made before the exception, as the mutated Python object does.
    - The store is the in-process [MemoryStorage]; the Redis adapter only
      forwards to an external server and is not modelled. *)

From Stdlib Require Import ZArith QArith Qround Qabs Qpower Qfield Lqa Lia String Ascii List.
From stdpp Require Import gmap strings.

Open Scope Z_scope.

(** ** Python built-ins used by the package *)

Module Py.

Inductive exn := ValueError | ZeroDivisionError | KeyError.

Inductive result (A : Type) :=
| Ok (a : A)
| Raise (e : exn).
Arguments Ok {A} a.
Arguments Raise {A} e.

(** [str.lower()] on ASCII text. *)
Definition lower_char (c : ascii) : ascii :=
  let n := nat_of_ascii c in
  if ((65 <=? n) && (n <=? 90))%nat then ascii_of_nat (n + 32) else c.

Fixpoint lower (s : string) : string :=
  match s with
  | EmptyString => EmptyString
  | String c r => String (lower_char c) (lower r)
  end.

(** ASCII whitespace as [str.strip()] and [int()] see it. *)
Definition is_space (c : ascii) : bool :=
  let n := nat_of_ascii c in
  (((9 <=? n) && (n <=? 13)) || ((28 <=? n) && (n <=? 32)))%nat.

Fixpoint lstrip (s : string) : string :=
  match s with
  | EmptyString => EmptyString
  | String c r => if is_space c then lstrip r else s
  end.

Fixpoint rstrip (s : string) : string :=
  match s with
  | EmptyString => EmptyString
  | String c r =>
      match rstrip r with
      | EmptyString => if is_space c then EmptyString else String c EmptyString
      | r' => String c r'
      end
  end.

Definition strip (s : string) : string := rstrip (lstrip s).

(** [s.split(c)[0]]: the text before the first [c], all of [s] if none. *)
Fixpoint split_first (c : ascii) (s : string) : string :=
  match s with
  | EmptyString => EmptyString
  | String a r => if Ascii.eqb a c then EmptyString else String a (split_first c r)
  end.

(** [c in s] for a one-character [c]. *)
Fixpoint contains (c : ascii) (s : string) : bool :=
  match s with
  | EmptyString => false
  | String a r => Ascii.eqb a c || contains c r
  end.

(** Truthiness of a string: non-empty. *)
Definition truthy (s : string) : bool :=
  match s with EmptyString => false | _ => true end.

(** *** Decimal digits *)

Definition digit_of (c : ascii) : option Z :=
  let n := nat_of_ascii c in
  if ((48 <=? n) && (n <=? 57))%nat then Some (Z.of_nat (n - 48)) else None.

Definition digit_char (d : Z) : ascii := ascii_of_nat (48 + Z.to_nat d).

(** A digit part as [int()] and [float()] read it: digits, with single
    underscores allowed between two digits.  [acc] is the value read so
    far, [cnt] the number of digits read, [prev] tells whether the last
    character was a digit.  Returns value and digit count. *)
Fixpoint digits_from (s : string) (acc : Z) (cnt : nat) (prev : bool)
  : option (Z * nat) :=
  match s with
  | EmptyString => if prev then Some (acc, cnt) else None
  | String c r =>
      match digit_of c with
      | Some d => digits_from r (10 * acc + d) (S cnt) true
      | None =>
          if Ascii.eqb c "_" && prev then digits_from r acc cnt false
          else None
      end
  end.

Definition digitpart (s : string) : option (Z * nat) := digits_from s 0 O false.

(** An optional sign and a digit part. *)
Definition signed_digitpart (s : string) : option Z :=
  match s with
  | String "-" r => option_map (fun p => - fst p) (digitpart r)
  | String "+" r => option_map fst (digitpart r)
  | r => option_map fst (digitpart r)
  end.

(** [int(s)] for a string [s]: surrounding whitespace, an optional sign,
    a digit part.  [None] stands for [ValueError]. *)
Definition int_of_str (s : string) : option Z := signed_digitpart (strip s).

(** [str(n)] for an int: the digits of [n], most significant first. *)
Fixpoint to_digits (fuel : nat) (n : Z) (rest : string) : string :=
  match fuel with
  | O => rest
  | S f =>
      let rest' := String (digit_char (n mod 10)) rest in
      if n <? 10 then rest' else to_digits f (n / 10) rest'
  end.

Definition str_nat (n : Z) : string := to_digits (S (Z.to_nat (Z.log2 n))) n "".

Definition str_int (n : Z) : string :=
  if n <? 0 then String "-" (str_nat (- n)) else str_nat n.

(** *** Floats

    A float is an exact rational.  [float(s)] reads Python's decimal
    syntax (sign, digit part, optional fraction, optional exponent) at
    its exact value; the literals [inf] and [nan] have no rational value
    and are outside the model.  [str(x)] has to print a text that
    [float] reads back to the same value: a value with a finite
    decimal expansion prints as that decimal, with at least one
    fractional digit ([59.0], [0.25]); any other value prints as its
    reduced fraction [p/q], which [float_of_str] accepts for that
    purpose only (Python prints the shortest decimal that reads back to
    the same binary float). *)

Fixpoint split_at (p : ascii -> bool) (s : string) : string * option string :=
  match s with
  | EmptyString => (EmptyString, None)
  | String a r =>
      if p a then (EmptyString, Some r)
      else let '(x, y) := split_at p r in (String a x, y)
  end.

Definition digitpart_or_empty (s : string) : option (Z * nat) :=
  match s with EmptyString => Some (0, O) | _ => digitpart s end.

(** Mantissa [ip], [ip.], [ip.fp] or [.fp]: the integer made of all its
    digits and the number of digits after the point. *)
Definition mantissa (s : string) : option (Z * nat) :=
  match split_at (Ascii.eqb ".") s with
  | (ip, None) => option_map (fun p => (fst p, O)) (digitpart ip)
  | (EmptyString, Some EmptyString) => None
  | (ip, Some fp) =>
      match digitpart_or_empty ip, digitpart_or_empty fp with
      | Some (i, _), Some (f, k) => Some (i * 10 ^ Z.of_nat k + f, k)
      | _, _ => None
      end
  end.

Definition split_sign (s : string) : bool * string :=
  match s with
  | String "-" r => (true, r)
  | String "+" r => (false, r)
  | r => (false, r)
  end.

Definition is_exp_mark (c : ascii) : bool := Ascii.eqb c "e" || Ascii.eqb c "E".

Definition exponent (e : option string) : option Z :=
  match e with
  | None => Some 0
  | Some es => signed_digitpart es
  end.

Definition decimal_body (neg : bool) (body : string) : option Q :=
  let '(m, e) := split_at is_exp_mark body in
  match mantissa m, exponent e with
  | Some (v, k), Some x =>
      Some (inject_Z (if neg then - v else v) * Qpower 10 (x - Z.of_nat k))%Q
  | _, _ => None
  end.

Definition decimal_of_str (s : string) : option Q :=
  let '(neg, body) := split_sign s in decimal_body neg body.

Definition float_of_str (s : string) : option Q :=
  match split_at (Ascii.eqb "/") (strip s) with
  | (m, None) => decimal_of_str m
  | (p, Some q) =>
      match signed_digitpart p, digitpart q with
      | Some n, Some (d, _) => if 0 <? d then Some (n # Z.to_pos d)%Q else None
      | _, _ => None
      end
  end.

(** [k] digits of [f], most significant first, padded with zeros. *)
Fixpoint fixed (k : nat) (f : Z) (rest : string) : string :=
  match k with
  | O => rest
  | S k' => fixed k' (f / 10) (String (digit_char (f mod 10)) rest)
  end.

(** The least [k >= 1], if any below the bound, such that [d] divides
    [10 ^ k]: the number of fractional digits of a value [n / d]. *)
Fixpoint scale_from (fuel k : nat) (d : Z) : option nat :=
  match fuel with
  | O => None
  | S f => if (10 ^ Z.of_nat k) mod d =? 0 then Some k else scale_from f (S k) d
  end.

Definition decimal_scale (d : positive) : option nat :=
  scale_from (Pos.size_nat d) 1 (Zpos d).

Definition str_float (x : Q) : string :=
  let r := Qred x in
  let n := Qnum r in
  let d := Qden r in
  match decimal_scale d with
  | Some k =>
      let p := 10 ^ Z.of_nat k in
      let m := Z.abs n * (p / Zpos d) in
      (if n <? 0 then "-" else "")
      +:+ str_nat (m / p) +:+ "." +:+ fixed k (m mod p) ""
  | None => str_int n +:+ "/" +:+ str_nat (Zpos d)
  end.

(** [int(x)] for a float: truncation toward zero. *)
Definition int_of_float (x : Q) : Z := Z.quot (Qnum x) (Zpos (Qden x)).

(** Comparisons of floats as booleans. *)
Definition Qleb (a b : Q) : bool := Qle_bool a b.
Definition Qltb (a b : Q) : bool := negb (Qle_bool b a).

(** [min(a, b)]: the first argument unless the second is smaller. *)
Definition min (a b : Q) : Q := if Qltb b a then b else a.

(** *** Predicates on characters, for the properties below *)

(** [every P s]: all characters of [s] satisfy [P]. *)
Fixpoint every (P : ascii -> Prop) (s : string) : Prop :=
  match s with
  | EmptyString => True
  | String c r => P c /\ every P r
  end.

(** A character that is a digit is neither a sign, a blank, nor a
    separator. *)
Definition plain_digit (c : ascii) : Prop :=
  is_space c = false /\ c <> "-"%char /\ c <> "+"%char /\ c <> "."%char
  /\ c <> "/"%char /\ c <> "e"%char /\ c <> "E"%char /\ c <> ":"%char.

Definition nonblank (c : ascii) : Prop := is_space c = false.

(** The characters of a printed int: digits, after an optional minus. *)
Definition int_char (c : ascii) : Prop := plain_digit c \/ c = "-"%char.

End Py.

(** ** utils.py *)

Module Utils.

Definition known_intervals : list string :=
  ["second"; "minute"; "hour"; "day"; "week"; "month"]%string.

Definition get_interval_in_seconds (interval : string) : Z :=
  let interval := Py.lower interval in
  if String.eqb interval "second" then 1
  else if String.eqb interval "minute" then 60
  else if String.eqb interval "hour" then 60 * 60
  else if String.eqb interval "day" then 24 * 60 * 60
  else if String.eqb interval "week" then 7 * 24 * 60 * 60
  else if String.eqb interval "month" then 30 * 24 * 60 * 60
  else 60.

(** A user id as the framework hands it over: text or number. *)
Inductive user_id_t :=
| IdStr (s : string)
| IdInt (n : Z).

Definition id_truthy (u : user_id_t) : bool :=
  match u with
  | IdStr s => Py.truthy s
  | IdInt n => negb (n =? 0)
  end.

Definition id_str (u : user_id_t) : string :=
  match u with
  | IdStr s => s
  | IdInt n => Py.str_int n
  end.

(** The request object, reduced to the attributes [normalize_client_info]
    looks at.  [client_host] is [request.client.host] (FastAPI),
    [remote_addr] is [request.remote_addr] (Flask), [user] is
    [request.user.id] when [request.user] is set and truthy, [path] is
    the path of [request.path] or [request.url].  Header names are the
    lower-case ones the code asks for. *)
Record request := {
  client_host : option string;
  remote_addr : option string;
  headers : gmap string string;
  user : option user_id_t;
  path : option string
}.

Record client_info := {
  ci_ip : string;
  ci_user_id : option user_id_t;
  ci_api_key : option string;
  ci_user_agent : string;
  ci_path : string
}.

Definition forwarded_ip (h : gmap string string) : string :=
  let ip :=
    default (default "unknown"%string (h !! "x-real-ip"%string))
            (h !! "x-forwarded-for"%string) in
  if Py.truthy ip && Py.contains "," ip
  then Py.strip (Py.split_first "," ip)
  else ip.

Definition normalize_client_info (r : request) : client_info :=
  let ip :=
    match client_host r with
    | Some host => host
    | None =>
        match remote_addr r with
        | Some a => if Py.truthy a then a else forwarded_ip (headers r)
        | None => forwarded_ip (headers r)
        end
    end in
  {| ci_ip := ip;
     ci_user_id := user r;
     ci_api_key := headers r !! "x-api-key";
     ci_user_agent := default "unknown" (headers r !! "user-agent");
     ci_path := default "/" (path r) |}.

(** [calculate_reset(window_size)], the clock read as [t].  Python's [%]
    raises on a zero divisor and otherwise takes the sign of the divisor,
    as [Z.modulo] does. *)
Definition calculate_reset (window_size : Z) (t : Q) : Py.result Z :=
  let now := Py.int_of_float t in
  if window_size =? 0 then Py.Raise Py.ZeroDivisionError
  else Py.Ok (window_size - now mod window_size).

(** [generate_key(prefix, identifier, resource=None)]; an empty
    [resource] is falsy. *)
Definition generate_key (prefix identifier : string) (resource : option string)
  : string :=
  match resource with
  | Some r =>
      if Py.truthy r then prefix +:+ ":" +:+ identifier +:+ ":" +:+ r
      else prefix +:+ ":" +:+ identifier
  | None => prefix +:+ ":" +:+ identifier
  end.

(** The dictionary [format_error_response] returns.  The message is
    held as the bytes of its UTF-8 text. *)
Record error_response := {
  er_error : string;
  er_message : string;
  er_retry_after : Z
}.


End Utils.

(** ** utils.py: configuration dictionaries *)

Module Config.

Import Py.

(** The values a configuration holds: what [json.load] returns, which
    are also the literals a Python caller writes.  [json.load] reads
    [Infinity], [-Infinity] and [NaN] as floats, which have no rational
    value. *)
#[local] Unset Elimination Schemes.

Inductive value :=
| VNone
| VBool (b : bool)
| VInt (n : Z)
| VFloat (x : Q)
| VInfinity (negative : bool)
| VNaN
| VStr (s : string)
| VList (items : list value)
| VDict (entries : list (string * value)).

#[local] Set Elimination Schemes.

(** What [int(x)] raises on such a value. *)
Inductive int_error := IntValueError | IntTypeError | IntOverflowError.

(** [int(x)] *)
Definition int_of_value (x : value) : int_error + Z :=
  match x with
  | VNone => inl IntTypeError
  | VBool b => inr (if b then 1 else 0)
  | VInt n => inr n
  | VFloat x => inr (int_of_float x)
  | VInfinity _ => inl IntOverflowError
  | VNaN => inl IntValueError
  | VStr s =>
      match int_of_str s with
      | Some n => inr n
      | None => inl IntValueError
      end
  | VList _ | VDict _ => inl IntTypeError
  end.

(** [normalize_config(config)]: [ValueError] and [TypeError] are caught,
    any other exception of [int] leaves the function. *)
Definition normalize_config (config : gmap string value)
  : int_error + gmap string value :=
  let rate :=
    match config !! "rate"%string with
    | None | Some VNone => inr 60
    | Some rate =>
        match int_of_value rate with
        | inr n => inr n
        | inl IntValueError | inl IntTypeError => inr 60
        | inl IntOverflowError => inl IntOverflowError
        end
    end in
  match rate with
  | inl e => inl e
  | inr rate =>
      inr (<["enabled"%string := default (VBool true) (config !! "enabled"%string)]>
             (<["interval"%string :=
                  default (VStr "minute") (config !! "interval"%string)]>
                (<["rate"%string := VInt rate]> config)))
  end.

End Config.

(** ** storage/memory_storage.py *)

Module MemoryStorage.

Record storage := {
  _data : gmap string string;
  _expirations : gmap string Q
}.

Definition empty : storage := {| _data := ∅; _expirations := ∅ |}.

Definition forget (key : string) (st : storage) : storage :=
  {| _data := delete key (_data st);
     _expirations := delete key (_expirations st) |}.

Definition get (key : string) (t : Q) (st : storage) : option string * storage :=
  match _data st !! key with
  | Some v =>
      match _expirations st !! key with
      | Some e => if Py.Qleb e t then (None, forget key st) else (Some v, st)
      | None => (Some v, st)
      end
  | None => (None, st)
  end.

(** What [get] returns for [key] at time [t]. *)
Definition live (key : string) (t : Q) (st : storage) : option string :=
  fst (get key t st).

(** [ttl] is tested for truthiness: [None] and [0] both mean no expiry. *)
Definition ttl_truthy (ttl : option Z) : option Z :=
  match ttl with
  | Some n => if n =? 0 then None else Some n
  | None => None
  end.

Definition set (key value : string) (ttl : option Z) (t : Q) (st : storage)
  : storage :=
  let data := <[key := value]> (_data st) in
  match ttl_truthy ttl with
  | Some n => {| _data := data;
                 _expirations := <[key := (t + inject_Z n)%Q]> (_expirations st) |}
  | None => {| _data := data; _expirations := delete key (_expirations st) |}
  end.

Definition incr (key : string) (t : Q) (st : storage) : Z * storage :=
  let '(value, st) := get key t st in
  let value := default "0"%string value in
  match Py.int_of_str value with
  | Some n =>
      let new_value := n + 1 in
      (new_value, set key (Py.str_int new_value) None t st)
  | None => (1, set key "1" None t st)
  end.

Definition expire (key : string) (ttl : Z) (t : Q) (st : storage) : Z * storage :=
  match _data st !! key with
  | Some _ =>
      (1, {| _data := _data st;
             _expirations := <[key := (t + inject_Z ttl)%Q]> (_expirations st) |})
  | None => (0, st)
  end.

Definition delete (key : string) (st : storage) : Z * storage :=
  match _data st !! key with
  | Some _ => (1, forget key st)
  | None => (0, st)
  end.

(** One sweep of the background cleaner at time [t]: every key whose
    expiry is due is dropped from both maps. *)
Definition due (t : Q) (exps : gmap string Q) (key : string) : bool :=
  match exps !! key with
  | Some e => Py.Qleb e t
  | None => false
  end.

Definition clean_expired_keys (t : Q) (st : storage) : storage :=
  {| _data := filter (fun kv => due t (_expirations st) (fst kv) = false) (_data st);
     _expirations := filter (fun kv => Py.Qleb (snd kv) t = false) (_expirations st) |}.

(** *** The cleaner's loop as written, and sequences of calls *)

(** The keys whose expiry is due at [t]:
    [[key for key, expires_at in self._expirations.items() if expires_at <= now]]. *)
Definition expired_keys (t : Q) (st : storage) : list string :=
  (map_to_list (filter (fun kv => Py.Qleb (snd kv) t = true) (_expirations st))).*1.

(** [del self._data[key]] then [del self._expirations[key]], key after
    key.  [del] of a missing key raises [KeyError] and ends the loop,
    the deletions made so far staying in place. *)
Fixpoint delete_keys (keys : list string) (st : storage) : Py.result unit * storage :=
  match keys with
  | [] => (Py.Ok tt, st)
  | key :: keys =>
      match _data st !! key with
      | None => (Py.Raise Py.KeyError, st)
      | Some _ =>
          let st1 := {| _data := base.delete key (_data st);
                        _expirations := _expirations st |} in
          match _expirations st1 !! key with
          | None => (Py.Raise Py.KeyError, st1)
          | Some _ => delete_keys keys (forget key st)
          end
      end
  end.

(** One iteration of the [while True] loop of the cleaner. *)
Definition sweep (t : Q) (st : storage) : Py.result unit * storage :=
  delete_keys (expired_keys t st) st.

(** Every key with an expiry holds a value. *)
Definition consistent (st : storage) : Prop :=
  forall key, is_Some (_expirations st !! key) -> is_Some (_data st !! key).

(** A call on the store. *)
Inductive operation :=
| OpGet (key : string) (t : Q)
| OpSet (key value : string) (ttl : option Z) (t : Q)
| OpIncr (key : string) (t : Q)
| OpExpire (key : string) (ttl : Z) (t : Q)
| OpDelete (key : string)
| OpSweep (t : Q).

Definition apply (o : operation) (st : storage) : storage :=
  match o with
  | OpGet key t => snd (get key t st)
  | OpSet key value ttl t => set key value ttl t st
  | OpIncr key t => snd (incr key t st)
  | OpExpire key ttl t => snd (expire key ttl t st)
  | OpDelete key => snd (delete key st)
  | OpSweep t => snd (sweep t st)
  end.

Definition apply_all (ops : list operation) (st : storage) : storage :=
  fold_left (fun st o => apply o st) ops st.

(** The key an operation names, if it names one. *)
Definition target (o : operation) : option string :=
  match o with
  | OpGet key _ | OpSet key _ _ _ | OpIncr key _ | OpExpire key _ _ | OpDelete key =>
      Some key
  | OpSweep _ => None
  end.

(** [incr] at each of the times [ts] in turn. *)
Fixpoint incr_each (key : string) (ts : list Q) (st : storage) : list Z * storage :=
  match ts with
  | [] => ([], st)
  | t :: ts =>
      let '(n, st) := incr key t st in
      let '(ns, st) := incr_each key ts st in
      (n :: ns, st)
  end.

(** *** The two storage accesses of [incr]

    [incr] touches the store twice: [value = await self.get(key)], and
    later one [await self.set(key, ...)] of a value computed from what
    it read.  Nothing in [incr] holds the store between the two. *)

Definition incr_read (key : string) (t : Q) (st : storage) : option string * storage :=
  get key t st.

Definition incr_write (key : string) (value : option string) (t : Q) (st : storage)
  : Z * storage :=
  let value := default "0"%string value in
  match Py.int_of_str value with
  | Some n =>
      let new_value := n + 1 in
      (new_value, set key (Py.str_int new_value) None t st)
  | None => (1, set key "1" None t st)
  end.

(** Callers of [incr] on one key whose accesses are scheduled one at a
    time: [Reads c] lets caller [c] do its read, [Writes c] lets it do
    the rest and return. *)
Inductive access :=
| Reads (caller : nat)
| Writes (caller : nat).

(** The store, what each caller in progress has read, and what each
    caller that is done has returned. *)
Record callers := {
  shared : storage;
  holding : gmap nat (option string);
  returned : gmap nat Z
}.

Definition access_step (key : string) (t : Q) (a : access) (s : callers) : callers :=
  match a with
  | Reads c =>
      let '(value, st) := incr_read key t (shared s) in
      {| shared := st; holding := <[c := value]> (holding s); returned := returned s |}
  | Writes c =>
      match holding s !! c with
      | Some value =>
          let '(n, st) := incr_write key value t (shared s) in
          {| shared := st; holding := base.delete c (holding s);
             returned := <[c := n]> (returned s) |}
      | None => s
      end
  end.

Definition schedule (key : string) (t : Q) (accesses : list access) (st : storage)
  : callers :=
  fold_left (fun s a => access_step key t a s) accesses
    {| shared := st; holding := ∅; returned := ∅ |}.

End MemoryStorage.

(** ** Store-passing computations that may raise *)

Module Run.

Import Py.

Definition M (A : Type) : Type :=
  MemoryStorage.storage -> result A * MemoryStorage.storage.

Definition ret {A} (a : A) : M A := fun st => (Ok a, st).

Definition raise {A} (e : exn) : M A := fun st => (Raise e, st).

Definition bind {A B} (m : M A) (k : A -> M B) : M B :=
  fun st =>
    match m st with
    | (Ok a, st') => k a st'
    | (Raise e, st') => (Raise e, st')
    end.

(** A storage call that cannot raise. *)
Definition call {A} (f : MemoryStorage.storage -> A * MemoryStorage.storage) : M A :=
  fun st => let '(a, st') := f st in (Ok a, st').

Definition write (f : MemoryStorage.storage -> MemoryStorage.storage) : M unit :=
  fun st => (Ok tt, f st).

(** A conversion that raises [ValueError] when it fails. *)
Definition convert {A} (o : option A) : M A :=
  match o with
  | Some a => ret a
  | None => raise ValueError
  end.

End Run.

Notation "'let*' x ':=' m 'in' k" := (Run.bind m (fun x => k))
  (at level 10, x pattern, m at level 100, k at level 200).

(** The options dictionary an algorithm reads: [rate], [interval],
    [algorithm], each possibly missing. *)
Record policy := {
  rate : option Z;
  interval : option string;
  algorithm : option string
}.

(** The result dictionary of a check. *)
Record decision := {
  allowed : bool;
  limit : Z;
  remaining : Z;
  reset_seconds : Z;
  retry_after : Z
}.

(** ** algorithms/token_bucket.py *)

Module TokenBucket.

Import Py Run.

Definition bucket_key (identifier : string) : string := "tb:" +:+ identifier.
Definition last_update_key (identifier : string) : string :=
  "tb:" +:+ identifier +:+ ":last".

(** [int(time.time() * 1000)] *)
Definition now_ms (t : Q) : Z := int_of_float (t * 1000)%Q.

Definition _get_bucket_state (bucket_key last_update_key : string) (rate : Z) (t : Q)
  : M (Q * Z) :=
  let* current_tokens := call (MemoryStorage.get bucket_key t) in
  let* last_update := call (MemoryStorage.get last_update_key t) in
  let* current_tokens :=
    match current_tokens with
    | None => ret (inject_Z rate)
    | Some s => convert (float_of_str s)
    end in
  let* last_update :=
    match last_update with
    | None => ret (now_ms t)
    | Some s => convert (int_of_str s)
    end in
  ret (current_tokens, last_update).

Definition _store_bucket_state (bucket_key last_update_key : string)
    (tokens : Q) (update_time : Z) (ttl : Z) (t : Q) : M unit :=
  let* _ := write (MemoryStorage.set bucket_key (str_float tokens) (Some ttl) t) in
  write (MemoryStorage.set last_update_key (str_int update_time) (Some ttl) t).

(** The numbers [check] computes between reading and writing the state. *)
Definition refill_rate (rate interval_seconds : Z) : Q :=
  (inject_Z rate / inject_Z interval_seconds)%Q.

Definition refill_tokens (rate interval_seconds elapsed_ms : Z) : Q :=
  ((inject_Z elapsed_ms / 1000) * refill_rate rate interval_seconds)%Q.

Definition refilled (rate interval_seconds : Z) (current_tokens : Q) (elapsed_ms : Z) : Q :=
  Py.min (current_tokens + refill_tokens rate interval_seconds elapsed_ms)%Q (inject_Z rate).

Definition check (identifier : string) (options : policy) (t : Q) : M decision :=
  let rate := default 60 (rate options) in
  let interval := default "minute"%string (interval options) in
  let interval_seconds := Utils.get_interval_in_seconds interval in
  let bucket_key := bucket_key identifier in
  let last_update_key := last_update_key identifier in
  let* (current_tokens, last_update) :=
    _get_bucket_state bucket_key last_update_key rate t in
  let now := now_ms t in
  let elapsed_ms := now - last_update in
  let refill_rate := refill_rate rate interval_seconds in
  let new_tokens := refilled rate interval_seconds current_tokens elapsed_ms in
  let allowed := Qleb 1 new_tokens in
  let new_tokens := if allowed then (new_tokens - 1)%Q else new_tokens in
  let* _ := _store_bucket_state bucket_key last_update_key new_tokens now interval_seconds t in
  if Qeq_bool refill_rate 0 then raise ZeroDivisionError
  else
    let ms_until_refill :=
      if allowed then (((inject_Z rate - new_tokens) / refill_rate) * 1000)%Q
      else (((1 - new_tokens) / refill_rate) * 1000)%Q in
    ret {| allowed := allowed;
           limit := rate;
           remaining := int_of_float new_tokens;
           reset_seconds := int_of_float (ms_until_refill / 1000)%Q;
           retry_after := if allowed then 0 else int_of_float (ms_until_refill / 1000)%Q |}.

Definition reset (identifier : string) (options : option policy) (t : Q) : M bool :=
  let rate := default 60 (options ≫= rate) in
  let* _ := write (MemoryStorage.set (bucket_key identifier) (str_int rate) None t) in
  let* _ := write (MemoryStorage.set (last_update_key identifier) (str_int (now_ms t)) None t) in
  ret true.

(** The state [check] writes back. *)
Definition stored_state (identifier : string) (tokens : Q) (now interval_seconds : Z)
    (t : Q) (st : MemoryStorage.storage) : MemoryStorage.storage :=
  MemoryStorage.set (last_update_key identifier) (str_int now) (Some interval_seconds) t
    (MemoryStorage.set (bucket_key identifier) (str_float tokens) (Some interval_seconds) t st).

End TokenBucket.

(** ** algorithms/sliding_window.py *)

Module SlidingWindow.

Import Py Run.

Definition window_key (identifier : string) (window : Z) : string :=
  "sw:" +:+ identifier +:+ ":" +:+ str_int window.

(** [int(time.time())] *)
Definition now_s (t : Q) : Z := int_of_float t.

Definition current_window (now interval_seconds : Z) : Z :=
  now / interval_seconds * interval_seconds.

Definition _get_window_counts (current_key previous_key : string) (t : Q)
  : M (Z * Z) :=
  let* current_count := call (MemoryStorage.get current_key t) in
  let* previous_count := call (MemoryStorage.get previous_key t) in
  let* current_count :=
    match current_count with
    | None => ret 0
    | Some s => convert (int_of_str s)
    end in
  let* previous_count :=
    match previous_count with
    | None => ret 0
    | Some s => convert (int_of_str s)
    end in
  ret (current_count, previous_count).

Definition window_position (now interval_seconds : Z) : Q :=
  (inject_Z (now mod interval_seconds) / inject_Z interval_seconds)%Q.

Definition weighted_count (current_count previous_count now interval_seconds : Z) : Q :=
  (inject_Z current_count
   + inject_Z previous_count * (1 - window_position now interval_seconds))%Q.

Definition check (identifier : string) (options : policy) (t : Q) : M decision :=
  let rate := default 60 (rate options) in
  let interval := default "minute"%string (interval options) in
  let interval_seconds := Utils.get_interval_in_seconds interval in
  let now := now_s t in
  let current_window := current_window now interval_seconds in
  let previous_window := current_window - interval_seconds in
  let current_window_key := window_key identifier current_window in
  let previous_window_key := window_key identifier previous_window in
  let* (current_count, previous_count) :=
    _get_window_counts current_window_key previous_window_key t in
  let weighted_count := weighted_count current_count previous_count now interval_seconds in
  let allowed := Qltb weighted_count (inject_Z rate) in
  let* _ :=
    if allowed then
      let* _ := call (MemoryStorage.incr current_window_key t) in
      let* _ := call (MemoryStorage.expire current_window_key (interval_seconds * 2) t) in
      ret tt
    else ret tt in
  let remaining :=
    Z.max 0 (int_of_float (inject_Z rate - weighted_count - (if allowed then 1 else 0))%Q) in
  let reset := interval_seconds - now mod interval_seconds in
  ret {| allowed := allowed;
         limit := rate;
         remaining := remaining;
         reset_seconds := reset;
         retry_after := if allowed then 0 else reset |}.

(** [self_interval] is the [interval] entry of the options the algorithm
    object was built with. *)
Definition reset (self_interval : option string) (identifier : string)
    (options : option policy) (t : Q) : M bool :=
  let interval :=
    default (default "minute"%string self_interval) (options ≫= interval) in
  let interval_seconds := Utils.get_interval_in_seconds interval in
  let now := now_s t in
  let current_window := current_window now interval_seconds in
  let previous_window := current_window - interval_seconds in
  let* _ := write (MemoryStorage.set (window_key identifier current_window) "0" None t) in
  let* _ := write (MemoryStorage.set (window_key identifier previous_window) "0" None t) in
  ret true.


End SlidingWindow.

(** ** limiter.py *)

Module RateLimiter.

Import Py.

(** The [metrics] dictionary: two integer entries. *)
Record metrics_t := {
  requests_total : Z;
  throttled_total : Z
}.

(** The options dictionary of the limiter. *)
Record options_t := {
  opt_rate : option Z;
  opt_interval : option string;
  opt_algorithm : option string;
  client_identifier : option string;
  endpoint_overrides : gmap string policy
}.

(** [self.options] seen as the options of an algorithm call. *)
Definition as_policy (o : options_t) : policy :=
  {| rate := opt_rate o; interval := opt_interval o; algorithm := opt_algorithm o |}.

(** A dictionary is falsy when it is empty. *)
Definition policy_truthy (p : policy) : bool :=
  match rate p, interval p, algorithm p with
  | None, None, None => false
  | _, _, _ => true
  end.

(** Dictionaries are objects: the heap maps a reference to the counters
    it holds, so that a copy and the original can be told apart.  The
    world is the heap together with the store object. *)
Definition ref := positive.

Record world := {
  heap : gmap ref metrics_t;
  storage : MemoryStorage.storage
}.

(** The limiter object; its attributes are bound once in [__init__].
    [self_algorithm] is [self.algorithm], [metrics] the reference held
    in [self.metrics]. *)
Record limiter := {
  options : options_t;
  self_algorithm : string;
  metrics : ref
}.

Definition zero_metrics : metrics_t :=
  {| requests_total := 0; throttled_total := 0 |}.

(** [RateLimiter(options)] in a world with heap [h]. *)
Definition init (o : options_t) (h : gmap ref metrics_t) : limiter * world :=
  let l := fresh (dom h) in
  ({| options := o;
      self_algorithm := default "token_bucket"%string (opt_algorithm o);
      metrics := l |},
   {| heap := <[l := zero_metrics]> h; storage := MemoryStorage.empty |}).

Definition get_client_identifier (self : limiter) (request : Utils.request) : string :=
  let client_info := Utils.normalize_client_info request in
  let by_user :=
    match Utils.ci_user_id client_info with
    | Some u =>
        if Utils.id_truthy u
           && bool_decide (client_identifier (options self) = Some "user_id"%string)
        then Some ("user:" +:+ Utils.id_str u)
        else None
    | None => None
    end in
  match by_user with
  | Some identifier => identifier
  | None =>
      match Utils.ci_api_key client_info with
      | Some api_key =>
          if truthy api_key then "apikey:" +:+ api_key
          else "ip:" +:+ Utils.ci_ip client_info
      | None => "ip:" +:+ Utils.ci_ip client_info
      end
  end.

Definition bump_requests (m : metrics_t) : metrics_t :=
  {| requests_total := requests_total m + 1; throttled_total := throttled_total m |}.

Definition bump_throttled (m : metrics_t) : metrics_t :=
  {| requests_total := requests_total m; throttled_total := throttled_total m + 1 |}.

(** [endpoint_overrides.get(path, options or self.options)] *)
Definition effective_options (self : limiter) (path : string) (opts : option policy)
  : policy :=
  match endpoint_overrides (options self) !! path with
  | Some p => p
  | None =>
      match opts with
      | Some p => if policy_truthy p then p else as_policy (options self)
      | None => as_policy (options self)
      end
  end.

Definition check (self : limiter) (request : Utils.request) (opts : option policy)
    (t : Q) (w : world) : result decision * world :=
  let h := alter bump_requests (metrics self) (heap w) in
  let identifier := get_client_identifier self request in
  let client_info := Utils.normalize_client_info request in
  let path := Utils.ci_path client_info in
  let effective_options := effective_options self path opts in
  let '(result, st) :=
    if String.eqb (self_algorithm self) "sliding_window"
    then SlidingWindow.check identifier effective_options t (storage w)
    else TokenBucket.check identifier effective_options t (storage w) in
  match result with
  | Ok d =>
      let h := if allowed d then h else alter bump_throttled (metrics self) h in
      (Ok d, {| heap := h; storage := st |})
  | Raise e => (Raise e, {| heap := h; storage := st |})
  end.

Definition reset (self : limiter) (identifier : string) (opts : option policy)
    (t : Q) (w : world) : result bool * world :=
  let algorithm_name := default (self_algorithm self) (opts ≫= algorithm) in
  let '(result, st) :=
    if String.eqb algorithm_name "token_bucket"
    then TokenBucket.reset identifier opts t (storage w)
    else if String.eqb algorithm_name "sliding_window"
    then SlidingWindow.reset (opt_interval (options self)) identifier opts t (storage w)
    else (Raise KeyError, storage w) in
  (result, {| heap := heap w; storage := st |}).

(** [dict(self.metrics)]: a new dictionary with the same entries. *)
Definition get_metrics (self : limiter) (w : world) : ref * world :=
  let l := fresh (dom (heap w)) in
  let m := default zero_metrics (heap w !! metrics self) in
  (l, {| heap := <[l := m]> (heap w); storage := storage w |}).

(** What a caller can do with a dictionary it holds: overwrite it. *)
Definition dict_update (l : ref) (m : metrics_t) (w : world) : world :=
  {| heap := <[l := m]> (heap w); storage := storage w |}.

(** *** The signals of a request, for the properties below *)








End RateLimiter.

(** ** Callers of a limiter *)

(** What a program holding a limiter can do with it: check a request,
    reset an identifier, take the metrics, and overwrite a metrics
    dictionary it was handed ([k] counts from the latest one). *)
Module Session.

Import RateLimiter.

Inductive op :=
| Check (request : Utils.request) (opts : option policy) (t : Q)
| Reset (identifier : string) (opts : option policy) (t : Q)
| GetMetrics
| Overwrite (k : nat) (m : metrics_t).

(** The world and the references the caller was handed so far. *)
Definition state : Type := world * list ref.

Definition step (self : limiter) (o : op) (s : state) : state :=
  let '(w, handed) := s in
  match o with
  | Check request opts t => (snd (check self request opts t w), handed)
  | Reset identifier opts t => (snd (reset self identifier opts t w), handed)
  | GetMetrics => let '(l, w') := get_metrics self w in (w', l :: handed)
  | Overwrite k m =>
      match handed !! k with
      | Some l => (dict_update l m w, handed)
      | None => s
      end
  end.

Definition run (self : limiter) (ops : list op) (s : state) : state :=
  fold_left (fun s o => step self o s) ops s.

(** The counters of the limiter. *)
Definition counters (self : limiter) (s : state) : metrics_t :=
  default zero_metrics (heap (fst s) !! metrics self).

Definition denied (r : Py.result decision) : bool :=
  match r with
  | Py.Ok d => negb (allowed d)
  | Py.Raise _ => false
  end.

(** The invariant of a session: the limiter's counters exist, and no
    reference handed to the caller is the limiter's own. *)
Definition sound (self : limiter) (s : state) : Prop :=
  is_Some (heap (fst s) !! metrics self)
  /\ Forall (fun l => l <> metrics self) (snd s).

(** What a step hands back to the caller when it is a check. *)
Definition outcome (self : limiter) (o : op) (s : state) : option (Py.result decision) :=
  match o with
  | Check request opts t => Some (fst (check self request opts t (fst s)))
  | _ => None
  end.

(** The results of the checks of a session, in order. *)
Fixpoint outcomes (self : limiter) (ops : list op) (s : state)
  : list (Py.result decision) :=
  match ops with
  | [] => []
  | o :: ops =>
      match outcome self o s with
      | Some r => r :: outcomes self ops (step self o s)
      | None => outcomes self ops (step self o s)
      end
  end.

End Session.

(** ** fastapi.py *)

Module FastAPI.

Import Py.

(** What [JSONResponse(content=..., status_code=..., headers=...)] is
    built from. *)
Record json_response := {
  content : Utils.error_response;
  status_code : Z;
  headers : gmap string string
}.

Section Middleware.

(** The application behind the middleware.  [call_next request] runs it
    on its own state, and returns a response or raises;
    [set_header name value response] is
    [response.headers[name] = value]. *)
Context {Response App Error : Type}.
Variable set_header : string -> string -> Response -> Response.
Variable call_next : Utils.request -> App -> (Error + Response) * App.

(** How a call of [dispatch] ends. *)
Inductive outcome :=
| Returns (response : Response)
| ReturnsJSON (response : json_response)
| CheckRaises (e : exn)
| NextRaises (e : Error).




End Middleware.

End FastAPI.

(** ** Concrete inputs *)

Module Examples.

Import RateLimiter.

Definition no_options : options_t :=
  {| opt_rate := None; opt_interval := None; opt_algorithm := None;
     client_identifier := None; endpoint_overrides := ∅ |}.


Definition request_from (host path : string) : Utils.request :=
  {| Utils.client_host := Some host; Utils.remote_addr := None; Utils.headers := ∅;
     Utils.user := None; Utils.path := Some path |}.

Definition limiter_of (o : options_t) : limiter := fst (init o ∅).
Definition world_of (o : options_t) : world := snd (init o ∅).

Definition per (rate : Z) (interval : string) : policy :=
  {| rate := Some rate; interval := Some interval; algorithm := None |}.

(** A limiter left on its default algorithm, with one route overridden by
    a policy that names the sliding window. *)
Definition report_policy : policy :=
  {| rate := Some 1; interval := Some "minute"%string;
     algorithm := Some "sliding_window"%string |}.

Definition override_options : options_t :=
  {| opt_rate := None; opt_interval := None; opt_algorithm := None;
     client_identifier := None;
     endpoint_overrides := {[ "/api/report"%string := report_policy ]} |}.



(** A store whose token count for [ip:1.2.3.4] is not a number. *)
Definition corrupt_bucket : MemoryStorage.storage :=
  MemoryStorage.set "tb:ip:1.2.3.4" "abc" None 0 MemoryStorage.empty.

Definition corrupt_last_update : MemoryStorage.storage :=
  MemoryStorage.set "tb:ip:1.2.3.4:last" "abc" None 0 MemoryStorage.empty.

(** A store whose window counter at time 1000 is not a number. *)
Definition corrupt_window : MemoryStorage.storage :=
  MemoryStorage.set "sw:ip:1.2.3.4:960" "abc" None 0 MemoryStorage.empty.

(** Two tokens per second; the bucket of [ip:1.2.3.4] after two checks
    at time 1000, both allowed, is empty. *)
Definition burst : policy := per 2 "second".

Definition drained_bucket : MemoryStorage.storage :=
  snd (TokenBucket.check "ip:1.2.3.4" burst 1000
         (snd (TokenBucket.check "ip:1.2.3.4" burst 1000 MemoryStorage.empty))).

(** [n] checks in a row at the same instant. *)
Fixpoint repeat_check (check : string -> policy -> Q -> Run.M decision) (n : nat)
    (identifier : string) (options : policy) (t : Q) (st : MemoryStorage.storage)
  : list (Py.result decision) * MemoryStorage.storage :=
  match n with
  | O => ([], st)
  | S k =>
      let '(r, st) := check identifier options t st in
      let '(rs, st) := repeat_check check k identifier options t st in
      (r :: rs, st)
  end.

Definition allowances (rs : list (Py.result decision)) : list (option bool) :=
  map (fun r => match r with Py.Ok d => Some (allowed d) | Py.Raise _ => None end) rs.

(** A limiter of 5 requests per minute with one route overridden by a
    policy that names an interval only. *)
Definition route_without_rate : options_t :=
  {| opt_rate := Some 5; opt_interval := None; opt_algorithm := None;
     client_identifier := None;
     endpoint_overrides :=
       {[ "/api/report"%string :=
            {| rate := None; interval := Some "hour"%string; algorithm := None |} ]} |}.



End Examples.

(** * Properties *)

(** ** Reading back what [str] prints *)

Section Digits.

Import Py.

Lemma append_cons (x : ascii) (a b : string) : String x a +:+ b = String x (a +:+ b).
Proof. reflexivity. Qed.

Lemma append_nil_l (b : string) : "" +:+ b = b.
Proof. reflexivity. Qed.

Lemma append_assoc (a b c : string) : (a +:+ b) +:+ c = a +:+ (b +:+ c).
Proof.
  induction a as [|x a IH]; [reflexivity|].
  rewrite !append_cons, IH. reflexivity.
Qed.

Lemma append_nil_r (a : string) : a +:+ "" = a.
Proof.
  induction a as [|x a IH]; [reflexivity|].
  rewrite append_cons, IH. reflexivity.
Qed.

Lemma digit_cases (d : Z) :
  0 <= d < 10 ->
  d = 0 \/ d = 1 \/ d = 2 \/ d = 3 \/ d = 4 \/ d = 5 \/ d = 6 \/ d = 7 \/ d = 8 \/ d = 9.
Proof. lia. Qed.

Lemma digit_of_digit_char (d : Z) : 0 <= d < 10 -> digit_of (digit_char d) = Some d.
Proof.
  intros H. destruct (digit_cases d H) as [->|[->|[->|[->|[->|[->|[->|[->|[->| ->]]]]]]]]];
    reflexivity.
Qed.


Lemma digit_char_plain (d : Z) : 0 <= d < 10 -> plain_digit (digit_char d).
Proof.
  intros H. destruct (digit_cases d H) as [->|[->|[->|[->|[->|[->|[->|[->|[->| ->]]]]]]]]];
    repeat split; discriminate.
Qed.

Lemma digits_from_digit (d : Z) (r : string) (acc : Z) (cnt : nat) (prev : bool) :
  0 <= d < 10 ->
  digits_from (String (digit_char d) r) acc cnt prev
  = digits_from r (10 * acc + d) (S cnt) true.
Proof.
  intros H. cbn [digits_from]. rewrite (digit_of_digit_char d H). reflexivity.
Qed.

(** Reading the digits printed for [n] in front of [rest] shifts the
    accumulator by their number and adds [n]. *)
Lemma digits_from_to_digits (f : nat) :
  forall n rest, 0 <= n < 10 ^ Z.of_nat (S f) ->
    exists k, forall acc cnt prev,
      digits_from (to_digits (S f) n rest) acc cnt prev
      = digits_from rest (acc * 10 ^ Z.of_nat k + n) (cnt + k)%nat true.
Proof.
  induction f as [|f IH]; intros n rest Hn.
  - exists 1%nat. intros acc cnt prev.
    assert (Hd : 0 <= n mod 10 < 10) by (apply Z.mod_pos_bound; lia).
    assert (Hm : n mod 10 = n)
      by (apply Z.mod_small; change (10 ^ Z.of_nat 1) with 10 in Hn; lia).
    assert (E : to_digits 1 n rest = String (digit_char (n mod 10)) rest)
      by (cbn [to_digits]; destruct (n <? 10); reflexivity).
    rewrite E, (digits_from_digit _ _ _ _ _ Hd), Hm.
    f_equal; [change (Z.of_nat 1) with 1; lia | lia].
  - assert (Hd : 0 <= n mod 10 < 10) by (apply Z.mod_pos_bound; lia).
    change (to_digits (S (S f)) n rest)
      with (if n <? 10 then String (digit_char (n mod 10)) rest
            else to_digits (S f) (n / 10) (String (digit_char (n mod 10)) rest)).
    destruct (Z.ltb_spec n 10) as [Hlt|Hge].
    + exists 1%nat. intros acc cnt prev.
      rewrite (digits_from_digit _ _ _ _ _ Hd), (Z.mod_small n 10) by lia.
      f_equal; [change (Z.of_nat 1) with 1; lia | lia].
    + assert (Hq : 0 <= n / 10 < 10 ^ Z.of_nat (S f)).
      { split; [apply Z.div_pos; lia|].
        apply Z.div_lt_upper_bound; [lia|].
        replace (10 * 10 ^ Z.of_nat (S f)) with (10 ^ Z.of_nat (S (S f))); [lia|].
        rewrite (Nat2Z.inj_succ (S f)), Z.pow_succ_r by lia. reflexivity. }
      destruct (IH (n / 10) (String (digit_char (n mod 10)) rest) Hq) as [k Hk].
      exists (S k). intros acc cnt prev.
      rewrite Hk, (digits_from_digit _ _ _ _ _ Hd).
      f_equal; [|lia].
      rewrite Nat2Z.inj_succ, Z.pow_succ_r by lia.
      pose proof (Z.div_mod n 10 ltac:(lia)). lia.
Qed.

Lemma fuel_enough (n : Z) : 0 <= n -> 0 <= n < 10 ^ Z.of_nat (S (Z.to_nat (Z.log2 n))).
Proof.
  intros Hn. split; [exact Hn|].
  destruct (Z.eq_dec n 0) as [->|Hz]; [reflexivity|].
  assert (Hl := Z.log2_nonneg n).
  rewrite Nat2Z.inj_succ, Z2Nat.id by exact Hl.
  assert (H2 : n < 2 ^ Z.succ (Z.log2 n)) by (apply Z.log2_spec; lia).
  assert (H3 : 2 ^ Z.succ (Z.log2 n) <= 10 ^ Z.succ (Z.log2 n))
    by (apply Z.pow_le_mono_l; lia).
  lia.
Qed.

Lemma to_digits_app (f : nat) : forall n rest,
  to_digits f n rest = to_digits f n "" +:+ rest.
Proof.
  induction f as [|f IH]; intros n rest; [reflexivity|].
  cbn [to_digits]. destruct (n <? 10); [reflexivity|].
  rewrite (IH _ (String _ rest)), (IH _ (String _ "")).
  rewrite append_assoc. reflexivity.
Qed.

(** The digits of [n], followed by [rest], read as [n] and then [rest]. *)
Lemma digits_from_str_nat (n : Z) (rest : string) :
  0 <= n ->
  exists k, forall acc cnt prev,
    digits_from (str_nat n +:+ rest) acc cnt prev
    = digits_from rest (acc * 10 ^ Z.of_nat k + n) (cnt + k)%nat true.
Proof.
  intros Hn. unfold str_nat. rewrite <- to_digits_app.
  apply digits_from_to_digits, fuel_enough, Hn.
Qed.

Lemma digitpart_str_nat (n : Z) : 0 <= n -> exists k, digitpart (str_nat n) = Some (n, k).
Proof.
  intros Hn. destruct (digits_from_str_nat n "" Hn) as [k Hk].
  exists k. unfold digitpart.
  rewrite <- (append_nil_r (str_nat n)), Hk.
  cbn [digits_from]. rewrite Z.mul_0_l. reflexivity.
Qed.


Lemma every_impl (P Q : ascii -> Prop) (s : string) :
  (forall c, P c -> Q c) -> every P s -> every Q s.
Proof.
  intros HPQ. induction s as [|c r IH]; [trivial|].
  intros [Hc Hr]. split; auto.
Qed.

Lemma every_app (P : ascii -> Prop) (a b : string) :
  every P a -> every P b -> every P (a +:+ b).
Proof.
  induction a as [|c r IH]; [trivial|].
  intros [Hc Hr] Hb. rewrite append_cons. split; auto.
Qed.

Lemma to_digits_every (f : nat) : forall n rest,
  every plain_digit rest -> every plain_digit (to_digits f n rest).
Proof.
  induction f as [|f IH]; intros n rest Hrest; [exact Hrest|].
  assert (Hd : 0 <= n mod 10 < 10) by (apply Z.mod_pos_bound; lia).
  cbn [to_digits]. destruct (n <? 10).
  - split; [apply digit_char_plain, Hd | exact Hrest].
  - apply IH. split; [apply digit_char_plain, Hd | exact Hrest].
Qed.

Lemma str_nat_every (n : Z) : every plain_digit (str_nat n).
Proof. apply to_digits_every. exact I. Qed.

(** The first character printed for a number is a digit. *)
Lemma to_digits_head (f : nat) : forall n rest,
  exists d r, 0 <= d < 10 /\ to_digits (S f) n rest = String (digit_char d) r.
Proof.
  induction f as [|f IH]; intros n rest.
  - exists (n mod 10), rest. split; [apply Z.mod_pos_bound; lia|].
    cbn [to_digits]. destruct (n <? 10); reflexivity.
  - change (to_digits (S (S f)) n rest)
      with (if n <? 10 then String (digit_char (n mod 10)) rest
            else to_digits (S f) (n / 10) (String (digit_char (n mod 10)) rest)).
    destruct (n <? 10).
    + exists (n mod 10), rest. split; [apply Z.mod_pos_bound; lia | reflexivity].
    + apply IH.
Qed.

Lemma str_nat_head (n : Z) :
  exists c r, plain_digit c /\ str_nat n = String c r.
Proof.
  destruct (to_digits_head (Z.to_nat (Z.log2 n)) n "") as (d & r & Hd & E).
  exists (digit_char d), r. split; [apply digit_char_plain, Hd | exact E].
Qed.


Lemma rstrip_nonblank (s : string) : every nonblank s -> rstrip s = s.
Proof.
  induction s as [|c r IH]; [reflexivity|].
  intros [Hc Hr]. cbn [rstrip]. rewrite (IH Hr).
  destruct r; [rewrite Hc|]; reflexivity.
Qed.

Lemma strip_nonblank (s : string) : every nonblank s -> strip s = s.
Proof.
  intros H. unfold strip.
  assert (E : lstrip s = s).
  { destruct s as [|c r]; [reflexivity|]. destruct H as [Hc _].
    cbn [lstrip]. rewrite Hc. reflexivity. }
  rewrite E. apply rstrip_nonblank, H.
Qed.

Lemma plain_digit_nonblank (c : ascii) : plain_digit c -> nonblank c.
Proof. intros H. apply H. Qed.

Lemma str_int_nonblank (n : Z) : every nonblank (str_int n).
Proof.
  unfold str_int. destruct (n <? 0).
  - split; [reflexivity|].
    apply (every_impl plain_digit); [exact plain_digit_nonblank | apply str_nat_every].
  - apply (every_impl plain_digit); [exact plain_digit_nonblank | apply str_nat_every].
Qed.

Lemma signed_digitpart_unsigned (c : ascii) (r : string) :
  c <> "-"%char -> c <> "+"%char ->
  signed_digitpart (String c r) = option_map fst (digitpart (String c r)).
Proof.
  intros Hm Hp. unfold signed_digitpart.
  destruct c as [[] [] [] [] [] [] [] []]; try reflexivity; congruence.
Qed.

Lemma int_of_str_signed (s : string) : int_of_str s = signed_digitpart (strip s).
Proof. reflexivity. Qed.

Lemma signed_digitpart_str_int (n : Z) : signed_digitpart (str_int n) = Some n.
Proof.
  unfold str_int. destruct (Z.ltb_spec n 0) as [Hneg|Hpos].
  - destruct (digitpart_str_nat (- n)) as [k Hk]; [lia|].
    cbn [signed_digitpart]. rewrite Hk. cbn. f_equal. lia.
  - destruct (str_nat_head n) as (c & r & Hc & E).
    destruct (digitpart_str_nat n Hpos) as [k Hk].
    rewrite E, signed_digitpart_unsigned, <- E, Hk by apply Hc.
    reflexivity.
Qed.

(** [int(str(n)) = n] *)
Lemma int_of_str_str_int (n : Z) : int_of_str (str_int n) = Some n.
Proof.
  rewrite int_of_str_signed, strip_nonblank by apply str_int_nonblank.
  apply signed_digitpart_str_int.
Qed.

Lemma str_int_inj (n m : Z) : str_int n = str_int m -> n = m.
Proof.
  intros E. assert (H : Some n = Some m)
    by (rewrite <- (int_of_str_str_int n), <- (int_of_str_str_int m), E; reflexivity).
  congruence.
Qed.

(** *** Floats *)

Lemma split_at_none (p : ascii -> bool) (s : string) :
  every (fun c => p c = false) s -> split_at p s = (s, None).
Proof.
  induction s as [|c r IH]; [reflexivity|].
  intros [Hc Hr]. cbn [split_at]. rewrite Hc, (IH Hr). reflexivity.
Qed.

Lemma split_at_app (p : ascii -> bool) (a : string) (c : ascii) (b : string) :
  every (fun c => p c = false) a -> p c = true ->
  split_at p (a +:+ String c b) = (a, Some b).
Proof.
  intros Ha Hc. induction a as [|x a IH].
  - rewrite append_nil_l. cbn [split_at]. rewrite Hc. reflexivity.
  - destruct Ha as [Hx Ha]. rewrite append_cons. cbn [split_at].
    rewrite Hx, (IH Ha). reflexivity.
Qed.

Lemma eqb_false_l (c x : ascii) : x <> c -> Ascii.eqb c x = false.
Proof. intros H. apply Ascii.eqb_neq. congruence. Qed.

Lemma eqb_false_r (c x : ascii) : x <> c -> Ascii.eqb x c = false.
Proof. intros H. apply Ascii.eqb_neq. exact H. Qed.

Lemma plain_no_slash (c : ascii) : plain_digit c -> Ascii.eqb "/" c = false.
Proof. intros H. apply eqb_false_l, H. Qed.

Lemma plain_no_point (c : ascii) : plain_digit c -> Ascii.eqb "." c = false.
Proof. intros H. apply eqb_false_l, H. Qed.

Lemma plain_no_exp (c : ascii) : plain_digit c -> is_exp_mark c = false.
Proof.
  intros H. unfold is_exp_mark.
  rewrite !eqb_false_r by apply H. reflexivity.
Qed.


Lemma str_int_every (n : Z) : every int_char (str_int n).
Proof.
  unfold str_int. destruct (n <? 0).
  - split; [right; reflexivity|].
    apply (every_impl plain_digit); [left; assumption | apply str_nat_every].
  - apply (every_impl plain_digit); [left; assumption | apply str_nat_every].
Qed.

Lemma int_char_no_slash (c : ascii) : int_char c -> Ascii.eqb "/" c = false.
Proof. intros [H| ->]; [apply plain_no_slash, H | reflexivity]. Qed.

Lemma split_sign_digit (c : ascii) (r : string) :
  plain_digit c -> split_sign (String c r) = (false, String c r).
Proof.
  intros H. assert (Hm : c <> "-"%char) by apply H.
  assert (Hp : c <> "+"%char) by apply H.
  unfold split_sign.
  destruct c as [[] [] [] [] [] [] [] []]; try reflexivity; congruence.
Qed.

Lemma digits_from_fixed (k : nat) :
  forall f rest acc cnt prev, 0 <= f < 10 ^ Z.of_nat (S k) ->
    digits_from (fixed (S k) f rest) acc cnt prev
    = digits_from rest (acc * 10 ^ Z.of_nat (S k) + f) (cnt + S k)%nat true.
Proof.
  induction k as [|k IH]; intros f rest acc cnt prev Hf.
  - assert (Hd : 0 <= f mod 10 < 10) by (apply Z.mod_pos_bound; lia).
    change (10 ^ Z.of_nat 1) with 10 in *.
    cbn [fixed]. rewrite (digits_from_digit _ _ _ _ _ Hd), (Z.mod_small f 10) by lia.
    f_equal; lia.
  - assert (Hd : 0 <= f mod 10 < 10) by (apply Z.mod_pos_bound; lia).
    assert (Hp : 10 ^ Z.of_nat (S (S k)) = 10 * 10 ^ Z.of_nat (S k))
      by (rewrite (Nat2Z.inj_succ (S k)), Z.pow_succ_r by lia; reflexivity).
    assert (Hq : 0 <= f / 10 < 10 ^ Z.of_nat (S k)).
    { split; [apply Z.div_pos; lia|]. apply Z.div_lt_upper_bound; lia. }
    change (fixed (S (S k)) f rest)
      with (fixed (S k) (f / 10) (String (digit_char (f mod 10)) rest)).
    rewrite (IH _ _ _ _ _ Hq), (digits_from_digit _ _ _ _ _ Hd), Hp.
    f_equal; [|lia].
    pose proof (Z.div_mod f 10 ltac:(lia)). lia.
Qed.

Lemma fixed_every (k : nat) : forall f rest,
  every plain_digit rest -> every plain_digit (fixed k f rest).
Proof.
  induction k as [|k IH]; intros f rest Hrest; [exact Hrest|].
  cbn [fixed]. apply IH. split; [|exact Hrest].
  apply digit_char_plain, Z.mod_pos_bound. lia.
Qed.

Lemma digitpart_fixed (k : nat) (f : Z) :
  0 <= f < 10 ^ Z.of_nat (S k) -> digitpart (fixed (S k) f "") = Some (f, S k).
Proof.
  intros Hf. unfold digitpart. rewrite (digits_from_fixed k f "" 0 O false Hf).
  cbn [digits_from]. rewrite Z.mul_0_l. reflexivity.
Qed.

Lemma digitpart_or_empty_some (s : string) (v : Z * nat) :
  digitpart s = Some v -> digitpart_or_empty s = Some v.
Proof. destruct s; [discriminate | trivial]. Qed.

Lemma scale_from_sound (fuel : nat) : forall k d k',
  scale_from fuel k d = Some k' -> (10 ^ Z.of_nat k') mod d = 0 /\ (k <= k')%nat.
Proof.
  induction fuel as [|fuel IH]; intros k d k'; [discriminate|].
  cbn [scale_from]. destruct (Z.eqb_spec ((10 ^ Z.of_nat k) mod d) 0) as [E|_].
  - intros [= <-]. split; [exact E | lia].
  - intros H. destruct (IH _ _ _ H) as [H1 H2]. split; [exact H1 | lia].
Qed.

(** The mantissa [i.f] with [k] fractional digits. *)
Lemma mantissa_point (i f : Z) (k : nat) :
  0 <= i -> 0 <= f < 10 ^ Z.of_nat (S k) ->
  mantissa (str_nat i +:+ "." +:+ fixed (S k) f "")
  = Some (i * 10 ^ Z.of_nat (S k) + f, S k).
Proof.
  intros Hi Hf. unfold mantissa.
  rewrite (append_cons "." "" _), append_nil_l.
  rewrite (split_at_app _ (str_nat i) "." _);
    [| apply (every_impl plain_digit); [exact plain_no_point | apply str_nat_every]
     | reflexivity].
  destruct (digitpart_str_nat i Hi) as [j Hj].
  rewrite (digitpart_or_empty_some _ _ Hj).
  rewrite (digitpart_or_empty_some _ _ (digitpart_fixed k f Hf)).
  destruct (str_nat_head i) as (c & r & _ & E). rewrite E. reflexivity.
Qed.

Lemma decimal_body_point (neg : bool) (i f : Z) (k : nat) :
  0 <= i -> 0 <= f < 10 ^ Z.of_nat (S k) ->
  decimal_body neg (str_nat i +:+ "." +:+ fixed (S k) f "")
  = Some (inject_Z (if neg then - (i * 10 ^ Z.of_nat (S k) + f)
                    else i * 10 ^ Z.of_nat (S k) + f)
          * Qpower 10 (0 - Z.of_nat (S k)))%Q.
Proof.
  intros Hi Hf. unfold decimal_body.
  rewrite split_at_none.
  - rewrite (mantissa_point i f k Hi Hf). reflexivity.
  - apply every_app.
    + apply (every_impl plain_digit); [exact plain_no_exp | apply str_nat_every].
    + rewrite (append_cons "." "" _), append_nil_l. split; [reflexivity|].
      apply (every_impl plain_digit); [exact plain_no_exp | apply fixed_every; exact I].
Qed.

(** [m / 10^k] is [n / d] when [m * d = n * 10^k]. *)
Lemma scaled_value (m n : Z) (d : positive) (k : nat) :
  m * Zpos d = n * 10 ^ Z.of_nat k ->
  (inject_Z m * Qpower 10 (0 - Z.of_nat k) == n # d)%Q.
Proof.
  intros H. rewrite Z.sub_0_l, Qpower_opp.
  change 10%Q with (inject_Z 10).
  rewrite <- Zpower_Qpower by lia.
  assert (Hp : 0 < 10 ^ Z.of_nat k) by (apply Z.pow_pos_nonneg; lia).
  destruct (10 ^ Z.of_nat k) as [|p|p] eqn:Ep; try lia.
  unfold Qeq, Qmult, Qinv, inject_Z. cbn [Qnum Qden]. lia.
Qed.

Lemma decimal_of_str_point (n : Z) (d : positive) (k : nat) :
  (10 ^ Z.of_nat (S k)) mod Zpos d = 0 ->
  let p := 10 ^ Z.of_nat (S k) in
  let m := Z.abs n * (p / Zpos d) in
  exists y,
    decimal_of_str ((if n <? 0 then "-" else "")
                    +:+ str_nat (m / p) +:+ "." +:+ fixed (S k) (m mod p) "")
    = Some y
    /\ (y == n # d)%Q.
Proof.
  intros Hdiv p m.
  assert (Hp : 0 < p) by (apply Z.pow_pos_nonneg; lia).
  assert (Hpd : p = Zpos d * (p / Zpos d)) by (apply Z.div_exact; [lia | exact Hdiv]).
  assert (Hq : 0 <= p / Zpos d) by (apply Z.div_pos; lia).
  assert (Hm : 0 <= m) by (apply Z.mul_nonneg_nonneg; lia).
  assert (Hi : 0 <= m / p) by (apply Z.div_pos; lia).
  assert (Hf : 0 <= m mod p < p) by (apply Z.mod_pos_bound; lia).
  assert (Hmp : m / p * p + m mod p = m)
    by (pose proof (Z.div_mod m p ltac:(lia)); lia).
  assert (Hmd : m * Zpos d = Z.abs n * p) by (unfold m; rewrite Hpd at 2; lia).
  unfold decimal_of_str. destruct (Z.ltb_spec n 0) as [Hneg|Hpos].
  - rewrite (append_cons "-" "" _), append_nil_l.
    change (split_sign (String "-" (str_nat (m / p) +:+ "." +:+ fixed (S k) (m mod p) "")))
      with (true, str_nat (m / p) +:+ "." +:+ fixed (S k) (m mod p) "").
    cbv beta iota. rewrite (decimal_body_point true _ _ k Hi Hf).
    eexists. split; [reflexivity|]. fold p. rewrite Hmp.
    apply scaled_value. fold p. lia.
  - rewrite append_nil_l.
    destruct (str_nat_head (m / p)) as (c & r & Hc & E).
    rewrite E, append_cons, (split_sign_digit c _ Hc), <- append_cons, <- E.
    cbv beta iota. rewrite (decimal_body_point false _ _ k Hi Hf).
    eexists. split; [reflexivity|]. fold p. rewrite Hmp.
    apply scaled_value. fold p. lia.
Qed.

Lemma decimal_text_plain (neg : bool) (i f : Z) (k : nat) :
  every int_char ((if neg then "-" else "") +:+ str_nat i)
  /\ every plain_digit (fixed k f "").
Proof.
  split; [|apply fixed_every; exact I].
  destruct neg.
  - rewrite (append_cons "-" "" _), append_nil_l. split; [right; reflexivity|].
    apply (every_impl plain_digit); [left; assumption | apply str_nat_every].
  - rewrite append_nil_l.
    apply (every_impl plain_digit); [left; assumption | apply str_nat_every].
Qed.

Lemma int_char_nonblank (c : ascii) : int_char c -> nonblank c.
Proof. intros [H| ->]; [apply H | reflexivity]. Qed.

(** [float(str(x)) = x] *)
Lemma float_of_str_str_float (x : Q) :
  exists y, float_of_str (str_float x) = Some y /\ (y == x)%Q.
Proof.
  unfold str_float, float_of_str.
  assert (Hx : (Qnum (Qred x) # Qden (Qred x) == x)%Q)
    by (destruct (Qred x) eqn:E; rewrite <- E; apply Qred_correct).
  destruct (decimal_scale (Qden (Qred x))) as [k|] eqn:Ek.
  - apply scale_from_sound in Ek. destruct Ek as [Hdiv Hk].
    destruct k as [|k]; [lia|].
    set (p := 10 ^ Z.of_nat (S k)) in *.
    set (m := Z.abs (Qnum (Qred x)) * (p / Z.pos (Qden (Qred x)))).
    destruct (decimal_text_plain (Qnum (Qred x) <? 0) (m / p) (m mod p) (S k))
      as [Hhead Htail].
    rewrite <- append_assoc.
    rewrite (append_cons "." "" _), append_nil_l.
    assert (Hnb : every nonblank
                    (((if Qnum (Qred x) <? 0 then "-" else "") +:+ str_nat (m / p))
                     +:+ String "." (fixed (S k) (m mod p) ""))).
    { apply every_app.
      - apply (every_impl int_char); [exact int_char_nonblank | exact Hhead].
      - split; [reflexivity|].
        apply (every_impl plain_digit); [exact plain_digit_nonblank | exact Htail]. }
    assert (Hns : every (fun c => Ascii.eqb "/" c = false)
                    (((if Qnum (Qred x) <? 0 then "-" else "") +:+ str_nat (m / p))
                     +:+ String "." (fixed (S k) (m mod p) ""))).
    { apply every_app.
      - apply (every_impl int_char); [exact int_char_no_slash | exact Hhead].
      - split; [reflexivity|].
        apply (every_impl plain_digit); [exact plain_no_slash | exact Htail]. }
    rewrite (strip_nonblank _ Hnb), (split_at_none _ _ Hns).
    rewrite append_assoc.
    change (String "." (fixed (S k) (m mod p) ""))
      with ("." +:+ fixed (S k) (m mod p) "").
    destruct (decimal_of_str_point (Qnum (Qred x)) (Qden (Qred x)) k Hdiv)
      as (y & Hy & Ey).
    exists y. split; [exact Hy|]. rewrite Ey. exact Hx.
  - rewrite strip_nonblank
      by (apply every_app; [apply str_int_nonblank | split; [reflexivity|];
          apply (every_impl plain_digit);
            [exact plain_digit_nonblank | apply str_nat_every]]).
    rewrite (append_cons "/" "" _), append_nil_l.
    rewrite (split_at_app _ (str_int (Qnum (Qred x))) "/" _)
      by first [ reflexivity
               | apply (every_impl int_char);
                 [exact int_char_no_slash | apply str_int_every] ].
    rewrite signed_digitpart_str_int.
    destruct (digitpart_str_nat (Z.pos (Qden (Qred x)))) as [j Hj]; [lia|].
    rewrite Hj. cbn [Z.ltb Z.compare Z.to_pos].
    eexists. split; [reflexivity | exact Hx].
Qed.

End Digits.

(** ** utils.py: interval conversion *)

(** C8, as stated, fails: [HOUR] is none of the six names, yet the
    conversion lower-cases it first and returns 3600, not 60. *)
Lemma C8_counterexample :
  ~ (forall s : string,
        ~ In s Utils.known_intervals -> Utils.get_interval_in_seconds s = 60).
Proof.
  intros H. specialize (H "HOUR"%string).
  assert (E : Utils.get_interval_in_seconds "HOUR" = 3600) by reflexivity.
  rewrite E in H. assert (3600 = 60); [|discriminate].
  apply H. cbn. intros [F|[F|[F|[F|[F|[F|[]]]]]]]; discriminate F.
Qed.

(** C8, amended.  For every interval string whose lower-case form is not
    one of second, minute, hour, day, week, month, the conversion
    returns 60 seconds; it never fails. *)
Theorem C8_unknown_interval_default (s : string) :
  ~ In (Py.lower s) Utils.known_intervals ->
  Utils.get_interval_in_seconds s = 60.
Proof.
  intros H. unfold Utils.get_interval_in_seconds.
  repeat match goal with
         | |- context [String.eqb ?a ?b] =>
             destruct (String.eqb_spec a b) as [E|_];
             [exfalso; apply H; rewrite E; cbn; tauto|]
         end.
  reflexivity.
Qed.

Lemma C8_unknown_interval_default_witness :
  ~ In (Py.lower "Fortnight") Utils.known_intervals
  /\ Utils.get_interval_in_seconds "Fortnight" = 60.
Proof.
  assert (H : ~ In (Py.lower "Fortnight") Utils.known_intervals)
    by (cbn; intros [F|[F|[F|[F|[F|[F|[]]]]]]]; discriminate F).
  split; [exact H | exact (C8_unknown_interval_default "Fortnight"%string H)].
Defined.

(** ** storage/memory_storage.py *)

Section Storage.

Import Py MemoryStorage.

Lemma set_no_ttl_data (key value : string) (t : Q) (st : storage) :
  _data (set key value None t st) = <[key := value]> (_data st).
Proof. reflexivity. Qed.

Lemma set_no_ttl_expirations (key value : string) (t : Q) (st : storage) :
  _expirations (set key value None t st) = base.delete key (_expirations st).
Proof. reflexivity. Qed.

(** [incr] always ends in a [set] without TTL of the printed new value. *)
Lemma incr_shape (key : string) (t : Q) (st : storage) :
  incr key t st
  = (fst (incr key t st),
     set key (str_int (fst (incr key t st))) None t (snd (get key t st))).
Proof.
  unfold incr. destruct (get key t st) as [value st1]. cbn [snd].
  destruct (int_of_str (default "0"%string value)); reflexivity.
Qed.

Lemma get_live (key value : string) (t : Q) (st : storage) :
  _data st !! key = Some value -> _expirations st !! key = None ->
  get key t st = (Some value, st).
Proof. intros Hd He. unfold get. rewrite Hd, He. reflexivity. Qed.

Lemma clean_keeps_unexpiring (key value : string) (t : Q) (st : storage) :
  _data st !! key = Some value -> _expirations st !! key = None ->
  _data (clean_expired_keys t st) !! key = Some value.
Proof.
  intros Hd He. unfold clean_expired_keys. cbn [_data].
  apply map_lookup_filter_Some. split; [exact Hd|].
  cbn [fst]. unfold due. rewrite He. reflexivity.
Qed.

Lemma expire_present (key value : string) (ttl : Z) (t : Q) (st : storage) :
  _data st !! key = Some value ->
  expire key ttl t st
  = (1, {| _data := _data st;
           _expirations := <[key := (t + inject_Z ttl)%Q]> (_expirations st) |}).
Proof. intros Hd. unfold expire. rewrite Hd. reflexivity. Qed.


Lemma get_other_data (key key' : string) (t : Q) (st : storage) :
  key <> key' -> _data (snd (get key' t st)) !! key = _data st !! key.
Proof.
  intros Hne. unfold get.
  destruct (_data st !! key'); [|reflexivity].
  destruct (_expirations st !! key'); [|reflexivity].
  destruct (Qleb q t); [|reflexivity].
  cbn. apply lookup_delete_ne. congruence.
Qed.

Lemma get_other_expirations (key key' : string) (t : Q) (st : storage) :
  key <> key' -> _expirations (snd (get key' t st)) !! key = _expirations st !! key.
Proof.
  intros Hne. unfold get.
  destruct (_data st !! key'); [|reflexivity].
  destruct (_expirations st !! key'); [|reflexivity].
  destruct (Qleb q t); [|reflexivity].
  cbn. apply lookup_delete_ne. congruence.
Qed.

Lemma live_ext (key : string) (t : Q) (st st' : storage) :
  _data st' !! key = _data st !! key ->
  _expirations st' !! key = _expirations st !! key ->
  live key t st' = live key t st.
Proof.
  intros Hd He. unfold live, get. rewrite Hd, He.
  destruct (_data st !! key); [|reflexivity].
  destruct (_expirations st !! key); [|reflexivity].
  destruct (Qleb q t); reflexivity.
Qed.

Lemma live_after_get_other (key key' : string) (t : Q) (st : storage) :
  key <> key' -> live key t (snd (get key' t st)) = live key t st.
Proof.
  intros Hne. apply live_ext;
    [apply get_other_data | apply get_other_expirations]; exact Hne.
Qed.

Lemma live_after_get (key : string) (t : Q) (st : storage) :
  live key t (snd (get key t st)) = live key t st.
Proof.
  unfold live, get.
  destruct (_data st !! key) as [v|] eqn:Hd; [|cbn; rewrite Hd; reflexivity].
  destruct (_expirations st !! key) as [e|] eqn:He;
    [|cbn; rewrite Hd, He; reflexivity].
  destruct (Qleb e t) eqn:Hx; cbn.
  - rewrite lookup_delete_eq. reflexivity.
  - rewrite Hd, He, Hx. reflexivity.
Qed.

(** When [incr] finds the integer [c] (or nothing, read as 0), it stores
    [c + 1] without expiry. *)
Lemma incr_value (key : string) (t : Q) (st : storage) (c : Z) :
  int_of_str (default "0"%string (live key t st)) = Some c ->
  incr key t st = (c + 1, set key (str_int (c + 1)) None t (snd (get key t st))).
Proof.
  unfold live, incr. destruct (get key t st) as [value st1]. cbn [fst snd].
  intros ->. reflexivity.
Qed.

(** C10. In the in-process store, [incr] leaves the key without an
    expiration, whatever expiration it had before: the new value is
    stored by a [set] without TTL.  The counter then stays readable at
    every later time and survives every sweep of the cleaner, until
    [expire] is called on it again. *)
Theorem C10_incr_clears_expiration (key : string) (t : Q) (st : storage) :
  let n := fst (incr key t st) in
  let st' := snd (incr key t st) in
  _expirations st' !! key = None
  /\ _data st' !! key = Some (str_int n)
  /\ (forall t', get key t' st' = (Some (str_int n), st'))
  /\ (forall t', _data (clean_expired_keys t' st') !! key = Some (str_int n))
  /\ (forall ttl t',
        _expirations (snd (expire key ttl t' st')) !! key
        = Some (t' + inject_Z ttl)%Q).
Proof.
  intros n st'. subst n st'. rewrite (incr_shape key t st). cbn [fst snd].
  set (n := fst (incr key t st)). set (st1 := snd (get key t st)).
  assert (He : _expirations (set key (str_int n) None t st1) !! key = None)
    by (rewrite set_no_ttl_expirations; apply lookup_delete_eq).
  assert (Hd : _data (set key (str_int n) None t st1) !! key = Some (str_int n))
    by (rewrite set_no_ttl_data; apply lookup_insert_eq).
  split; [exact He|]. split; [exact Hd|].
  split; [intros t'; apply get_live; assumption|].
  split; [intros t'; apply clean_keeps_unexpiring; assumption|].
  intros ttl t'. rewrite (expire_present key (str_int n)) by exact Hd.
  cbn [snd _expirations]. apply lookup_insert_eq.
Qed.

End Storage.

(** ** Comparisons on floats *)

Lemma Qleb_true (a b : Q) : Py.Qleb a b = true <-> (a <= b)%Q.
Proof. apply Qle_bool_iff. Qed.

Lemma Qleb_false (a b : Q) : Py.Qleb a b = false <-> (b < a)%Q.
Proof.
  unfold Py.Qleb. split.
  - intros H. apply Qnot_le_lt. intros Hle. apply Qle_bool_iff in Hle. congruence.
  - intros H. destruct (Qle_bool a b) eqn:E; [|reflexivity].
    apply Qle_bool_iff in E. exfalso. apply (Qlt_not_le _ _ H E).
Qed.

Lemma Qltb_true (a b : Q) : Py.Qltb a b = true <-> (a < b)%Q.
Proof.
  unfold Py.Qltb. rewrite Bool.negb_true_iff. apply (Qleb_false b a).
Qed.

Lemma Qltb_false (a b : Q) : Py.Qltb a b = false <-> (b <= a)%Q.
Proof.
  unfold Py.Qltb. rewrite Bool.negb_false_iff. apply (Qleb_true b a).
Qed.

Lemma interval_seconds_pos (s : string) : 0 < Utils.get_interval_in_seconds s.
Proof.
  unfold Utils.get_interval_in_seconds.
  repeat match goal with
         | |- context [String.eqb ?a ?b] => destruct (String.eqb a b)
         end; lia.
Qed.

(** ** algorithms/sliding_window.py *)

Section Sliding.

Import Py MemoryStorage SlidingWindow.

Lemma append_inj_l (a b c : string) : a +:+ b = a +:+ c -> b = c.
Proof.
  induction a as [|x a IH]; [trivial|].
  rewrite !append_cons. intros [= E]. exact (IH E).
Qed.

Lemma window_key_inj (identifier : string) (w w' : Z) :
  window_key identifier w = window_key identifier w' -> w = w'.
Proof.
  unfold window_key. intros E.
  apply append_inj_l, append_inj_l, append_inj_l in E.
  exact (str_int_inj _ _ E).
Qed.


(** The part of [check] after the counts have been read. *)
Lemma check_after_counts (identifier : string) (options : policy) (t : Q)
    (st st0 : storage) (c p : Z) :
  let rate := default 60 (rate options) in
  let interval_seconds :=
    Utils.get_interval_in_seconds (default "minute"%string (interval options)) in
  let now := now_s t in
  let cur := window_key identifier (current_window now interval_seconds) in
  let prev :=
    window_key identifier (current_window now interval_seconds - interval_seconds) in
  let weighted := weighted_count c p now interval_seconds in
  let allow := Qltb weighted (inject_Z rate) in
  _get_window_counts cur prev t st = (Ok (c, p), st0) ->
  check identifier options t st
  = (Ok {| allowed := allow;
           limit := rate;
           remaining :=
             Z.max 0 (int_of_float
                        (inject_Z rate - weighted - (if allow then 1 else 0))%Q);
           reset_seconds := interval_seconds - now mod interval_seconds;
           retry_after :=
             if allow then 0 else interval_seconds - now mod interval_seconds |},
     if allow
     then snd (expire cur (interval_seconds * 2) t (snd (incr cur t st0)))
     else st0).
Proof.
  intros rate interval_seconds now cur prev weighted allow H.
  unfold check, Run.bind.
  fold rate interval_seconds now cur prev. rewrite H.
  fold weighted allow. destruct allow.
  - unfold Run.call, Run.ret.
    destruct (incr cur t st0) as [n st1]. cbn [snd].
    destruct (expire cur (interval_seconds * 2) t st1) as [e st2]. reflexivity.
  - reflexivity.
Qed.


End Sliding.

(** ** Truncation of floats to ints *)

Section Truncation.

Import Py.

Lemma Qnum_nonneg (x : Q) : (0 <= x)%Q <-> 0 <= Qnum x.
Proof. unfold Qle. cbn. rewrite Z.mul_1_r. reflexivity. Qed.

Lemma int_of_float_floor (x : Q) : (0 <= x)%Q -> int_of_float x = Qfloor x.
Proof.
  intros H. apply Qnum_nonneg in H. destruct x as [n d]. cbn in *.
  apply Z.quot_div_nonneg; lia.
Qed.


Lemma int_of_float_le (x : Q) : (0 <= x)%Q -> (inject_Z (int_of_float x) <= x)%Q.
Proof. intros H. rewrite (int_of_float_floor x H). apply Qfloor_le. Qed.

Lemma int_of_float_lt (x : Q) : (0 <= x)%Q -> (x < inject_Z (int_of_float x) + 1)%Q.
Proof.
  intros H. rewrite (int_of_float_floor x H).
  change 1%Q with (inject_Z 1).
  rewrite <- (inject_Z_plus (Qfloor x) 1). apply Qlt_floor.
Qed.

Lemma int_of_float_nonpos (x : Q) : (x <= 0)%Q -> int_of_float x <= 0.
Proof.
  intros H. assert (Hn : Qnum x <= 0).
  { unfold Qle in H. cbn in H. lia. }
  unfold int_of_float.
  replace (Qnum x) with (- (- Qnum x)) by lia.
  rewrite Z.quot_opp_l by lia.
  assert (0 <= (- Qnum x) ÷ Z.pos (Qden x)) by (apply Z.quot_pos; lia).
  lia.
Qed.

(** An int bound on a float bounds its truncation. *)
Lemma int_of_float_upper (x : Q) (n : Z) :
  (x <= inject_Z n)%Q -> 0 <= n -> int_of_float x <= n.
Proof.
  intros Hx Hn. destruct (Qlt_le_dec x 0) as [Hneg|Hpos].
  - pose proof (int_of_float_nonpos x (Qlt_le_weak _ _ Hneg)). lia.
  - pose proof (int_of_float_le x Hpos) as Hle.
    assert (Hq : (inject_Z (int_of_float x) <= inject_Z n)%Q)
      by (eapply Qle_trans; eassumption).
    rewrite <- Zle_Qle in Hq. exact Hq.
Qed.

End Truncation.

(** ** algorithms/token_bucket.py *)

Section Bucket.

Import Py MemoryStorage TokenBucket.

Lemma bucket_keys_differ (identifier : string) :
  bucket_key identifier <> last_update_key identifier.
Proof.
  unfold bucket_key, last_update_key. intros E.
  rewrite <- (append_nil_r identifier) in E at 1.
  apply append_inj_l, append_inj_l in E. discriminate E.
Qed.


(** The part of [check] after the bucket state has been read. *)
Lemma check_after_state (identifier : string) (options : policy) (t : Q)
    (st st0 : storage) (tokens : Q) (last_update : Z) :
  let rate := default 60 (rate options) in
  let interval_seconds :=
    Utils.get_interval_in_seconds (default "minute"%string (interval options)) in
  let now := now_ms t in
  let rr := refill_rate rate interval_seconds in
  let full := refilled rate interval_seconds tokens (now - last_update) in
  let allow := Qleb 1 full in
  let new_tokens := if allow then (full - 1)%Q else full in
  let wait :=
    (((if allow then ((inject_Z rate - new_tokens) / rr) * 1000
       else ((1 - new_tokens) / rr) * 1000) / 1000))%Q in
  _get_bucket_state (bucket_key identifier) (last_update_key identifier) rate t st
  = (Ok (tokens, last_update), st0) ->
  check identifier options t st
  = (if Qeq_bool rr 0 then Raise ZeroDivisionError
     else Ok {| allowed := allow;
                limit := rate;
                remaining := int_of_float new_tokens;
                reset_seconds := int_of_float wait;
                retry_after := if allow then 0 else int_of_float wait |},
     stored_state identifier new_tokens now interval_seconds t st0).
Proof.
  intros rate interval_seconds now rr full allow new_tokens wait H.
  unfold check, Run.bind.
  fold rate interval_seconds. rewrite H.
  fold now rr full allow new_tokens.
  unfold _store_bucket_state, Run.bind, Run.write, stored_state.
  destruct (Qeq_bool rr 0); [reflexivity|].
  unfold Run.ret, wait. destruct allow; reflexivity.
Qed.

Lemma stored_state_tokens (identifier : string) (tokens : Q) (now i : Z) (t : Q)
    (st : storage) :
  _data (stored_state identifier tokens now i t st) !! bucket_key identifier
  = Some (str_float tokens).
Proof.
  unfold stored_state, set.
  destruct (ttl_truthy (Some i)); cbn [_data];
    rewrite lookup_insert_ne by (intros E; symmetry in E; exact (bucket_keys_differ _ E));
    apply lookup_insert_eq.
Qed.

Lemma stored_state_last (identifier : string) (tokens : Q) (now i : Z) (t : Q)
    (st : storage) :
  _data (stored_state identifier tokens now i t st) !! last_update_key identifier
  = Some (str_int now).
Proof.
  unfold stored_state, set.
  destruct (ttl_truthy (Some i)); cbn [_data]; apply lookup_insert_eq.
Qed.

Lemma stored_state_ttl (identifier : string) (tokens : Q) (now i : Z) (t : Q)
    (st : storage) :
  0 < i ->
  _expirations (stored_state identifier tokens now i t st) !! bucket_key identifier
  = Some (t + inject_Z i)%Q
  /\ _expirations (stored_state identifier tokens now i t st)
       !! last_update_key identifier
     = Some (t + inject_Z i)%Q.
Proof.
  intros Hi. unfold stored_state, set.
  assert (E : ttl_truthy (Some i) = Some i).
  { unfold ttl_truthy. destruct (Z.eqb_spec i 0); [lia | reflexivity]. }
  rewrite E. cbn [_data _expirations]. split.
  - rewrite lookup_insert_ne by (intros E'; symmetry in E'; exact (bucket_keys_differ _ E')).
    apply lookup_insert_eq.
  - apply lookup_insert_eq.
Qed.

Lemma refill_rate_zero (rate i : Z) :
  0 < i -> Qeq_bool (refill_rate rate i) 0 = true <-> rate = 0.
Proof.
  intros Hi. rewrite Qeq_bool_iff. unfold refill_rate, Qeq, Qdiv, Qmult, Qinv, inject_Z.
  destruct i as [|i|i]; try lia. cbn. lia.
Qed.

Lemma min_le_r (a b : Q) : (Py.min a b <= b)%Q.
Proof.
  unfold Py.min. destruct (Qltb b a) eqn:E.
  - apply Qle_refl.
  - apply Qltb_false in E. exact E.
Qed.

Lemma min_le_l (a b : Q) : (Py.min a b <= a)%Q.
Proof.
  unfold Py.min. destruct (Qltb b a) eqn:E.
  - apply Qltb_true in E. apply Qlt_le_weak, E.
  - apply Qle_refl.
Qed.

Lemma min_l (a b : Q) : (a <= b)%Q -> Py.min a b = a.
Proof.
  intros H. unfold Py.min. destruct (Qltb b a) eqn:E; [|reflexivity].
  apply Qltb_true in E. exfalso. apply (Qlt_not_le _ _ E H).
Qed.

Lemma min_r (a b : Q) : (b <= a)%Q -> (Py.min a b == b)%Q.
Proof.
  intros H. unfold Py.min. destruct (Qltb b a) eqn:E; [reflexivity|].
  apply Qltb_false in E. apply Qle_antisym; assumption.
Qed.


End Bucket.

(** ** Bounds on the decision *)

Section Bounds.

Import Py MemoryStorage.

Lemma inject_Z_nonneg (z : Z) : 0 <= z -> (0 <= inject_Z z)%Q.
Proof. intros H. change 0%Q with (inject_Z 0). rewrite <- Zle_Qle. exact H. Qed.

Lemma inject_Z_pos (z : Z) : 0 < z -> (0 < inject_Z z)%Q.
Proof. intros H. change 0%Q with (inject_Z 0). rewrite <- Zlt_Qlt. exact H. Qed.

Lemma Qdiv_nonneg (a b : Q) : (0 <= a)%Q -> (0 < b)%Q -> (0 <= a / b)%Q.
Proof. intros Ha Hb. apply Qle_shift_div_l; [exact Hb | lra]. Qed.

Lemma refill_nonneg (rate i elapsed : Z) :
  0 <= rate -> 0 < i -> 0 <= elapsed ->
  (0 <= TokenBucket.refill_tokens rate i elapsed)%Q.
Proof.
  intros Hr Hi He. unfold TokenBucket.refill_tokens, TokenBucket.refill_rate.
  apply Qmult_le_0_compat.
  - apply Qdiv_nonneg; [apply inject_Z_nonneg, He | reflexivity].
  - apply Qdiv_nonneg; [apply inject_Z_nonneg, Hr | apply inject_Z_pos, Hi].
Qed.

Lemma refilled_nonneg (rate i elapsed : Z) (tokens : Q) :
  0 <= rate -> 0 < i -> 0 <= elapsed -> (0 <= tokens)%Q ->
  (0 <= TokenBucket.refilled rate i tokens elapsed)%Q.
Proof.
  intros Hr Hi He Ht. unfold TokenBucket.refilled, Py.min.
  pose proof (refill_nonneg rate i elapsed Hr Hi He).
  destruct (Qltb _ _); [apply inject_Z_nonneg, Hr | lra].
Qed.


Lemma window_position_bounds (now i : Z) :
  0 < i -> (0 <= SlidingWindow.window_position now i < 1)%Q.
Proof.
  intros Hi. unfold SlidingWindow.window_position.
  pose proof (Z.mod_pos_bound now i Hi) as [Hlo Hhi].
  pose proof (inject_Z_pos i Hi) as Hq.
  split.
  - apply Qdiv_nonneg; [apply inject_Z_nonneg, Hlo | exact Hq].
  - apply Qlt_shift_div_r; [exact Hq|]. rewrite Qmult_1_l, <- Zlt_Qlt. exact Hhi.
Qed.




End Bounds.

(** ** C3: the decision's retry delay and remaining quota *)

Section Decision.

Import Py MemoryStorage Examples.




End Decision.

(** ** Witnesses for C4 and C5 *)

Section Witnesses.

Import Py MemoryStorage Examples.



End Witnesses.

(** ** limiter.py: identity resolution *)

Section Identity.

Import Py Utils RateLimiter Examples.










End Identity.

(** ** limiter.py: dispatch, malformed state *)

Section Dispatch.

Import Py MemoryStorage RateLimiter Examples.

(** [check] runs the algorithm named by the limiter, not by the policy. *)
Lemma check_dispatch (self : limiter) (request : Utils.request)
    (opts : option policy) (t : Q) (w : world) :
  let identifier := get_client_identifier self request in
  let effective :=
    effective_options self (Utils.ci_path (Utils.normalize_client_info request)) opts in
  let run :=
    if String.eqb (self_algorithm self) "sliding_window"
    then SlidingWindow.check identifier effective t (storage w)
    else TokenBucket.check identifier effective t (storage w) in
  fst (check self request opts t w) = fst run
  /\ storage (snd (check self request opts t w)) = snd run.
Proof.
  intros identifier effective run. unfold check.
  fold identifier effective. fold run.
  destruct run as [[d|e] st']; split; reflexivity.
Qed.

(** C1 at a failing input.  The limiter is left on its default algorithm
    and the route [/api/report] is overridden by a policy that names
    [sliding_window].  The check of a request to that route resolves
    this policy, yet runs the token bucket: decision and store are those
    of [TokenBucket.check], the decision differs from the one
    [SlidingWindow.check] gives, and no window counter is written. *)
Theorem C1_override_algorithm_not_dispatched :
  let self := limiter_of override_options in
  let request := request_from "1.2.3.4" "/api/report" in
  let outcome := check self request None 1000 (world_of override_options) in
  algorithm (effective_options self "/api/report" None) = Some "sliding_window"%string
  /\ self_algorithm self = "token_bucket"%string
  /\ fst outcome
     = fst (TokenBucket.check "ip:1.2.3.4" report_policy 1000 MemoryStorage.empty)
  /\ storage (snd outcome)
     = snd (TokenBucket.check "ip:1.2.3.4" report_policy 1000 MemoryStorage.empty)
  /\ fst outcome
     <> fst (SlidingWindow.check "ip:1.2.3.4" report_policy 1000 MemoryStorage.empty)
  /\ _data (storage (snd outcome)) !! "sw:ip:1.2.3.4:960"%string = None
  /\ _data (storage (snd outcome)) !! "tb:ip:1.2.3.4"%string = Some "0.0"%string.
Proof.
  vm_compute. repeat split; try reflexivity. discriminate.
Qed.

(** C7 at failing inputs.  A token count, a last-refill timestamp or a
    window counter that reads [abc] makes the check raise [ValueError],
    in the algorithms and through the limiter; the value is not
    reinitialised.  Only [MemoryStorage.incr], which the check does not
    reach, restarts such a counter at 1. *)
Theorem C7_malformed_state_raises :
  int_of_str "abc" = None /\ float_of_str "abc" = None
  /\ fst (TokenBucket.check "ip:1.2.3.4" (per 3 "minute") 1000 corrupt_bucket)
     = Raise ValueError
  /\ fst (TokenBucket.check "ip:1.2.3.4" (per 3 "minute") 1000 corrupt_last_update)
     = Raise ValueError
  /\ fst (SlidingWindow.check "ip:1.2.3.4" (per 3 "minute") 1000 corrupt_window)
     = Raise ValueError
  /\ fst (check (limiter_of no_options) (request_from "1.2.3.4" "/") None 1000
            {| heap := heap (world_of no_options); storage := corrupt_bucket |})
     = Raise ValueError
  /\ _data (snd (TokenBucket.check "ip:1.2.3.4" (per 3 "minute") 1000 corrupt_bucket))
       !! "tb:ip:1.2.3.4"%string
     = Some "abc"%string
  /\ fst (incr "sw:ip:1.2.3.4:960" 1000 corrupt_window) = 1.
Proof.
  vm_compute. repeat split; reflexivity.
Qed.

End Dispatch.

(** ** limiter.py: metrics *)

Section Metrics.

Import Py RateLimiter Session.

Lemma check_heap (self : limiter) (request : Utils.request) (opts : option policy)
    (t : Q) (w : world) :
  heap (snd (check self request opts t w))
  = if denied (fst (check self request opts t w))
    then alter bump_throttled (metrics self)
           (alter bump_requests (metrics self) (heap w))
    else alter bump_requests (metrics self) (heap w).
Proof.
  unfold check.
  destruct (if String.eqb _ _ then _ else _) as [[d|e] st']; cbn [fst snd heap denied].
  - destruct (allowed d); reflexivity.
  - reflexivity.
Qed.

Lemma check_counters (self : limiter) (request : Utils.request) (opts : option policy)
    (t : Q) (w : world) (m : metrics_t) :
  heap w !! metrics self = Some m ->
  heap (snd (check self request opts t w)) !! metrics self
  = Some {| requests_total := requests_total m + 1;
            throttled_total :=
              throttled_total m
              + (if denied (fst (check self request opts t w)) then 1 else 0) |}.
Proof.
  intros Hm. rewrite check_heap.
  destruct (denied _).
  - rewrite !lookup_alter_eq, Hm. reflexivity.
  - rewrite lookup_alter_eq, Hm. cbn. unfold bump_requests. cbn.
    rewrite Z.add_0_r. reflexivity.
Qed.

Lemma reset_heap (self : limiter) (identifier : string) (opts : option policy)
    (t : Q) (w : world) :
  heap (snd (reset self identifier opts t w)) = heap w.
Proof.
  unfold reset.
  destruct (if String.eqb _ _ then _ else _) as [r st']. reflexivity.
Qed.

Lemma get_metrics_fresh (self : limiter) (w : world) (m : metrics_t) :
  heap w !! metrics self = Some m -> fst (get_metrics self w) <> metrics self.
Proof.
  intros Hm E. unfold get_metrics in E. cbn [fst] in E.
  assert (Hin : metrics self ∈ dom (heap w)) by (apply elem_of_dom; eauto).
  rewrite <- E in Hin. exact (is_fresh _ Hin).
Qed.

Lemma get_metrics_copy (self : limiter) (w : world) (m : metrics_t) :
  heap w !! metrics self = Some m ->
  heap (snd (get_metrics self w)) !! fst (get_metrics self w) = Some m
  /\ heap (snd (get_metrics self w)) !! metrics self = Some m.
Proof.
  intros Hm. pose proof (get_metrics_fresh self w m Hm) as Hne.
  unfold get_metrics in *. cbn [fst snd heap] in *. rewrite Hm. cbn.
  split; [apply lookup_insert_eq|].
  rewrite lookup_insert_ne by exact Hne. exact Hm.
Qed.

Lemma step_sound (self : limiter) (o : op) (s : state) :
  sound self s -> sound self (step self o s).
Proof.
  destruct s as [w handed]. intros [[m Hm] Hh]. unfold sound in *.
  cbn [fst snd] in *. destruct o as [request opts t|identifier opts t| |k m'];
    cbn [step].
  - cbn [fst snd]. rewrite (check_counters _ _ _ _ _ m Hm). split; [eauto | exact Hh].
  - cbn [fst snd]. rewrite reset_heap. split; [eauto | exact Hh].
  - destruct (get_metrics_copy self w m Hm) as [_ Hkeep].
    pose proof (get_metrics_fresh self w m Hm) as Hne.
    destruct (get_metrics self w) as [l w']. cbn [fst snd] in *.
    split; [eauto|]. constructor; assumption.
  - destruct (handed !! k) as [l|] eqn:El; cbn [fst snd].
    + split; [|exact Hh].
      assert (Hl : l <> metrics self).
      { rewrite Forall_forall in Hh. apply Hh, list_elem_of_lookup. eauto. }
      unfold dict_update. cbn [heap]. rewrite lookup_insert_ne by exact Hl. eauto.
    + split; [eauto | exact Hh].
Qed.

Lemma run_sound (self : limiter) (ops : list op) :
  forall s, sound self s -> sound self (run self ops s).
Proof.
  induction ops as [|o ops IH]; intros s Hs; [exact Hs|].
  apply IH, step_sound, Hs.
Qed.

Lemma init_sound (o : options_t) (h : gmap ref metrics_t) :
  sound (fst (init o h)) (snd (init o h), []).
Proof.
  unfold sound, init. cbn. split; [|constructor].
  rewrite lookup_insert_eq. eauto.
Qed.

(** From a sound state no step lowers a counter. *)
Lemma step_counters (self : limiter) (o : op) (s : state) :
  sound self s ->
  requests_total (counters self s) <= requests_total (counters self (step self o s))
  /\ throttled_total (counters self s) <= throttled_total (counters self (step self o s)).
Proof.
  destruct s as [w handed]. intros [[m Hm] Hh]. unfold counters.
  cbn [fst snd] in *. rewrite Hm. cbn [default from_option id].
  destruct o as [request opts t|identifier opts t| |k m']; cbn [step].
  - cbn [fst]. rewrite (check_counters _ _ _ _ _ m Hm). cbn.
    destruct (denied _); lia.
  - cbn [fst]. rewrite reset_heap, Hm. cbn. lia.
  - destruct (get_metrics_copy self w m Hm) as [_ Hkeep].
    destruct (get_metrics self w) as [l w']. cbn [fst snd] in *.
    rewrite Hkeep. cbn. lia.
  - destruct (handed !! k) as [l|] eqn:El; cbn [fst].
    + assert (Hl : l <> metrics self).
      { rewrite Forall_forall in Hh. apply Hh, list_elem_of_lookup. eauto. }
      unfold dict_update. cbn [heap]. rewrite lookup_insert_ne by exact Hl.
      rewrite Hm. cbn. lia.
    + rewrite Hm. cbn. lia.
Qed.

(** C9. Each check raises [requests_total] by exactly 1 and
    [throttled_total] by exactly 1 when the decision is a denial, by 0
    otherwise; [reset] leaves the counters alone; [get_metrics] hands
    out a new dictionary with the same entries, and overwriting it does
    not change the limiter's counters; so, from the construction of the
    limiter on, no operation of a caller lowers either counter. *)
Theorem C9_metrics_monotone :
  (forall (self : limiter) (request : Utils.request) (opts : option policy)
          (t : Q) (w : world) (m : metrics_t),
      heap w !! metrics self = Some m ->
      heap (snd (check self request opts t w)) !! metrics self
      = Some {| requests_total := requests_total m + 1;
                throttled_total :=
                  throttled_total m
                  + (if denied (fst (check self request opts t w)) then 1 else 0) |})
  /\ (forall (self : limiter) (identifier : string) (opts : option policy)
             (t : Q) (w : world),
        heap (snd (reset self identifier opts t w)) = heap w)
  /\ (forall (self : limiter) (w : world) (m : metrics_t),
        heap w !! metrics self = Some m ->
        fst (get_metrics self w) <> metrics self
        /\ heap (snd (get_metrics self w)) !! fst (get_metrics self w) = Some m
        /\ heap (snd (get_metrics self w)) !! metrics self = Some m
        /\ forall m',
             heap (dict_update (fst (get_metrics self w)) m' (snd (get_metrics self w)))
               !! metrics self
             = Some m)
  /\ (forall (o : options_t) (h : gmap ref metrics_t) (ops : list op) (next : op),
        let self := fst (init o h) in
        let s := run self ops (snd (init o h), []) in
        requests_total (counters self s)
        <= requests_total (counters self (step self next s))
        /\ throttled_total (counters self s)
           <= throttled_total (counters self (step self next s)))
  /\ (forall (o : options_t) (h : gmap ref metrics_t),
        counters (fst (init o h)) (snd (init o h), []) = zero_metrics).
Proof.
  split; [exact check_counters|]. split; [exact reset_heap|].
  split.
  { intros self w m Hm. pose proof (get_metrics_fresh self w m Hm) as Hne.
    destruct (get_metrics_copy self w m Hm) as [Hc Hk].
    repeat split; try assumption.
    intros m'. unfold dict_update. cbn [heap].
    rewrite lookup_insert_ne by exact Hne. exact Hk. }
  split.
  { intros o h ops next self s. apply step_counters, run_sound, init_sound. }
  intros o h. unfold counters, init. cbn. rewrite lookup_insert_eq. reflexivity.
Qed.

Lemma C9_metrics_monotone_witness :
  heap (snd (check (Examples.limiter_of Examples.no_options)
               (Examples.request_from "1.2.3.4" "/") None 1000
               (Examples.world_of Examples.no_options)))
    !! metrics (Examples.limiter_of Examples.no_options)
  = Some {| requests_total := 0 + 1;
            throttled_total :=
              0 + (if denied
                        (fst (check (Examples.limiter_of Examples.no_options)
                                (Examples.request_from "1.2.3.4" "/") None 1000
                                (Examples.world_of Examples.no_options)))
                   then 1 else 0) |}.
Proof.
  apply (proj1 C9_metrics_monotone (Examples.limiter_of Examples.no_options)
           (Examples.request_from "1.2.3.4" "/") None 1000%Q
           (Examples.world_of Examples.no_options) zero_metrics).
  vm_compute. reflexivity.
Defined.

End Metrics.

(** ** When the stored state can be read, and when it cannot *)

Section Reading.

Import Py MemoryStorage.

(** A stored value that is absent (or expired) or a numeral is read. *)
Lemma get_window_counts_total (ck pk : string) (t : Q) (st : storage) (c p : Z) :
  ck <> pk ->
  int_of_str (default "0"%string (live ck t st)) = Some c ->
  int_of_str (default "0"%string (live pk t st)) = Some p ->
  SlidingWindow._get_window_counts ck pk t st
  = (Ok (c, p), snd (get pk t (snd (get ck t st)))).
Proof.
  intros Hne Hc Hp.
  rewrite <- (live_after_get_other pk ck t st) in Hp by congruence.
  unfold SlidingWindow._get_window_counts, live, Run.bind, Run.call, Run.ret,
    Run.convert in *.
  destruct (get ck t st) as [v1 st1]. cbn [fst snd] in *.
  destruct (get pk t st1) as [v2 st2]. cbn [fst snd] in *.
  assert (E0 : int_of_str "0" = Some 0) by reflexivity.
  destruct v1 as [s1|], v2 as [s2|]; cbn [default from_option id] in *;
    rewrite ?E0 in *; rewrite ?Hc, ?Hp; cbn; congruence.
Qed.

Lemma get_bucket_state_total (bk lk : string) (rate : Z) (t : Q) (st : storage)
    (tokens : Q) (last_update : Z) :
  bk <> lk ->
  match live bk t st with
  | Some s => float_of_str s = Some tokens
  | None => tokens = inject_Z rate
  end ->
  match live lk t st with
  | Some s => int_of_str s = Some last_update
  | None => last_update = TokenBucket.now_ms t
  end ->
  TokenBucket._get_bucket_state bk lk rate t st
  = (Ok (tokens, last_update), snd (get lk t (snd (get bk t st)))).
Proof.
  intros Hne Hb Hl.
  rewrite <- (live_after_get_other lk bk t st) in Hl by congruence.
  unfold TokenBucket._get_bucket_state, live, Run.bind, Run.call, Run.ret,
    Run.convert in *.
  destruct (get bk t st) as [v1 st1]. cbn [fst snd] in *.
  destruct (get lk t st1) as [v2 st2]. cbn [fst snd] in *.
  destruct v1 as [s1|], v2 as [s2|]; rewrite ?Hb, ?Hl; cbn; congruence.
Qed.

(** A stored token count that is not a number makes the check raise. *)
Lemma bucket_check_malformed (identifier : string) (options : policy) (t : Q)
    (st : storage) (s : string) :
  live (TokenBucket.bucket_key identifier) t st = Some s ->
  float_of_str s = None ->
  fst (TokenBucket.check identifier options t st) = Raise ValueError.
Proof.
  intros Hs Hf.
  unfold TokenBucket.check, TokenBucket._get_bucket_state, live, Run.bind, Run.call in *.
  destruct (get (TokenBucket.bucket_key identifier) t st) as [v1 st1].
  cbn [fst] in Hs. subst v1.
  destruct (get (TokenBucket.last_update_key identifier) t st1) as [v2 st2].
  rewrite Hf. reflexivity.
Qed.

(** A stored window counter that is not a number makes the check raise. *)
Lemma window_check_malformed (identifier : string) (options : policy) (t : Q)
    (st : storage) (s : string) :
  let interval_seconds :=
    Utils.get_interval_in_seconds (default "minute"%string (interval options)) in
  let cur :=
    SlidingWindow.window_key identifier
      (SlidingWindow.current_window (SlidingWindow.now_s t) interval_seconds) in
  live cur t st = Some s ->
  int_of_str s = None ->
  fst (SlidingWindow.check identifier options t st) = Raise ValueError.
Proof.
  intros interval_seconds cur Hs Hf.
  unfold SlidingWindow.check, SlidingWindow._get_window_counts, live, Run.bind,
    Run.call in *.
  fold interval_seconds. fold cur.
  destruct (get cur t st) as [v1 st1]. cbn [fst] in Hs. subst v1.
  destruct (get _ t st1) as [v2 st2].
  rewrite Hf. reflexivity.
Qed.

End Reading.

(** ** The scenarios of the specification *)

Section Scenarios.

Import Py Examples.

(** rate 3 per minute, token bucket, four rapid calls. *)
Example token_bucket_four_calls :
  allowances
    (fst (repeat_check TokenBucket.check 4 "ip:1.2.3.4" (per 3 "minute") 1000
            MemoryStorage.empty))
  = [Some true; Some true; Some true; Some false]
  /\ option_map (fun r => match r with Ok d => retry_after d | Raise _ => 0 end)
       (fst (repeat_check TokenBucket.check 4 "ip:1.2.3.4" (per 3 "minute") 1000
               MemoryStorage.empty) !! 3%nat)
     = Some 20.
Proof. vm_compute. split; reflexivity. Qed.

(** rate 10 per minute, sliding window: ten calls in one window, then
    one call just after the boundary. *)
Example sliding_window_boundary :
  let st :=
    snd (repeat_check SlidingWindow.check 10 "ip:1.2.3.4" (per 10 "minute") 1000
           MemoryStorage.empty) in
  option_map allowed
    (match fst (SlidingWindow.check "ip:1.2.3.4" (per 10 "minute") (1020001 # 1000) st)
     with Ok d => Some d | Raise _ => None end)
  = Some false.
Proof. vm_compute. reflexivity. Qed.

(** [incr] on an absent key returns 1; [expire] on a missing key
    returns 0; [get] after the TTL has elapsed returns nothing. *)
Example storage_basics :
  fst (MemoryStorage.incr "k" 0 MemoryStorage.empty) = 1
  /\ fst (MemoryStorage.expire "missing" 10 0 MemoryStorage.empty) = 0
  /\ fst (MemoryStorage.get "k" 5 (MemoryStorage.set "k" "v" (Some 5) 0 MemoryStorage.empty))
     = None
  /\ fst (MemoryStorage.get "k" (49 # 10)
            (MemoryStorage.set "k" "v" (Some 5) 0 MemoryStorage.empty))
     = Some "v"%string.
Proof. vm_compute. repeat split; reflexivity. Qed.

End Scenarios.

(** ** The bucket state a check leaves behind *)

Section Invariant.

Import Py MemoryStorage.

Lemma now_ms_mono (t t' : Q) :
  (0 <= t)%Q -> (t <= t')%Q -> TokenBucket.now_ms t <= TokenBucket.now_ms t'.
Proof.
  intros H0 Hle. unfold TokenBucket.now_ms.
  rewrite !int_of_float_floor by lra.
  apply Qfloor_resp_le. lra.
Qed.

(** After a check on a non-negative state that is not ahead of the
    clock, a later read finds such a state again: what was written, or
    the defaults once it has expired. *)
Lemma bucket_state_persists (identifier : string) (options : policy) (t t' : Q)
    (st st0 : storage) (tokens : Q) (last_update : Z) (rate' : Z) :
  let rate := default 60 (rate options) in
  let now := TokenBucket.now_ms t in
  TokenBucket._get_bucket_state (TokenBucket.bucket_key identifier)
    (TokenBucket.last_update_key identifier) rate t st
  = (Ok (tokens, last_update), st0) ->
  0 < rate -> (0 <= tokens)%Q -> last_update <= now ->
  (0 <= t)%Q -> (t <= t')%Q -> 0 <= rate' ->
  exists tokens' last' st1,
    TokenBucket._get_bucket_state (TokenBucket.bucket_key identifier)
      (TokenBucket.last_update_key identifier) rate' t'
      (snd (TokenBucket.check identifier options t st))
    = (Ok (tokens', last'), st1)
    /\ (0 <= tokens')%Q /\ last' <= TokenBucket.now_ms t'.
Proof.
  intros rate now H Hrate Htok Hlast Ht Htt Hrate'.
  pose proof (check_after_state identifier options t st st0 tokens last_update H) as Hc.
  cbv zeta in Hc. fold rate now in Hc.
  set (i := Utils.get_interval_in_seconds (default "minute"%string (interval options)))
    in *.
  assert (Hi : 0 < i) by apply interval_seconds_pos.
  set (full := TokenBucket.refilled rate i tokens (now - last_update)) in *.
  assert (Hfull : (0 <= full)%Q)
    by (apply refilled_nonneg; first [exact Htok | lia]).
  set (new_tokens := (if Qleb 1 full then full - 1 else full)%Q) in *.
  assert (Hnew : (0 <= new_tokens)%Q).
  { unfold new_tokens. destruct (Qleb 1 full) eqn:E; [|exact Hfull].
    apply Qleb_true in E. lra. }
  rewrite Hc. cbn [snd].
  set (st' := TokenBucket.stored_state identifier new_tokens now i t st0).
  pose proof (stored_state_tokens identifier new_tokens now i t st0) as Hd1.
  pose proof (stored_state_last identifier new_tokens now i t st0) as Hd2.
  destruct (stored_state_ttl identifier new_tokens now i t st0 Hi) as [He1 He2].
  fold st' in Hd1, Hd2, He1, He2.
  destruct (float_of_str_str_float new_tokens) as (y & Hy & Ey).
  pose proof (now_ms_mono t t' Ht Htt) as Hmono. fold now in Hmono.
  eexists (match live (TokenBucket.bucket_key identifier) t' st' with
           | Some _ => y | None => inject_Z rate' end),
          (match live (TokenBucket.last_update_key identifier) t' st' with
           | Some _ => now | None => TokenBucket.now_ms t' end), _.
  split.
  - apply get_bucket_state_total.
    + apply bucket_keys_differ.
    + unfold live, get. rewrite Hd1, He1.
      destruct (Qleb (t + inject_Z i) t'); cbn; [reflexivity | exact Hy].
    + unfold live, get. rewrite Hd2, He2.
      destruct (Qleb (t + inject_Z i) t'); cbn; [reflexivity | apply int_of_str_str_int].
  - split.
    + destruct (live _ t' st'); [rewrite Ey; exact Hnew | apply inject_Z_nonneg, Hrate'].
    + destruct (live _ t' st'); [exact Hmono | lia].
Qed.

End Invariant.

(** * Further properties of the code *)

(** ** storage/memory_storage.py: the contract of the store *)

Section StoreContract.

Import Py MemoryStorage.

Lemma live_lookup (key : string) (t : Q) (st : storage) :
  live key t st
  = match _data st !! key, _expirations st !! key with
    | Some v, Some e => if Qleb e t then None else Some v
    | Some v, None => Some v
    | None, _ => None
    end.
Proof.
  unfold live, get. destruct (_data st !! key); [|reflexivity].
  destruct (_expirations st !! key); [|reflexivity].
  destruct (Qleb q t); reflexivity.
Qed.

Lemma Qleb_mono (e t t' : Q) : (t <= t')%Q -> Qleb e t = true -> Qleb e t' = true.
Proof.
  intros Htt He. apply Qleb_true in He. apply Qleb_true. lra.
Qed.

(** X1. What [set] stores is what [get] returns: at every later time
    when no TTL was given (or the TTL is 0), strictly before
    [t + ttl] otherwise; from [t + ttl] on [get] returns nothing and
    drops the key. *)
Theorem X1_set_then_get (key value : string) (ttl : option Z) (t t' : Q) (st : storage) :
  ((ttl = None \/ ttl = Some 0) -> live key t' (set key value ttl t st) = Some value)
  /\ (forall n, ttl = Some n -> n <> 0 -> (t' < t + inject_Z n)%Q ->
        get key t' (set key value ttl t st) = (Some value, set key value ttl t st))
  /\ (forall n, ttl = Some n -> n <> 0 -> (t + inject_Z n <= t')%Q ->
        fst (get key t' (set key value ttl t st)) = None
        /\ _data (snd (get key t' (set key value ttl t st))) !! key = None
        /\ _expirations (snd (get key t' (set key value ttl t st))) !! key = None).
Proof.
  split; [|split].
  - intros [-> | ->]; rewrite live_lookup; unfold set; cbn;
      rewrite lookup_insert_eq, lookup_delete_eq; reflexivity.
  - intros n -> Hn Hlt. unfold set, get, ttl_truthy.
    destruct (Z.eqb_spec n 0) as [|_]; [contradiction|]. cbn.
    rewrite !lookup_insert_eq.
    apply Qleb_false in Hlt. rewrite Hlt. reflexivity.
  - intros n -> Hn Hle. unfold set, get, ttl_truthy.
    destruct (Z.eqb_spec n 0) as [|_]; [contradiction|]. cbn.
    rewrite !lookup_insert_eq.
    apply Qleb_true in Hle. rewrite Hle. cbn.
    rewrite !lookup_delete_eq. auto.
Qed.

Lemma X1_set_then_get_witness :
  live "k" 7 (set "k" "v" (Some 0) 0 empty) = Some "v"%string
  /\ get "k" (49 # 10) (set "k" "v" (Some 5) 0 empty)
     = (Some "v"%string, set "k" "v" (Some 5) 0 empty)
  /\ fst (get "k" 5 (set "k" "v" (Some 5) 0 empty)) = None.
Proof.
  split; [|split].
  - apply (proj1 (X1_set_then_get "k" "v" (Some 0) 0 7 empty)). right. reflexivity.
  - apply (proj1 (proj2 (X1_set_then_get "k" "v" (Some 5) 0 (49 # 10) empty)) 5);
      [reflexivity | discriminate | reflexivity].
  - apply (proj2 (proj2 (X1_set_then_get "k" "v" (Some 5) 0 5 empty)) 5);
      [reflexivity | discriminate | discriminate].
Defined.

(** X2. The deletion [get] performs on an expired key cannot be seen by
    any read at the same or a later time: what [get] returns for every
    key is the same before and after. *)
Theorem X2_get_deletion_unobservable (key key' : string) (t t' : Q) (st : storage) :
  (t <= t')%Q -> live key t' (snd (get key' t st)) = live key t' st.
Proof.
  intros Htt. destruct (decide (key = key')) as [<-|Hne].
  - rewrite !live_lookup. unfold get.
    destruct (_data st !! key) as [v|] eqn:Hd; [|cbn; rewrite Hd; reflexivity].
    destruct (_expirations st !! key) as [e|] eqn:He;
      [|cbn; rewrite Hd, He; reflexivity].
    destruct (Qleb e t) eqn:Hx; cbn.
    + rewrite lookup_delete_eq, (Qleb_mono e t t' Htt Hx). reflexivity.
    + rewrite Hd, He. reflexivity.
  - apply live_ext; [apply get_other_data | apply get_other_expirations]; exact Hne.
Qed.

Lemma X2_get_deletion_unobservable_witness :
  live "k" 9 (snd (get "k" 6 (set "k" "v" (Some 5) 0 empty)))
  = live "k" 9 (set "k" "v" (Some 5) 0 empty).
Proof.
  apply (X2_get_deletion_unobservable "k" "k" 6 9). discriminate.
Defined.

Lemma storage_eq (st1 st2 : storage) :
  _data st1 = _data st2 -> _expirations st1 = _expirations st2 -> st1 = st2.
Proof. destruct st1, st2. cbn. intros -> ->. reflexivity. Qed.

Lemma elem_of_expired_keys (t : Q) (st : storage) (k : string) :
  k ∈ expired_keys t st <-> due t (_expirations st) k = true.
Proof.
  unfold expired_keys, due. rewrite list_elem_of_fmap. split.
  - intros ([k' e] & -> & Hin). apply elem_of_map_to_list in Hin.
    apply map_lookup_filter_Some in Hin. destruct Hin as [He Hx].
    cbn in *. rewrite He. exact Hx.
  - destruct (_expirations st !! k) as [e|] eqn:He; [|discriminate].
    intros Hx. exists (k, e). split; [reflexivity|].
    apply elem_of_map_to_list, map_lookup_filter_Some. auto.
Qed.

Lemma expired_keys_NoDup (t : Q) (st : storage) : NoDup (expired_keys t st).
Proof. apply NoDup_fst_map_to_list. Qed.

Lemma clean_data_lookup (t : Q) (st : storage) (k : string) :
  _data (clean_expired_keys t st) !! k
  = if due t (_expirations st) k then None else _data st !! k.
Proof.
  unfold clean_expired_keys. cbn [_data]. apply option_eq. intros v.
  rewrite map_lookup_filter_Some. cbn [fst].
  destruct (due t (_expirations st) k); split; try tauto; try discriminate.
  intros [_ H]. discriminate H.
Qed.

Lemma clean_expirations_lookup (t : Q) (st : storage) (k : string) :
  _expirations (clean_expired_keys t st) !! k
  = if due t (_expirations st) k then None else _expirations st !! k.
Proof.
  unfold clean_expired_keys, due. cbn [_expirations]. apply option_eq. intros e.
  rewrite map_lookup_filter_Some. cbn [snd].
  destruct (_expirations st !! k) as [e'|] eqn:He.
  - destruct (Qleb e' t) eqn:Hx; split; try tauto; try discriminate.
    + intros [[= <-] H]. congruence.
    + intros [= <-]. auto.
  - split; [tauto | discriminate].
Qed.

(** Deleting distinct keys that are present in both maps succeeds and
    removes exactly these keys. *)
Lemma delete_keys_present (keys : list string) : forall st,
  NoDup keys ->
  (forall k, k ∈ keys -> is_Some (_data st !! k) /\ is_Some (_expirations st !! k)) ->
  exists st',
    delete_keys keys st = (Ok tt, st')
    /\ forall k,
         _data st' !! k = (if decide (k ∈ keys) then None else _data st !! k)
         /\ _expirations st' !! k
            = (if decide (k ∈ keys) then None else _expirations st !! k).
Proof.
  induction keys as [|key keys IH]; intros st Hnd Hall.
  - exists st. split; [reflexivity|]. intros k.
    destruct (decide (k ∈ [])) as [Hin|_]; [inversion Hin | auto].
  - apply NoDup_cons in Hnd. destruct Hnd as [Hnotin Hnd].
    destruct (Hall key) as [[v Hv] [e He]]; [left|].
    cbn [delete_keys]. rewrite Hv. cbn [_expirations]. rewrite He.
    destruct (IH (forget key st) Hnd) as (st' & Hrun & Hlook).
    { intros k Hk. assert (k <> key) by (intros ->; contradiction).
      unfold forget. cbn. rewrite !lookup_delete_ne by congruence.
      apply Hall. right. exact Hk. }
    exists st'. split; [exact Hrun|]. intros k.
    destruct (Hlook k) as [Hd Hx]. rewrite Hd, Hx. unfold forget. cbn.
    destruct (decide (k = key)) as [->|Hne].
    + rewrite !lookup_delete_eq.
      destruct (decide (key ∈ keys)); [contradiction|].
      destruct (decide (key ∈ key :: keys)) as [_|Hn]; [auto|].
      exfalso. apply Hn. left.
    + rewrite !lookup_delete_ne by congruence.
      destruct (decide (k ∈ keys)) as [Hin|Hnin].
      * destruct (decide (k ∈ key :: keys)) as [_|Hn]; [auto|].
        exfalso. apply Hn. right. exact Hin.
      * destruct (decide (k ∈ key :: keys)) as [Hin|_]; [|auto].
        apply elem_of_cons in Hin. destruct Hin; [contradiction | contradiction].
Qed.

(** Deleting a key that has no value raises. *)
Lemma delete_keys_missing (keys : list string) : forall st k,
  k ∈ keys -> _data st !! k = None -> fst (delete_keys keys st) = Raise KeyError.
Proof.
  induction keys as [|key keys IH]; intros st k Hin Hk; [inversion Hin|].
  cbn [delete_keys]. destruct (_data st !! key) as [v|] eqn:Hv; [|reflexivity].
  cbn [_expirations]. destruct (_expirations st !! key); [|reflexivity].
  apply elem_of_cons in Hin. destruct Hin as [->|Hin]; [congruence|].
  apply (IH _ k Hin). unfold forget. cbn.
  destruct (decide (k = key)) as [->|Hne];
    [apply lookup_delete_eq | rewrite lookup_delete_ne by congruence; exact Hk].
Qed.

Lemma sweep_consistent (t : Q) (st : storage) :
  consistent st -> sweep t st = (Ok tt, clean_expired_keys t st).
Proof.
  intros Hc. unfold sweep.
  destruct (delete_keys_present (expired_keys t st) st (expired_keys_NoDup t st))
    as (st' & Hrun & Hlook).
  { intros k Hk. apply elem_of_expired_keys in Hk. unfold due in Hk.
    destruct (_expirations st !! k) as [e|] eqn:He; [|discriminate].
    split; [apply Hc; rewrite He; eauto | eauto]. }
  rewrite Hrun. f_equal. apply storage_eq; apply map_eq; intros k;
    destruct (Hlook k) as [Hd Hx].
  - rewrite Hd, clean_data_lookup.
    destruct (decide (k ∈ expired_keys t st)) as [Hin|Hnin].
    + apply elem_of_expired_keys in Hin. rewrite Hin. reflexivity.
    + destruct (due t (_expirations st) k) eqn:Hdue; [|reflexivity].
      exfalso. apply Hnin, elem_of_expired_keys, Hdue.
  - rewrite Hx, clean_expirations_lookup.
    destruct (decide (k ∈ expired_keys t st)) as [Hin|Hnin].
    + apply elem_of_expired_keys in Hin. rewrite Hin. reflexivity.
    + destruct (due t (_expirations st) k) eqn:Hdue; [|reflexivity].
      exfalso. apply Hnin, elem_of_expired_keys, Hdue.
Qed.

(** X3. On a store where every key with an expiry holds a value, one
    iteration of the cleaner's loop ends without error, removes from
    both maps exactly the keys whose expiry is due, keeps every other
    entry, and changes nothing a read at the same or a later time
    returns. *)
Theorem X3_sweep_removes_due_keys (t : Q) (st : storage) :
  consistent st ->
  fst (sweep t st) = Ok tt
  /\ (forall key e, _expirations st !! key = Some e -> (e <= t)%Q ->
        _data (snd (sweep t st)) !! key = None
        /\ _expirations (snd (sweep t st)) !! key = None)
  /\ (forall key, (forall e, _expirations st !! key = Some e -> (t < e)%Q) ->
        _data (snd (sweep t st)) !! key = _data st !! key
        /\ _expirations (snd (sweep t st)) !! key = _expirations st !! key)
  /\ (forall key t', (t <= t')%Q -> live key t' (snd (sweep t st)) = live key t' st).
Proof.
  intros Hc. rewrite (sweep_consistent t st Hc). cbn [fst snd].
  split; [reflexivity|]. split; [|split].
  - intros key e He Hle. rewrite clean_data_lookup, clean_expirations_lookup.
    unfold due. rewrite He. apply Qleb_true in Hle. rewrite Hle. auto.
  - intros key Hkeep. rewrite clean_data_lookup, clean_expirations_lookup.
    unfold due. destruct (_expirations st !! key) as [e|] eqn:He; [|auto].
    assert (Hx : Qleb e t = false) by (apply Qleb_false, Hkeep; reflexivity).
    rewrite Hx. auto.
  - intros key t' Htt. rewrite !live_lookup, clean_data_lookup,
      clean_expirations_lookup.
    unfold due. destruct (_expirations st !! key) as [e|] eqn:He; [|reflexivity].
    destruct (Qleb e t) eqn:Hx; [|reflexivity].
    rewrite (Qleb_mono e t t' Htt Hx). destruct (_data st !! key); reflexivity.
Qed.

Lemma set_consistent (key value : string) (ttl : option Z) (t : Q) (st : storage) :
  consistent st -> consistent (set key value ttl t st).
Proof.
  intros Hc k. unfold set. destruct (ttl_truthy ttl); cbn;
    destruct (decide (k = key)) as [->|Hne];
    rewrite ?lookup_insert_eq, ?lookup_delete_eq, ?lookup_insert_ne,
      ?lookup_delete_ne by congruence; eauto; intros [? [=]].
Qed.

Lemma forget_consistent (key : string) (st : storage) :
  consistent st -> consistent (forget key st).
Proof.
  intros Hc k. unfold forget. cbn. destruct (decide (k = key)) as [->|Hne].
  - rewrite lookup_delete_eq. intros [? [=]].
  - rewrite !lookup_delete_ne by congruence. apply Hc.
Qed.

Lemma get_consistent (key : string) (t : Q) (st : storage) :
  consistent st -> consistent (snd (get key t st)).
Proof.
  intros Hc. unfold get. destruct (_data st !! key); [|exact Hc].
  destruct (_expirations st !! key); [|exact Hc].
  destruct (Qleb q t); [apply forget_consistent, Hc | exact Hc].
Qed.

Lemma incr_consistent (key : string) (t : Q) (st : storage) :
  consistent st -> consistent (snd (incr key t st)).
Proof.
  intros Hc. rewrite incr_shape. cbn [snd].
  apply set_consistent, get_consistent, Hc.
Qed.

Lemma expire_consistent (key : string) (ttl : Z) (t : Q) (st : storage) :
  consistent st -> consistent (snd (expire key ttl t st)).
Proof.
  intros Hc. unfold expire. destruct (_data st !! key) as [v|] eqn:Hv; [|exact Hc].
  intros k. cbn. destruct (decide (k = key)) as [->|Hne].
  - intros _. rewrite Hv. eauto.
  - rewrite lookup_insert_ne by congruence. apply Hc.
Qed.

Lemma delete_consistent (key : string) (st : storage) :
  consistent st -> consistent (snd (delete key st)).
Proof.
  intros Hc. unfold delete. destruct (_data st !! key); [|exact Hc].
  apply forget_consistent, Hc.
Qed.

Lemma clean_consistent (t : Q) (st : storage) :
  consistent st -> consistent (clean_expired_keys t st).
Proof.
  intros Hc k. rewrite clean_data_lookup, clean_expirations_lookup.
  destruct (due t (_expirations st) k); [intros [? [=]] | apply Hc].
Qed.

Lemma apply_consistent (o : operation) (st : storage) :
  consistent st -> consistent (apply o st).
Proof.
  intros Hc. destruct o; cbn [apply].
  - apply get_consistent, Hc.
  - apply set_consistent, Hc.
  - apply incr_consistent, Hc.
  - apply expire_consistent, Hc.
  - apply delete_consistent, Hc.
  - rewrite (sweep_consistent _ _ Hc). apply clean_consistent, Hc.
Qed.

Lemma apply_all_consistent (ops : list operation) : forall st,
  consistent st -> consistent (apply_all ops st).
Proof.
  induction ops as [|o ops IH]; intros st Hc; [exact Hc|].
  apply IH, apply_consistent, Hc.
Qed.

Lemma empty_consistent : consistent empty.
Proof. intros k [? H]. cbn in H. rewrite lookup_empty in H. discriminate H. Qed.

Lemma X3_sweep_removes_due_keys_witness :
  fst (sweep 6 (set "b" "w" (Some 50) 0 (set "a" "v" (Some 5) 0 empty))) = Ok tt.
Proof.
  apply (X3_sweep_removes_due_keys 6
           (set "b" "w" (Some 50) 0 (set "a" "v" (Some 5) 0 empty))).
  apply set_consistent, set_consistent, empty_consistent.
Defined.

(** X4. Every call on the store keeps the invariant that a key with an
    expiry holds a value, so in every store reached from the empty one
    the cleaner's loop never raises; on a store that breaks the
    invariant with a due key, the loop raises [KeyError]. *)
Theorem X4_store_stays_consistent :
  consistent empty
  /\ (forall o st, consistent st -> consistent (apply o st))
  /\ (forall ops t, fst (sweep t (apply_all ops empty)) = Ok tt)
  /\ (forall st t key e,
        _expirations st !! key = Some e -> (e <= t)%Q -> _data st !! key = None ->
        fst (sweep t st) = Raise KeyError).
Proof.
  split; [exact empty_consistent|]. split; [exact apply_consistent|]. split.
  - intros ops t.
    rewrite (sweep_consistent t _ (apply_all_consistent ops _ empty_consistent)).
    reflexivity.
  - intros st t key e He Hle Hd. unfold sweep.
    apply (delete_keys_missing _ st key); [|exact Hd].
    apply elem_of_expired_keys. unfold due. rewrite He. apply Qleb_true, Hle.
Qed.

Lemma X4_store_stays_consistent_witness :
  consistent (apply (OpIncr "k" 3) empty)
  /\ fst (sweep 1 {| _data := ∅; _expirations := {[ "k"%string := 0%Q ]} |})
     = Raise KeyError.
Proof.
  split.
  - apply (proj1 (proj2 X4_store_stays_consistent) (OpIncr "k" 3) empty).
    apply (proj1 X4_store_stays_consistent).
  - apply (proj2 (proj2 (proj2 X4_store_stays_consistent))
             {| _data := ∅; _expirations := {[ "k"%string := 0%Q ]} |} 1%Q "k"%string 0%Q).
    + reflexivity.
    + discriminate.
    + reflexivity.
Defined.

(** X5. A call that names a key changes nothing about any other key:
    its value, its expiry and what [get] returns for it at any time. *)
Theorem X5_other_keys_untouched (o : operation) (key key' : string) (st : storage) :
  target o = Some key -> key' <> key ->
  _data (apply o st) !! key' = _data st !! key'
  /\ _expirations (apply o st) !! key' = _expirations st !! key'
  /\ forall t', live key' t' (apply o st) = live key' t' st.
Proof.
  intros Ht Hne.
  assert (H : _data (apply o st) !! key' = _data st !! key'
              /\ _expirations (apply o st) !! key' = _expirations st !! key').
  { destruct o as [k t|k v ttl t|k t|k ttl t|k|t]; cbn in Ht;
      try discriminate; injection Ht as ->; cbn [apply].
    - split; [apply get_other_data | apply get_other_expirations]; exact Hne.
    - unfold set. destruct (ttl_truthy ttl); cbn;
        rewrite ?lookup_insert_ne, ?lookup_delete_ne by congruence; auto.
    - rewrite incr_shape. cbn [snd]. unfold set. cbn.
      rewrite lookup_insert_ne, lookup_delete_ne by congruence.
      split; [apply get_other_data | apply get_other_expirations]; exact Hne.
    - unfold expire. destruct (_data st !! key); cbn; [|auto].
      rewrite lookup_insert_ne by congruence. auto.
    - unfold delete. destruct (_data st !! key); cbn; [|auto].
      rewrite !lookup_delete_ne by congruence. auto. }
  destruct H as [Hd He]. split; [exact Hd|]. split; [exact He|].
  intros t'. apply live_ext; assumption.
Qed.

Lemma X5_other_keys_untouched_witness :
  _data (apply (OpDelete "a") (set "b" "w" None 0 (set "a" "v" None 0 empty)))
    !! "b"%string
  = _data (set "b" "w" None 0 (set "a" "v" None 0 empty)) !! "b"%string.
Proof.
  apply (X5_other_keys_untouched (OpDelete "a") "a" "b"); [reflexivity | discriminate].
Defined.

(** X6. [expire] on a key without a value returns 0 and changes nothing.
    On a key that holds a value it returns 1, and from then on the value
    is readable strictly before [t + ttl] and gone from [t + ttl] on --
    also when the key's former expiry was already due and the key had
    not been dropped yet: [expire] does not look at the old expiry. *)
Theorem X6_expire (key : string) (ttl : Z) (t : Q) (st : storage) :
  (_data st !! key = None -> expire key ttl t st = (0, st))
  /\ (forall v, _data st !! key = Some v ->
        fst (expire key ttl t st) = 1
        /\ (forall t', (t' < t + inject_Z ttl)%Q ->
              live key t' (snd (expire key ttl t st)) = Some v)
        /\ (forall t', (t + inject_Z ttl <= t')%Q ->
              live key t' (snd (expire key ttl t st)) = None)).
Proof.
  split.
  - intros Hd. unfold expire. rewrite Hd. reflexivity.
  - intros v Hd. rewrite (expire_present key v ttl t st Hd). cbn [fst snd].
    split; [reflexivity|].
    split; intros t' Ht'; rewrite live_lookup; cbn; rewrite Hd, lookup_insert_eq.
    + apply Qleb_false in Ht'. rewrite Ht'. reflexivity.
    + apply Qleb_true in Ht'. rewrite Ht'. reflexivity.
Qed.

Lemma X6_expire_witness :
  expire "missing" 10 0 empty = (0, empty)
  /\ live "k" 8 (snd (expire "k" 10 7 (set "k" "v" (Some 5) 0 empty))) = Some "v"%string.
Proof.
  split.
  - apply (proj1 (X6_expire "missing" 10 0 empty)). reflexivity.
  - apply (proj2 (X6_expire "k" 10 7 (set "k" "v" (Some 5) 0 empty)) "v"%string);
      reflexivity.
Defined.

(** X7. [delete] returns 1 exactly when the key holds a value (expired
    or not) and 0 otherwise; afterwards the key has neither value nor
    expiry, [get] returns nothing at any time, and [expire] and a second
    [delete] return 0. *)
Theorem X7_delete (key : string) (st : storage) :
  (_data st !! key = None -> delete key st = (0, st))
  /\ (forall v, _data st !! key = Some v -> fst (delete key st) = 1)
  /\ _data (snd (delete key st)) !! key = None
  /\ (consistent st -> _expirations (snd (delete key st)) !! key = None)
  /\ (forall t', live key t' (snd (delete key st)) = None)
  /\ (forall ttl t', fst (expire key ttl t' (snd (delete key st))) = 0)
  /\ fst (delete key (snd (delete key st))) = 0.
Proof.
  assert (Hgone : _data (snd (delete key st)) !! key = None).
  { unfold delete. destruct (_data st !! key) eqn:Hd; cbn; [|exact Hd].
    apply lookup_delete_eq. }
  split; [intros Hd; unfold delete; rewrite Hd; reflexivity|].
  split; [intros v Hd; unfold delete; rewrite Hd; reflexivity|].
  split; [exact Hgone|].
  split.
  { intros Hc. unfold delete. destruct (_data st !! key) eqn:Hd; cbn.
    - apply lookup_delete_eq.
    - destruct (_expirations st !! key) eqn:He; [|reflexivity].
      destruct (Hc key) as [v Hv]; [rewrite He; eauto | congruence]. }
  split; [intros t'; rewrite live_lookup, Hgone; reflexivity|].
  split; [intros ttl t'; unfold expire; rewrite Hgone; reflexivity|].
  unfold delete at 1. rewrite Hgone. reflexivity.
Qed.

Lemma X7_delete_witness :
  delete "missing" empty = (0, empty)
  /\ fst (delete "k" (set "k" "v" (Some 5) 0 empty)) = 1
  /\ _expirations (snd (delete "k" (set "k" "v" (Some 5) 0 empty))) !! "k"%string = None.
Proof.
  split; [|split].
  - apply (proj1 (X7_delete "missing" empty)). reflexivity.
  - apply (proj1 (proj2 (X7_delete "k" (set "k" "v" (Some 5) 0 empty))) "v"%string).
    reflexivity.
  - apply (proj1 (proj2 (proj2 (proj2 (X7_delete "k" (set "k" "v" (Some 5) 0 empty)))))).
    apply set_consistent, empty_consistent.
Defined.

(** After [incr] has found the integer [c], the key reads [c + 1] at
    every time. *)
Lemma incr_then_live (key : string) (t t' : Q) (st : storage) (c : Z) :
  int_of_str (default "0"%string (live key t st)) = Some c ->
  fst (incr key t st) = c + 1
  /\ live key t' (snd (incr key t st)) = Some (str_int (c + 1)).
Proof.
  intros Hc. rewrite (incr_value key t st c Hc). cbn [fst snd].
  split; [reflexivity|].
  rewrite live_lookup, set_no_ttl_data, set_no_ttl_expirations.
  rewrite lookup_insert_eq, lookup_delete_eq. reflexivity.
Qed.

Lemma counting_from (c : Z) (n : nat) :
  map (fun i => c + Z.of_nat i) (seq 1 (S n))
  = (c + 1) :: map (fun i => c + 1 + Z.of_nat i) (seq 1 n).
Proof.
  cbn [seq map]. f_equal. rewrite <- seq_shift, map_map.
  apply map_ext. intros i. lia.
Qed.

(** X8. Increments made one after the other count: when the key reads
    as the integer [c] (nothing, or an expired value, reads as 0), the
    calls return [c + 1], [c + 2], ..., and the key then holds the last
    number, readable at any time.  On an absent key n calls end at n. *)
Theorem X8_increments_count (key : string) (t : Q) (ts : list Q) (st : storage) (c : Z) :
  int_of_str (default "0"%string (live key t st)) = Some c ->
  fst (incr_each key (t :: ts) st)
  = map (fun i => c + Z.of_nat i) (seq 1 (S (length ts)))
  /\ forall t', live key t' (snd (incr_each key (t :: ts) st))
                = Some (str_int (c + Z.of_nat (S (length ts)))).
Proof.
  revert t st c. induction ts as [|t2 ts IH]; intros t st c Hc.
  - cbn [incr_each length].
    destruct (incr key t st) as [n st1] eqn:E.
    pose proof (incr_then_live key t t st c Hc) as [Hn _].
    rewrite E in Hn. cbn [fst] in Hn. subst n. cbn [fst snd].
    split; [cbn; f_equal; lia|].
    intros t'. pose proof (incr_then_live key t t' st c Hc) as [_ Hl].
    rewrite E in Hl. cbn [snd] in Hl. rewrite Hl.
    apply f_equal, f_equal. lia.
  - change (incr_each key (t :: t2 :: ts) st)
      with (let '(n, st1) := incr key t st in
            let '(ns, st2) := incr_each key (t2 :: ts) st1 in (n :: ns, st2)).
    destruct (incr key t st) as [n st1] eqn:E.
    pose proof (incr_then_live key t t2 st c Hc) as [Hn Hl].
    rewrite E in Hn, Hl. cbn [fst snd] in Hn, Hl. subst n.
    assert (Hc1 : int_of_str (default "0"%string (live key t2 st1)) = Some (c + 1))
      by (rewrite Hl; apply int_of_str_str_int).
    destruct (IH t2 st1 (c + 1) Hc1) as [Hv Hf].
    destruct (incr_each key (t2 :: ts) st1) as [ns st2]. cbn [fst snd] in *.
    split.
    + cbn [length]. rewrite (counting_from c (S (length ts))), Hv. reflexivity.
    + intros t'. rewrite Hf. cbn [length]. apply f_equal, f_equal. lia.
Qed.

Lemma X8_increments_count_witness :
  fst (incr_each "k" [5; 1; 9]%Q empty) = [1; 2; 3].
Proof.
  apply (proj1 (X8_increments_count "k" 5 [1; 9]%Q empty 0 eq_refl)).
Defined.

(** X9. [incr] on a live value that is not an integer (for instance
    the printed float of a token bucket) does not fail: it returns 1
    and the key then holds 1, without expiry. *)
Theorem X9_incr_restarts_non_integer (key s : string) (t : Q) (st : storage) :
  live key t st = Some s -> int_of_str s = None ->
  fst (incr key t st) = 1
  /\ forall t', live key t' (snd (incr key t st)) = Some "1"%string.
Proof.
  intros Hs Hn.
  assert (E : incr key t st = (1, set key "1" None t (snd (get key t st)))).
  { unfold live in Hs. unfold incr. destruct (get key t st) as [v st1].
    cbn [fst snd] in *. subst v. cbn [default from_option id]. rewrite Hn.
    reflexivity. }
  rewrite E. cbn [fst snd]. split; [reflexivity|]. intros t'.
  rewrite live_lookup, set_no_ttl_data, set_no_ttl_expirations.
  rewrite lookup_insert_eq, lookup_delete_eq. reflexivity.
Qed.

Lemma X9_incr_restarts_non_integer_witness :
  fst (incr "tb:a" 3 (set "tb:a" "58.5" (Some 60) 0 empty)) = 1.
Proof.
  apply (proj1 (X9_incr_restarts_non_integer "tb:a" "58.5" 3
                  (set "tb:a" "58.5" (Some 60) 0 empty) eq_refl eq_refl)).
Defined.

End StoreContract.

(** ** Increments by several callers *)

Section Atomicity.

Import Py MemoryStorage.

(** [incr] is its read followed by its write. *)
Lemma incr_two_accesses (key : string) (t : Q) (st : storage) :
  incr key t st
  = incr_write key (fst (incr_read key t st)) t (snd (incr_read key t st)).
Proof.
  unfold incr, incr_read, incr_write. destruct (get key t st) as [value st1].
  reflexivity.
Qed.

(** One caller after the other: the schedule is two calls of [incr]. *)
Lemma schedule_in_turn (key : string) (t : Q) (st : storage) (a b : nat) :
  a <> b ->
  shared (schedule key t [Reads a; Writes a; Reads b; Writes b] st)
  = snd (incr key t (snd (incr key t st)))
  /\ returned (schedule key t [Reads a; Writes a; Reads b; Writes b] st) !! a
     = Some (fst (incr key t st))
  /\ returned (schedule key t [Reads a; Writes a; Reads b; Writes b] st) !! b
     = Some (fst (incr key t (snd (incr key t st)))).
Proof.
  intros Hab. unfold schedule. cbn [fold_left access_step shared holding returned].
  rewrite (incr_two_accesses key t st).
  destruct (incr_read key t st) as [v1 st1]. cbn [fst snd shared holding returned].
  rewrite lookup_insert_eq.
  destruct (incr_write key v1 t st1) as [n1 st2]. cbn [fst snd shared holding returned].
  rewrite (incr_two_accesses key t st2).
  destruct (incr_read key t st2) as [v2 st3]. cbn [fst snd shared holding returned].
  rewrite lookup_insert_eq.
  destruct (incr_write key v2 t st3) as [n2 st4]. cbn [fst snd shared holding returned].
  split; [reflexivity|]. split.
  - rewrite lookup_insert_ne by congruence. apply lookup_insert_eq.
  - apply lookup_insert_eq.
Qed.

(** C2, in the in-process store.  Two callers of [incr] on a key that
    reads as the integer [c] (an absent key reads as 0): when the second
    caller reads before the first has written, both return [c + 1] and
    the key is left at [c + 1], one increment lost; when they run one
    after the other the key is left at [c + 2]. *)
Theorem C2_lost_update (key : string) (t : Q) (st : storage) (c : Z) (a b : nat) :
  a <> b ->
  int_of_str (default "0"%string (live key t st)) = Some c ->
  let racing := schedule key t [Reads a; Reads b; Writes a; Writes b] st in
  let in_turn := schedule key t [Reads a; Writes a; Reads b; Writes b] st in
  returned racing !! a = Some (c + 1)
  /\ returned racing !! b = Some (c + 1)
  /\ (forall t', live key t' (shared racing) = Some (str_int (c + 1)))
  /\ returned in_turn !! a = Some (c + 1)
  /\ returned in_turn !! b = Some (c + 2)
  /\ (forall t', live key t' (shared in_turn) = Some (str_int (c + 2)))
  /\ shared in_turn = snd (incr key t (snd (incr key t st))).
Proof.
  intros Hab Hc racing in_turn.
  assert (Hw : forall v s, int_of_str (default "0"%string v) = Some c ->
            incr_write key v t s = (c + 1, set key (str_int (c + 1)) None t s)).
  { intros v s Hv. unfold incr_write. cbv zeta. rewrite Hv. reflexivity. }
  assert (Hl : forall value s t',
            live key t' (set key value None t s) = Some value).
  { intros value s t'. rewrite live_lookup, set_no_ttl_data, set_no_ttl_expirations.
    rewrite lookup_insert_eq, lookup_delete_eq. reflexivity. }
  assert (Hr : forall s, incr_read key t s = (live key t s, snd (get key t s))).
  { intros s. unfold incr_read, live. destruct (get key t s); reflexivity. }
  (* the racing schedule *)
  assert (Hrace : racing
            = {| shared := set key (str_int (c + 1)) None t
                             (set key (str_int (c + 1)) None t
                                (snd (get key t (snd (get key t st)))));
                 holding := base.delete b (base.delete a
                              (<[b := live key t st]> (<[a := live key t st]> ∅)));
                 returned := <[b := c + 1]> (<[a := c + 1]> ∅) |}).
  { unfold racing, schedule. cbn [fold_left access_step shared holding returned].
    rewrite (Hr st). cbn [shared holding returned].
    rewrite (Hr (snd (get key t st))), live_after_get.
    cbn [shared holding returned].
    rewrite lookup_insert_ne, lookup_insert_eq by congruence.
    rewrite (Hw _ _ Hc). cbn [shared holding returned].
    rewrite lookup_delete_ne, lookup_insert_eq by congruence.
    rewrite (Hw _ _ Hc). reflexivity. }
  (* one after the other *)
  assert (Hturn : in_turn
            = {| shared := set key (str_int (c + 2)) None t
                             (snd (get key t
                                (set key (str_int (c + 1)) None t
                                   (snd (get key t st)))));
                 holding := base.delete b (<[b := Some (str_int (c + 1))]>
                              (base.delete a (<[a := live key t st]> ∅)));
                 returned := <[b := c + 2]> (<[a := c + 1]> ∅) |}).
  { unfold in_turn, schedule. cbn [fold_left access_step shared holding returned].
    rewrite (Hr st). cbn [shared holding returned].
    rewrite lookup_insert_eq, (Hw _ _ Hc). cbn [shared holding returned].
    rewrite (Hr (set key (str_int (c + 1)) None t (snd (get key t st)))), Hl.
    cbn [shared holding returned]. rewrite lookup_insert_eq.
    unfold incr_write. cbn [default from_option id]. rewrite int_of_str_str_int.
    replace (c + 1 + 1) with (c + 2) by lia. reflexivity. }
  assert (Hincr : snd (incr key t (snd (incr key t st)))
                  = set key (str_int (c + 2)) None t
                      (snd (get key t
                         (set key (str_int (c + 1)) None t (snd (get key t st)))))).
  { rewrite (incr_value key t st c Hc). cbn [snd].
    rewrite (incr_value key t _ (c + 1)) by (rewrite Hl; apply int_of_str_str_int).
    replace (c + 1 + 1) with (c + 2) by lia. reflexivity. }
  rewrite Hrace, Hturn, Hincr. cbn [shared holding returned].
  split; [rewrite lookup_insert_ne by congruence; apply lookup_insert_eq|].
  split; [apply lookup_insert_eq|]. split; [intros t'; apply Hl|].
  split; [rewrite lookup_insert_ne by congruence; apply lookup_insert_eq|].
  split; [apply lookup_insert_eq|]. split; [intros t'; apply Hl | reflexivity].
Qed.

Lemma C2_lost_update_witness :
  returned (schedule "k" 0 [Reads 1%nat; Reads 2%nat; Writes 1%nat; Writes 2%nat] empty)
    !! 2%nat = Some 1
  /\ live "k" 0
       (shared (schedule "k" 0 [Reads 1%nat; Reads 2%nat; Writes 1%nat; Writes 2%nat]
                  empty))
     = Some "1"%string
  /\ live "k" 0
       (shared (schedule "k" 0 [Reads 1%nat; Writes 1%nat; Reads 2%nat; Writes 2%nat]
                  empty))
     = Some "2"%string.
Proof.
  destruct (C2_lost_update "k" 0 empty 0 1%nat 2%nat ltac:(discriminate) eq_refl)
    as (_ & Hb & Hl & _ & _ & Hl' & _).
  split; [exact Hb|]. split; [exact (Hl 0%Q) | exact (Hl' 0%Q)].
Defined.

End Atomicity.

(** ** algorithms/token_bucket.py: reset, expiry, bursts, isolation *)

Section BucketBehaviour.

Import Py MemoryStorage TokenBucket Examples.

Lemma length_append (a b : string) :
  String.length (a +:+ b) = (String.length a + String.length b)%nat.
Proof.
  induction a as [|x a IH]; [reflexivity|].
  rewrite append_cons. cbn [String.length]. rewrite IH. reflexivity.
Qed.

Lemma append_inj_r (c : string) : forall a b, a +:+ c = b +:+ c -> a = b.
Proof.
  induction a as [|x a IH]; intros [|y b] E.
  - reflexivity.
  - apply (f_equal String.length) in E. rewrite append_nil_l, length_append in E.
    cbn [String.length] in E. lia.
  - apply (f_equal String.length) in E. rewrite append_nil_l, length_append in E.
    cbn [String.length] in E. lia.
  - rewrite !append_cons in E. injection E as -> E. f_equal. apply IH, E.
Qed.

Lemma decimal_body_int (neg : bool) (m : Z) :
  0 <= m ->
  decimal_body neg (str_nat m)
  = Some (inject_Z (if neg then - m else m) * Qpower 10 (0 - Z.of_nat 0))%Q.
Proof.
  intros Hm. unfold decimal_body.
  rewrite split_at_none
    by (apply (every_impl plain_digit); [exact plain_no_exp | apply str_nat_every]).
  unfold mantissa.
  rewrite split_at_none
    by (apply (every_impl plain_digit); [exact plain_no_point | apply str_nat_every]).
  destruct (digitpart_str_nat m Hm) as [k Hk]. rewrite Hk.
  destruct (str_nat m); reflexivity.
Qed.

(** [float(str(n)) = n] for an int [n]. *)
Lemma float_of_str_str_int (n : Z) :
  exists y, float_of_str (str_int n) = Some y /\ (y == inject_Z n)%Q.
Proof.
  unfold float_of_str.
  rewrite strip_nonblank by apply str_int_nonblank.
  rewrite split_at_none
    by (apply (every_impl int_char); [exact int_char_no_slash | apply str_int_every]).
  unfold decimal_of_str, str_int. destruct (Z.ltb_spec n 0) as [Hneg|Hpos].
  - change (split_sign (String "-" (str_nat (- n)))) with (true, str_nat (- n)).
    cbv beta iota. rewrite decimal_body_int by lia.
    eexists. split; [reflexivity|].
    change (Qpower 10 (0 - Z.of_nat 0)) with 1%Q. rewrite Qmult_1_r, Z.opp_involutive.
    reflexivity.
  - destruct (str_nat_head n) as (c & r & Hc & E).
    rewrite E, (split_sign_digit c _ Hc), <- E.
    cbv beta iota. rewrite decimal_body_int by lia.
    eexists. split; [reflexivity|].
    change (Qpower 10 (0 - Z.of_nat 0)) with 1%Q. apply Qmult_1_r.
Qed.

(** Truncation of a float that is a non-negative whole number. *)
Lemma int_of_float_whole (x : Q) (n : Z) :
  (x == inject_Z n)%Q -> 0 <= n -> int_of_float x = n.
Proof.
  intros E Hn.
  assert (Hx : (0 <= x)%Q) by (rewrite E; apply inject_Z_nonneg, Hn).
  rewrite (int_of_float_floor x Hx), (Qfloor_comp _ _ E). apply Qfloor_Z.
Qed.

(** What the read finds depends only on what [get] returns for the two
    keys. *)
Lemma read_depends_on_live (bk lk : string) (rate : Z) (t : Q) (st1 st2 : storage) :
  bk <> lk ->
  live bk t st1 = live bk t st2 -> live lk t st1 = live lk t st2 ->
  fst (_get_bucket_state bk lk rate t st1) = fst (_get_bucket_state bk lk rate t st2).
Proof.
  intros Hne Hb Hl.
  rewrite <- (live_after_get_other lk bk t st1), <- (live_after_get_other lk bk t st2)
    in Hl by congruence.
  unfold _get_bucket_state, live, Run.bind, Run.call, Run.ret, Run.convert in *.
  destruct (get bk t st1) as [v1 s1], (get bk t st2) as [v1' s1']. cbn [fst snd] in *.
  destruct (get lk t s1) as [v2 s2], (get lk t s1') as [v2' s2']. cbn [fst snd] in *.
  subst v1' v2'.
  destruct v1 as [x|], v2 as [z|]; cbn;
    repeat match goal with
           | |- context [float_of_str ?a] => destruct (float_of_str a); cbn
           | |- context [int_of_str ?a] => destruct (int_of_str a); cbn
           end; reflexivity.
Qed.

Lemma read_store (bk lk : string) (rate : Z) (t : Q) (st : storage) :
  snd (_get_bucket_state bk lk rate t st) = snd (get lk t (snd (get bk t st))).
Proof.
  unfold _get_bucket_state, Run.bind, Run.call, Run.ret, Run.convert.
  destruct (get bk t st) as [v1 s1]. cbn [snd].
  destruct (get lk t s1) as [v2 s2]. cbn [snd].
  destruct v1 as [x|], v2 as [z|]; cbn;
    repeat match goal with
           | |- context [float_of_str ?a] => destruct (float_of_str a); cbn
           | |- context [int_of_str ?a] => destruct (int_of_str a); cbn
           end; reflexivity.
Qed.

(** The decision depends only on what the read finds. *)
Lemma decision_depends_on_read (identifier : string) (options : policy) (t : Q)
    (st1 st2 : storage) :
  let rate := default 60 (rate options) in
  fst (_get_bucket_state (bucket_key identifier) (last_update_key identifier) rate t st1)
  = fst (_get_bucket_state (bucket_key identifier) (last_update_key identifier) rate t st2) ->
  fst (check identifier options t st1) = fst (check identifier options t st2).
Proof.
  intros rate H. unfold check, Run.bind. fold rate.
  destruct (_get_bucket_state _ _ rate t st1) as [[[tk1 lu1]|e1] s1],
           (_get_bucket_state _ _ rate t st2) as [[[tk2 lu2]|e2] s2];
    cbn [fst] in H; try discriminate H.
  - injection H as -> ->.
    unfold _store_bucket_state, Run.bind, Run.write.
    destruct (Qeq_bool _ 0); reflexivity.
  - injection H as ->. reflexivity.
Qed.

Lemma decision_depends_on_live (identifier : string) (options : policy) (t : Q)
    (st1 st2 : storage) :
  live (bucket_key identifier) t st1 = live (bucket_key identifier) t st2 ->
  live (last_update_key identifier) t st1 = live (last_update_key identifier) t st2 ->
  fst (check identifier options t st1) = fst (check identifier options t st2).
Proof.
  intros Hb Hl. apply decision_depends_on_read, read_depends_on_live;
    [apply bucket_keys_differ | exact Hb | exact Hl].
Qed.

(** The store a check leaves: the two reads, then the two writes when
    the state could be read. *)
Lemma check_store (identifier : string) (options : policy) (t : Q) (st : storage) :
  let st0 :=
    snd (get (last_update_key identifier) t (snd (get (bucket_key identifier) t st))) in
  snd (check identifier options t st) = st0
  \/ exists tokens,
       snd (check identifier options t st)
       = stored_state identifier tokens (now_ms t)
           (Utils.get_interval_in_seconds (default "minute"%string (interval options)))
           t st0.
Proof.
  intros st0. unfold check, Run.bind.
  pose proof (read_store (bucket_key identifier) (last_update_key identifier)
                (default 60 (rate options)) t st) as Hs.
  fold st0 in Hs.
  destruct (_get_bucket_state _ _ _ t st) as [[[tk lu]|e] s]; cbn [snd] in Hs; subst s.
  - right. eexists. unfold _store_bucket_state, Run.bind, Run.write, stored_state.
    destruct (Qeq_bool _ 0); reflexivity.
  - left. reflexivity.
Qed.

Lemma min_ge (a b c : Q) : (c <= a)%Q -> (c <= b)%Q -> (c <= Py.min a b)%Q.
Proof. intros Ha Hb. unfold Py.min. destruct (Qltb b a); assumption. Qed.

Lemma no_refill (rate i : Z) : (refill_tokens rate i 0 == 0)%Q.
Proof.
  unfold refill_tokens. change (inject_Z 0) with 0%Q.
  unfold Qdiv. rewrite !Qmult_0_l. reflexivity.
Qed.

Lemma live_empty (key : string) (t : Q) : live key t empty = None.
Proof. rewrite live_lookup. cbn. rewrite lookup_empty. reflexivity. Qed.

Lemma reset_live (identifier : string) (options : option policy) (t t' : Q)
    (st : storage) :
  live (bucket_key identifier) t' (snd (reset identifier options t st))
  = Some (str_int (default 60 (options ≫= rate)))
  /\ live (last_update_key identifier) t' (snd (reset identifier options t st))
     = Some (str_int (now_ms t)).
Proof.
  unfold reset, Run.bind, Run.write, Run.ret. cbn [snd].
  rewrite !live_lookup, !set_no_ttl_data, !set_no_ttl_expirations.
  split.
  - rewrite lookup_insert_ne
      by (intros E; symmetry in E; exact (bucket_keys_differ _ E)).
    rewrite lookup_insert_eq.
    rewrite lookup_delete_ne
      by (intros E; symmetry in E; exact (bucket_keys_differ _ E)).
    rewrite lookup_delete_eq. reflexivity.
  - rewrite lookup_insert_eq, lookup_delete_eq. reflexivity.
Qed.

(** What a check decides on a bucket that reads as [tokens] whole
    tokens, all of them still there and at least one. *)
Lemma decision_with_tokens (identifier : string) (options : policy) (t : Q)
    (st st0 : storage) (y : Q) (last : Z) (k : Z) :
  let R := default 60 (rate options) in
  _get_bucket_state (bucket_key identifier) (last_update_key identifier) R t st
  = (Ok (y, last), st0) ->
  (y == inject_Z k)%Q -> 1 <= k -> 1 <= R -> last <= now_ms t ->
  exists d st',
    check identifier options t st = (Ok d, st')
    /\ allowed d = true /\ retry_after d = 0
    /\ (last = now_ms t -> remaining d = Z.min k R - 1).
Proof.
  intros R H Ey Hk HR Hlast.
  pose proof (check_after_state identifier options t st st0 y last H) as Hc.
  cbv zeta in Hc. fold R in Hc.
  set (i := Utils.get_interval_in_seconds (default "minute"%string (interval options)))
    in *.
  assert (Hi : 0 < i) by apply interval_seconds_pos.
  destruct (Qeq_bool (refill_rate R i) 0) eqn:Ez.
  { apply refill_rate_zero in Ez; [lia | exact Hi]. }
  set (full := refilled R i y (now_ms t - last)) in *.
  pose proof (refill_nonneg R i (now_ms t - last) ltac:(lia) Hi ltac:(lia)) as Hre.
  pose proof (inject_Z_pos k ltac:(lia)) as Hkq.
  assert (Hk1 : (1 <= inject_Z k)%Q)
    by (change 1%Q with (inject_Z 1); rewrite <- Zle_Qle; exact Hk).
  assert (HR1 : (1 <= inject_Z R)%Q)
    by (change 1%Q with (inject_Z 1); rewrite <- Zle_Qle; exact HR).
  assert (Hfull : (1 <= full)%Q) by (apply min_ge; lra).
  assert (Ea : Qleb 1 full = true) by (apply Qleb_true, Hfull).
  rewrite Ea in Hc.
  eexists _, _. split; [exact Hc|]. cbn [allowed retry_after remaining].
  split; [reflexivity|]. split; [reflexivity|].
  intros ->. apply int_of_float_whole; [|lia].
  assert (Hz : (y + refill_tokens R i (now_ms t - now_ms t) == inject_Z k)%Q)
    by (rewrite Z.sub_diag, no_refill; lra).
  unfold full, refilled. rewrite Z.sub_diag in *.
  unfold Zminus. rewrite inject_Z_plus. change (inject_Z (- (1))) with (- (1))%Q.
  destruct (Z.le_ge_cases k R) as [Hle|Hge].
  - rewrite Z.min_l by exact Hle.
    rewrite min_l; [lra|]. rewrite Hz, <- Zle_Qle. exact Hle.
  - rewrite Z.min_r by lia.
    rewrite min_r; [lra|]. rewrite Hz, <- Zle_Qle. lia.
Qed.

(** X10. After [reset], a check of the same identifier is allowed,
    at the same instant and at any later time, whenever the rate the
    reset stored and the rate of the check are at least 1.  At the same
    instant it reports [min r0 R - 1] remaining, where [r0] is the rate
    of the reset options (60 when [reset] gets no options or no rate,
    whatever the rate of the limiter) and [R] the rate of the check. *)
Theorem X10_reset_then_check (identifier : string) (reset_options : option policy)
    (options : policy) (t t' : Q) (st : storage) :
  let r0 := default 60 (reset_options ≫= rate) in
  let R := default 60 (rate options) in
  1 <= r0 -> 1 <= R -> (0 <= t)%Q -> (t <= t')%Q ->
  exists d st',
    check identifier options t' (snd (reset identifier reset_options t st)) = (Ok d, st')
    /\ allowed d = true /\ retry_after d = 0
    /\ (now_ms t' = now_ms t -> remaining d = Z.min r0 R - 1).
Proof.
  intros r0 R Hr0 HR Ht Htt.
  destruct (reset_live identifier reset_options t t' st) as [Hb Hl].
  fold r0 in Hb.
  destruct (float_of_str_str_int r0) as (y & Hy & Ey).
  set (st1 := snd (reset identifier reset_options t st)) in *.
  assert (Hread :
    _get_bucket_state (bucket_key identifier) (last_update_key identifier) R t' st1
    = (Ok (y, now_ms t),
       snd (get (last_update_key identifier) t'
              (snd (get (bucket_key identifier) t' st1))))).
  { apply get_bucket_state_total.
    - apply bucket_keys_differ.
    - rewrite Hb. exact Hy.
    - rewrite Hl. apply int_of_str_str_int. }
  destruct (decision_with_tokens identifier options t' st1 _ y (now_ms t) r0
              Hread Ey Hr0 HR (now_ms_mono t t' Ht Htt))
    as (d & st' & Hd & Ha & Hra & Hrem).
  exists d, st'. repeat split; try assumption.
  intros E. apply Hrem. symmetry. exact E.
Qed.

Lemma X10_reset_then_check_witness :
  exists d st',
    check "ip:1.2.3.4" (per 100 "minute") 1000
      (snd (reset "ip:1.2.3.4" None 1000 drained_bucket))
    = (Ok d, st')
    /\ allowed d = true /\ retry_after d = 0
    /\ (now_ms 1000 = now_ms 1000 -> remaining d = Z.min 60 100 - 1).
Proof.
  apply (X10_reset_then_check "ip:1.2.3.4" None (per 100 "minute") 1000 1000
           drained_bucket); vm_compute; discriminate.
Defined.

(** X11. With rate 0 a check whose state can be read raises
    [ZeroDivisionError] instead of returning a decision, and it does so
    after writing the bucket back: the stored count is capped at 0 and
    the stored timestamp is the time of the check. *)
Theorem X11_zero_rate_raises (identifier : string) (options : policy) (t : Q)
    (st st0 : storage) (tokens : Q) (last_update : Z) :
  rate options = Some 0 ->
  _get_bucket_state (bucket_key identifier) (last_update_key identifier) 0 t st
  = (Ok (tokens, last_update), st0) ->
  fst (check identifier options t st) = Raise ZeroDivisionError
  /\ exists new_tokens,
       (new_tokens <= 0)%Q
       /\ _data (snd (check identifier options t st)) !! bucket_key identifier
          = Some (str_float new_tokens)
       /\ _data (snd (check identifier options t st)) !! last_update_key identifier
          = Some (str_int (now_ms t)).
Proof.
  intros Hrate H.
  pose proof (check_after_state identifier options t st st0 tokens last_update) as Hc.
  cbv zeta in Hc. rewrite Hrate in Hc. cbn [default from_option id] in Hc.
  specialize (Hc H).
  set (i := Utils.get_interval_in_seconds (default "minute"%string (interval options)))
    in *.
  assert (Hi : 0 < i) by apply interval_seconds_pos.
  assert (Ez : Qeq_bool (refill_rate 0 i) 0 = true)
    by (apply refill_rate_zero; [exact Hi | reflexivity]).
  rewrite Ez in Hc. rewrite Hc. cbn [fst snd].
  split; [reflexivity|].
  set (full := refilled 0 i tokens (now_ms t - last_update)) in *.
  assert (Hfull : (full <= 0)%Q) by apply (min_le_r _ (inject_Z 0)).
  assert (Ea : Qleb 1 full = false) by (apply Qleb_false; lra).
  rewrite Ea. exists full.
  split; [exact Hfull|].
  split; [apply stored_state_tokens | apply stored_state_last].
Qed.

Lemma X11_zero_rate_raises_witness :
  fst (check "ip:1.2.3.4" (per 0 "minute") 1000 empty) = Raise ZeroDivisionError.
Proof.
  apply (X11_zero_rate_raises "ip:1.2.3.4" (per 0 "minute") 1000 empty empty
           (inject_Z 0) 1000000 eq_refl).
  vm_compute. reflexivity.
Defined.

(** What a check decides on a bucket without stored state. *)
Lemma fresh_decision (identifier : string) (options : policy) (t : Q) (st : storage) :
  let R := default 60 (rate options) in
  live (bucket_key identifier) t st = None ->
  live (last_update_key identifier) t st = None ->
  1 <= R ->
  exists d st',
    check identifier options t st = (Ok d, st')
    /\ allowed d = true /\ remaining d = R - 1.
Proof.
  intros R Hb Hl HR.
  assert (Hread :
    _get_bucket_state (bucket_key identifier) (last_update_key identifier) R t st
    = (Ok (inject_Z R, now_ms t),
       snd (get (last_update_key identifier) t (snd (get (bucket_key identifier) t st))))).
  { apply get_bucket_state_total.
    - apply bucket_keys_differ.
    - rewrite Hb. reflexivity.
    - rewrite Hl. reflexivity. }
  destruct (decision_with_tokens identifier options t st _ (inject_Z R) (now_ms t) R
              Hread ltac:(reflexivity) HR HR ltac:(lia))
    as (d & st' & Hd & Ha & _ & Hrem).
  exists d, st'. split; [exact Hd|]. split; [exact Ha|].
  rewrite Hrem by reflexivity. lia.
Qed.

(** X12. The state a check writes lives for one interval: a check made
    [interval_seconds] or more after it decides exactly as on a store
    that never saw the identifier -- with a rate of at least 1, allowed,
    with the full bucket less one token remaining. *)
Theorem X12_state_expires_after_interval (identifier : string) (options options' : policy)
    (t t' : Q) (st st0 : storage) (tokens : Q) (last_update : Z) :
  let interval_seconds :=
    Utils.get_interval_in_seconds (default "minute"%string (interval options)) in
  _get_bucket_state (bucket_key identifier) (last_update_key identifier)
    (default 60 (rate options)) t st
  = (Ok (tokens, last_update), st0) ->
  (t + inject_Z interval_seconds <= t')%Q ->
  fst (check identifier options' t' (snd (check identifier options t st)))
  = fst (check identifier options' t' empty)
  /\ (1 <= default 60 (rate options') ->
      exists d,
        fst (check identifier options' t' (snd (check identifier options t st))) = Ok d
        /\ allowed d = true
        /\ remaining d = default 60 (rate options') - 1).
Proof.
  intros i H Hexp.
  pose proof (check_after_state identifier options t st st0 tokens last_update H) as Hc.
  cbv zeta in Hc. fold i in Hc.
  assert (Hi : 0 < i) by apply interval_seconds_pos.
  set (st' := snd (check identifier options t st)).
  assert (Hst : exists new_tokens,
             st' = stored_state identifier new_tokens (now_ms t) i t st0).
  { unfold st'. rewrite Hc. cbn [snd]. eexists. reflexivity. }
  destruct Hst as (new_tokens & Hst).
  assert (Hx : Qleb (t + inject_Z i) t' = true) by (apply Qleb_true, Hexp).
  assert (Hb : live (bucket_key identifier) t' st' = None).
  { rewrite Hst, live_lookup, stored_state_tokens.
    destruct (stored_state_ttl identifier new_tokens (now_ms t) i t st0 Hi) as [-> _].
    rewrite Hx. reflexivity. }
  assert (Hl : live (last_update_key identifier) t' st' = None).
  { rewrite Hst, live_lookup, stored_state_last.
    destruct (stored_state_ttl identifier new_tokens (now_ms t) i t st0 Hi) as [_ ->].
    rewrite Hx. reflexivity. }
  split.
  - apply decision_depends_on_live; rewrite live_empty; assumption.
  - intros HR.
    destruct (fresh_decision identifier options' t' st' Hb Hl HR)
      as (d & st2 & Hd & Ha & Hrem).
    exists d. rewrite Hd. auto.
Qed.

Lemma X12_state_expires_after_interval_witness :
  fst (check "ip:1.2.3.4" burst 1002
         (snd (check "ip:1.2.3.4" burst (1000125 # 1000) drained_bucket)))
  = fst (check "ip:1.2.3.4" burst 1002 empty).
Proof.
  apply (proj1 (X12_state_expires_after_interval "ip:1.2.3.4" burst burst
                  (1000125 # 1000) 1002 drained_bucket drained_bucket
                  (0 # 10)%Q 1000000 ltac:(vm_compute; reflexivity)
                  ltac:(vm_compute; discriminate))).
Defined.

(** One check at the instant of the last update, on a bucket that reads
    as [R - k] tokens: allowed exactly when [k < R], and the bucket then
    reads as [R - min (k + 1) R] tokens. *)
Lemma burst_step (identifier : string) (options : policy) (t : Q)
    (st st0 : storage) (y : Q) (k : Z) :
  let R := default 60 (rate options) in
  let bk := bucket_key identifier in
  let lk := last_update_key identifier in
  1 <= R -> 0 <= k <= R ->
  _get_bucket_state bk lk R t st = (Ok (y, now_ms t), st0) ->
  (y == inject_Z (R - k))%Q ->
  exists d st' y' st0',
    check identifier options t st = (Ok d, st')
    /\ allowed d = (k <? R)
    /\ _get_bucket_state bk lk R t st' = (Ok (y', now_ms t), st0')
    /\ (y' == inject_Z (R - Z.min (k + 1) R))%Q.
Proof.
  intros R bk lk HR Hk H Ey.
  pose proof (check_after_state identifier options t st st0 y (now_ms t) H) as Hc.
  cbv zeta in Hc. fold R in Hc.
  set (i := Utils.get_interval_in_seconds (default "minute"%string (interval options)))
    in *.
  assert (Hi : 0 < i) by apply interval_seconds_pos.
  destruct (Qeq_bool (refill_rate R i) 0) eqn:Ez.
  { apply refill_rate_zero in Ez; [lia | exact Hi]. }
  rewrite Z.sub_diag in Hc.
  set (full := refilled R i y 0) in *.
  assert (Hfull : (full == inject_Z (R - k))%Q).
  { unfold full, refilled.
    assert (Hz : (y + refill_tokens R i 0 == inject_Z (R - k))%Q)
      by (rewrite no_refill; lra).
    rewrite min_l; [exact Hz|]. rewrite Hz, <- Zle_Qle. lia. }
  set (new_tokens := (if Qleb 1 full then full - 1 else full)%Q) in *.
  assert (Hallow : Qleb 1 full = (k <? R)).
  { destruct (Z.ltb_spec k R) as [Hlt|Hge].
    - apply Qleb_true. rewrite Hfull. change 1%Q with (inject_Z 1).
      rewrite <- Zle_Qle. lia.
    - apply Qleb_false. rewrite Hfull. change 1%Q with (inject_Z 1).
      rewrite <- Zlt_Qlt. lia. }
  assert (Hnew : (new_tokens == inject_Z (R - Z.min (k + 1) R))%Q).
  { unfold new_tokens. rewrite Hallow. destruct (Z.ltb_spec k R) as [Hlt|Hge].
    - rewrite Z.min_l by lia. rewrite Hfull.
      replace (R - (k + 1)) with (R - k + - (1)) by lia.
      rewrite inject_Z_plus. reflexivity.
    - rewrite Z.min_r by lia. rewrite Hfull.
      replace k with R by lia. reflexivity. }
  destruct (float_of_str_str_float new_tokens) as (y' & Hy' & Ey').
  set (st' := stored_state identifier new_tokens (now_ms t) i t st0) in *.
  pose proof (stored_state_tokens identifier new_tokens (now_ms t) i t st0) as Hd1.
  pose proof (stored_state_last identifier new_tokens (now_ms t) i t st0) as Hd2.
  destruct (stored_state_ttl identifier new_tokens (now_ms t) i t st0 Hi) as [He1 He2].
  fold st' in Hd1, Hd2, He1, He2.
  assert (Hx : Qleb (t + inject_Z i) t = false).
  { apply Qleb_false. pose proof (inject_Z_pos i Hi). lra. }
  eexists _, st', y', _. split; [exact Hc|]. cbn [allowed].
  split; [exact Hallow|]. split.
  - apply get_bucket_state_total.
    + apply bucket_keys_differ.
    + rewrite live_lookup. fold bk in Hd1, He1. rewrite Hd1, He1, Hx. exact Hy'.
    + rewrite live_lookup. fold lk in Hd2, He2. rewrite Hd2, He2, Hx.
      apply int_of_str_str_int.
  - rewrite Ey'. exact Hnew.
Qed.

Lemma burst_from (identifier : string) (options : policy) (t : Q) (n : nat) :
  let R := default 60 (rate options) in
  1 <= R ->
  forall (k : Z) (st st0 : storage) (y : Q),
    0 <= k <= R ->
    _get_bucket_state (bucket_key identifier) (last_update_key identifier) R t st
    = (Ok (y, now_ms t), st0) ->
    (y == inject_Z (R - k))%Q ->
    allowances (fst (repeat_check check n identifier options t st))
    = map (fun j => Some (k + Z.of_nat j <? R)) (seq 0 n).
Proof.
  intros R HR. induction n as [|n IH]; intros k st st0 y Hk H Ey; [reflexivity|].
  destruct (burst_step identifier options t st st0 y k HR Hk H Ey)
    as (d & st' & y' & st0' & Hd & Ha & H' & Ey').
  cbn [repeat_check]. rewrite Hd.
  assert (Hk' : 0 <= Z.min (k + 1) R <= R) by lia.
  specialize (IH _ st' st0' y' Hk' H' Ey').
  destruct (repeat_check check n identifier options t st') as [rs st2].
  cbn [fst] in *. cbn [allowances map seq]. fold (allowances rs). rewrite IH, Ha.
  f_equal; [rewrite Z.add_0_r; reflexivity|].
  rewrite <- seq_shift, map_map. apply map_ext. intros j. f_equal.
  destruct (Z.ltb_spec (Z.min (k + 1) R + Z.of_nat j) R),
           (Z.ltb_spec (k + Z.of_nat (S j)) R); try reflexivity; lia.
Qed.

(** X13. On a bucket without stored state, of [n] checks made at one
    instant the first [rate] are allowed and every later one is denied:
    check number [j], counted from 0, is allowed exactly when [j < rate]
    (for a rate of at least 1). *)
Theorem X13_burst_admits_rate (identifier : string) (options : policy) (t : Q)
    (n : nat) (st : storage) :
  1 <= default 60 (rate options) ->
  live (bucket_key identifier) t st = None ->
  live (last_update_key identifier) t st = None ->
  allowances (fst (repeat_check check n identifier options t st))
  = map (fun j => Some (Z.of_nat j <? default 60 (rate options))) (seq 0 n).
Proof.
  intros HR Hb Hl.
  rewrite (burst_from identifier options t n HR 0 st
             (snd (get (last_update_key identifier) t
                     (snd (get (bucket_key identifier) t st))))
             (inject_Z (default 60 (rate options)))).
  - reflexivity.
  - lia.
  - apply get_bucket_state_total.
    + apply bucket_keys_differ.
    + rewrite Hb. reflexivity.
    + rewrite Hl. reflexivity.
  - rewrite Z.sub_0_r. reflexivity.
Qed.

Lemma X13_burst_admits_rate_witness :
  allowances (fst (repeat_check check 5 "ip:1.2.3.4" (per 3 "minute") 1000 empty))
  = map (fun j => Some (Z.of_nat j <? 3)) (seq 0 5).
Proof.
  apply (X13_burst_admits_rate "ip:1.2.3.4" (per 3 "minute") 1000 5 empty);
    [vm_compute; discriminate | reflexivity | reflexivity].
Defined.

(** A check touches no key but the two of its identifier. *)
Lemma check_frame (identifier : string) (options : policy) (t : Q) (st : storage)
    (key : string) :
  key <> bucket_key identifier -> key <> last_update_key identifier ->
  _data (snd (check identifier options t st)) !! key = _data st !! key
  /\ _expirations (snd (check identifier options t st)) !! key
     = _expirations st !! key.
Proof.
  intros Hb Hl.
  assert (H0 : forall st0,
    st0 = snd (get (last_update_key identifier) t
                 (snd (get (bucket_key identifier) t st))) ->
    _data st0 !! key = _data st !! key
    /\ _expirations st0 !! key = _expirations st !! key).
  { intros st0 ->. rewrite !get_other_data, !get_other_expirations by assumption.
    auto. }
  destruct (check_store identifier options t st) as [E|[tokens E]]; rewrite E.
  - apply H0. reflexivity.
  - unfold stored_state, set.
    destruct (ttl_truthy _); cbn;
      rewrite ?lookup_insert_ne, ?lookup_delete_ne by congruence;
      apply H0; reflexivity.
Qed.

(** X14. Buckets of different identifiers are independent: a check for
    [A] changes no key but those of [A], and so does not change what any
    check for [B] decides -- provided neither identifier is the other
    followed by [:last], for the token key of [A:last] is the timestamp
    key of [A]. *)
Theorem X14_buckets_are_independent (A B : string) (o o' : policy) (t t' : Q)
    (st : storage) :
  B <> A -> B <> A +:+ ":last" -> A <> B +:+ ":last" ->
  fst (check B o' t' (snd (check A o t st))) = fst (check B o' t' st)
  /\ (forall key, key <> bucket_key A -> key <> last_update_key A ->
        _data (snd (check A o t st)) !! key = _data st !! key
        /\ _expirations (snd (check A o t st)) !! key = _expirations st !! key)
  /\ bucket_key (A +:+ ":last") = last_update_key A.
Proof.
  intros Hne Hbl Hab.
  assert (K1 : bucket_key B <> bucket_key A)
    by (unfold bucket_key; intros E; apply append_inj_l in E; contradiction).
  assert (K2 : bucket_key B <> last_update_key A)
    by (unfold bucket_key, last_update_key; intros E; apply append_inj_l in E;
        contradiction).
  assert (K3 : last_update_key B <> bucket_key A)
    by (unfold bucket_key, last_update_key; intros E; apply append_inj_l in E;
        symmetry in E; contradiction).
  assert (K4 : last_update_key B <> last_update_key A)
    by (unfold last_update_key; intros E; apply append_inj_l, append_inj_r in E;
        contradiction).
  split; [|split].
  - apply decision_depends_on_live; apply live_ext;
      apply (check_frame A o t st); assumption.
  - intros key Hb Hl. apply check_frame; assumption.
  - reflexivity.
Qed.

Lemma X14_buckets_are_independent_witness :
  fst (check "ip:5.6.7.8" burst 1000 (snd (check "ip:1.2.3.4" burst 1000 empty)))
  = fst (check "ip:5.6.7.8" burst 1000 empty).
Proof.
  apply (proj1 (X14_buckets_are_independent "ip:1.2.3.4" "ip:5.6.7.8" burst burst
                  1000 1000 empty ltac:(discriminate) ltac:(discriminate)
                  ltac:(discriminate))).
Defined.

End BucketBehaviour.

(** ** The sliding window *)

Section WindowBehaviour.

Import Py MemoryStorage SlidingWindow Examples.

Lemma window_keys_differ (identifier : string) (w i : Z) :
  0 < i -> window_key identifier w <> window_key identifier (w - i).
Proof. intros Hi E. apply window_key_inj in E. lia. Qed.

(** What an allowed check writes: the counter, and its expiry. *)
Lemma counted (cur : string) (c ttl : Z) (t : Q) (st0 : storage) :
  int_of_str (default "0"%string (live cur t st0)) = Some c ->
  snd (expire cur ttl t (snd (incr cur t st0)))
  = {| _data := <[cur := str_int (c + 1)]> (_data (snd (get cur t st0)));
       _expirations :=
         <[cur := (t + inject_Z ttl)%Q]>
           (base.delete cur (_expirations (snd (get cur t st0)))) |}.
Proof.
  intros Hc. rewrite (incr_value cur t st0 c Hc). cbn [snd].
  rewrite (expire_present cur (str_int (c + 1)))
    by (rewrite set_no_ttl_data; apply lookup_insert_eq).
  cbn [snd]. rewrite set_no_ttl_data, set_no_ttl_expirations. reflexivity.
Qed.

Lemma live_after_gets (key k1 k2 : string) (t : Q) (st : storage) :
  live key t (snd (get k2 t (snd (get k1 t st)))) = live key t st.
Proof.
  assert (H : forall k s, live key t (snd (get k t s)) = live key t s).
  { intros k s. destruct (decide (key = k)) as [->|Hne];
      [apply live_after_get | apply live_after_get_other; exact Hne]. }
  rewrite !H. reflexivity.
Qed.

(** A check whose two counters read as [c] and [p]: the decision and the
    store it leaves. *)
Lemma window_check_reads (identifier : string) (options : policy) (t : Q)
    (st : storage) (c p : Z) :
  let R := default 60 (rate options) in
  let i := Utils.get_interval_in_seconds (default "minute"%string (interval options)) in
  let now := now_s t in
  let cur := window_key identifier (current_window now i) in
  let prev := window_key identifier (current_window now i - i) in
  let weighted := weighted_count c p now i in
  let allow := Qltb weighted (inject_Z R) in
  let st0 := snd (get prev t (snd (get cur t st))) in
  int_of_str (default "0"%string (live cur t st)) = Some c ->
  int_of_str (default "0"%string (live prev t st)) = Some p ->
  check identifier options t st
  = (Ok {| allowed := allow;
           limit := R;
           remaining :=
             Z.max 0 (int_of_float
                        (inject_Z R - weighted - (if allow then 1 else 0))%Q);
           reset_seconds := i - now mod i;
           retry_after := if allow then 0 else i - now mod i |},
     if allow
     then {| _data := <[cur := str_int (c + 1)]> (_data (snd (get cur t st0)));
             _expirations :=
               <[cur := (t + inject_Z (i * 2))%Q]>
                 (base.delete cur (_expirations (snd (get cur t st0)))) |}
     else st0).
Proof.
  intros R i now cur prev weighted allow st0 Hc Hp.
  assert (Hi : 0 < i) by apply interval_seconds_pos.
  pose proof (window_keys_differ identifier (current_window now i) i Hi) as Hne.
  fold cur prev in Hne.
  pose proof (get_window_counts_total cur prev t st c p Hne Hc Hp) as Hr.
  fold st0 in Hr.
  pose proof (check_after_counts identifier options t st st0 c p Hr) as Hk.
  cbv zeta in Hk. fold R i now cur prev weighted allow in Hk.
  rewrite Hk. f_equal. destruct allow; [|reflexivity].
  apply counted. unfold st0. rewrite live_after_gets. exact Hc.
Qed.

(** What the two counters read as after such a check. *)
Lemma window_check_live (identifier : string) (options : policy) (t : Q)
    (st : storage) (c p : Z) :
  let R := default 60 (rate options) in
  let i := Utils.get_interval_in_seconds (default "minute"%string (interval options)) in
  let now := now_s t in
  let cur := window_key identifier (current_window now i) in
  let prev := window_key identifier (current_window now i - i) in
  let allow := Qltb (weighted_count c p now i) (inject_Z R) in
  let st' := snd (check identifier options t st) in
  int_of_str (default "0"%string (live cur t st)) = Some c ->
  int_of_str (default "0"%string (live prev t st)) = Some p ->
  (allow = true ->
   forall t', live cur t' st'
              = if Qleb (t + inject_Z (i * 2)) t' then None
                else Some (str_int (c + 1)))
  /\ (allow = false -> live cur t st' = live cur t st)
  /\ live prev t st' = live prev t st.
Proof.
  intros R i now cur prev allow st' Hc Hp.
  assert (Hi : 0 < i) by apply interval_seconds_pos.
  pose proof (window_keys_differ identifier (current_window now i) i Hi) as Hne.
  fold cur prev in Hne.
  pose proof (window_check_reads identifier options t st c p Hc Hp) as Hk.
  cbv zeta in Hk. fold R i now cur prev allow in Hk.
  unfold st'. rewrite Hk. cbn [snd]. clear Hk.
  destruct allow; (split; [|split]); try discriminate.
  - intros _ t'. rewrite live_lookup. cbn [_data _expirations].
    rewrite !lookup_insert_eq. reflexivity.
  - rewrite <- (live_after_gets prev cur prev t st). apply live_ext; cbn [_data _expirations].
    + rewrite lookup_insert_ne by exact Hne. apply get_other_data. congruence.
    + rewrite lookup_insert_ne, lookup_delete_ne by exact Hne.
      apply get_other_expirations. congruence.
  - intros _. apply live_after_gets.
  - apply live_after_gets.
Qed.

Lemma weighted_no_history (c now i : Z) : (weighted_count c 0 now i == inject_Z c)%Q.
Proof. unfold weighted_count. change (inject_Z 0) with 0%Q. ring. Qed.

Lemma Qltb_inject (x : Q) (c R : Z) :
  (x == inject_Z c)%Q -> Qltb x (inject_Z R) = (c <? R).
Proof.
  intros E. destruct (Z.ltb_spec c R) as [H|H].
  - apply Qltb_true. rewrite E, <- Zlt_Qlt. exact H.
  - apply Qltb_false. rewrite E, <- Zle_Qle. exact H.
Qed.

Lemma window_burst_from (identifier : string) (options : policy) (t : Q) (n : nat) :
  let R := default 60 (rate options) in
  let i := Utils.get_interval_in_seconds (default "minute"%string (interval options)) in
  let cur := window_key identifier (current_window (now_s t) i) in
  let prev := window_key identifier (current_window (now_s t) i - i) in
  forall (c : Z) (st : storage),
    int_of_str (default "0"%string (live cur t st)) = Some c ->
    int_of_str (default "0"%string (live prev t st)) = Some 0 ->
    allowances (fst (repeat_check check n identifier options t st))
    = map (fun j => Some (c + Z.of_nat j <? R)) (seq 0 n).
Proof.
  intros R i cur prev. induction n as [|n IH]; intros c st Hc Hp; [reflexivity|].
  assert (Hi : 0 < i) by apply interval_seconds_pos.
  pose proof (window_check_reads identifier options t st c 0 Hc Hp) as Hk.
  destruct (window_check_live identifier options t st c 0 Hc Hp) as (La & Ld & Lp).
  cbv zeta in Hk, La, Ld, Lp. fold R i cur prev in Hk, La, Ld, Lp.
  rewrite (Qltb_inject _ c R (weighted_no_history c (now_s t) i)) in Hk, La, Ld.
  cbn [repeat_check].
  destruct (check identifier options t st) as [r st'] eqn:E.
  injection Hk as Hr Hs. cbn [snd] in La, Ld, Lp.
  set (c' := if c <? R then c + 1 else c).
  assert (Hc' : int_of_str (default "0"%string (live cur t st')) = Some c').
  { unfold c'. destruct (c <? R).
    - rewrite (La eq_refl t).
      assert (Hx : Qleb (t + inject_Z (i * 2)) t = false).
      { apply Qleb_false. pose proof (inject_Z_pos (i * 2) ltac:(lia)). lra. }
      rewrite Hx. cbn [default from_option id]. apply int_of_str_str_int.
    - rewrite (Ld eq_refl). exact Hc. }
  assert (Hp' : int_of_str (default "0"%string (live prev t st')) = Some 0)
    by (rewrite Lp; exact Hp).
  specialize (IH c' st' Hc' Hp').
  destruct (repeat_check check n identifier options t st') as [rs st2].
  cbn [fst] in *. cbn [allowances map seq]. fold (allowances rs).
  rewrite IH, Hr. cbn [allowed]. f_equal; [rewrite Z.add_0_r; reflexivity|].
  rewrite <- seq_shift, map_map. apply map_ext. intros j. f_equal. unfold c'.
  destruct (Z.ltb_spec c R), (Z.ltb_spec (c + Z.of_nat (S j)) R);
    match goal with
    | |- (?a <? ?b) = _ => destruct (Z.ltb_spec a b)
    end; try reflexivity; lia.
Qed.

(** X15. A window whose counter reads [c], with nothing counted in the
    window before, admits exactly the next [rate - c] requests: of [n]
    checks made at one instant, check number [j] (from 0) is allowed
    exactly when [c + j < rate].  With a rate of 0 or less nothing is
    ever allowed. *)
Theorem X15_window_admits_rate (identifier : string) (options : policy) (t : Q)
    (n : nat) (c : Z) (st : storage) :
  let R := default 60 (rate options) in
  let i := Utils.get_interval_in_seconds (default "minute"%string (interval options)) in
  let cur := window_key identifier (current_window (now_s t) i) in
  let prev := window_key identifier (current_window (now_s t) i - i) in
  int_of_str (default "0"%string (live cur t st)) = Some c ->
  int_of_str (default "0"%string (live prev t st)) = Some 0 ->
  allowances (fst (repeat_check check n identifier options t st))
  = map (fun j => Some (c + Z.of_nat j <? R)) (seq 0 n)
  /\ (R <= 0 -> 0 <= c ->
      allowances (fst (repeat_check check n identifier options t st))
      = map (fun _ => Some false) (seq 0 n)).
Proof.
  intros R i cur prev Hc Hp.
  pose proof (window_burst_from identifier options t n c st Hc Hp) as H.
  cbv zeta in H. fold R in H. split; [exact H|].
  intros HR H0. rewrite H. apply map_ext. intros j. f_equal.
  apply Z.ltb_ge. lia.
Qed.

Lemma X15_window_admits_rate_witness :
  allowances (fst (repeat_check check 5 "ip:1.2.3.4"
                     {| rate := Some 3; interval := Some "minute"%string;
                        algorithm := Some "sliding_window"%string |} 1000 empty))
  = map (fun j => Some (0 + Z.of_nat j <? 3)) (seq 0 5).
Proof.
  apply (X15_window_admits_rate "ip:1.2.3.4"
           {| rate := Some 3; interval := Some "minute"%string;
              algorithm := Some "sliding_window"%string |} 1000 5 0 empty);
    reflexivity.
Defined.

Lemma within_two_windows (t t' : Q) (i : Z) :
  0 < i -> (0 <= t)%Q -> (t <= t')%Q ->
  current_window (now_s t') i <= current_window (now_s t) i + i ->
  (t' < t + inject_Z (i * 2))%Q.
Proof.
  intros Hi Ht Htt Hw. unfold current_window, now_s in *.
  assert (Ht' : (0 <= t')%Q) by lra.
  pose proof (int_of_float_lt t' Ht') as Hlt.
  pose proof (int_of_float_le t Ht) as Hle.
  pose proof (Z.mod_pos_bound (int_of_float t') i Hi) as Hm'.
  pose proof (Z.mod_pos_bound (int_of_float t) i Hi) as Hm.
  pose proof (Z.div_mod (int_of_float t') i ltac:(lia)) as Hd'.
  pose proof (Z.div_mod (int_of_float t) i ltac:(lia)) as Hd.
  assert (Hz : int_of_float t' + 1 <= int_of_float t + i * 2) by nia.
  assert (Hq : (inject_Z (int_of_float t' + 1) <= inject_Z (int_of_float t + i * 2))%Q)
    by (rewrite <- Zle_Qle; exact Hz).
  rewrite !inject_Z_plus in Hq. change (inject_Z 1) with 1%Q in Hq. lra.
Qed.

(** X16. An allowed check keeps its window's counter for twice the
    interval, counted from the check: the counter reads [c + 1] at
    every time before [t + 2 * interval_seconds], and is gone from then
    on.  That is long enough for every check of the same and of the
    next window to find it. *)
Theorem X16_counter_kept_two_intervals (identifier : string) (options : policy)
    (t : Q) (st : storage) (c p : Z) :
  let R := default 60 (rate options) in
  let i := Utils.get_interval_in_seconds (default "minute"%string (interval options)) in
  let w := current_window (now_s t) i in
  let st' := snd (check identifier options t st) in
  int_of_str (default "0"%string (live (window_key identifier w) t st)) = Some c ->
  int_of_str (default "0"%string (live (window_key identifier (w - i)) t st)) = Some p ->
  (weighted_count c p (now_s t) i < inject_Z R)%Q ->
  (forall t', (t' < t + inject_Z (i * 2))%Q ->
     live (window_key identifier w) t' st' = Some (str_int (c + 1)))
  /\ (forall t', (t + inject_Z (i * 2) <= t')%Q ->
        live (window_key identifier w) t' st' = None)
  /\ (forall t', (0 <= t)%Q -> (t <= t')%Q -> current_window (now_s t') i <= w + i ->
        live (window_key identifier w) t' st' = Some (str_int (c + 1))).
Proof.
  intros R i w st' Hc Hp Ha.
  destruct (window_check_live identifier options t st c p Hc Hp) as (La & _ & _).
  cbv zeta in La. fold R i w st' in La.
  apply Qltb_true in Ha. specialize (La Ha).
  assert (Hbefore : forall t', (t' < t + inject_Z (i * 2))%Q ->
            live (window_key identifier w) t' st' = Some (str_int (c + 1))).
  { intros t' H. rewrite La.
    replace (Qleb (t + inject_Z (i * 2)) t') with false; [reflexivity|].
    symmetry. apply Qleb_false. exact H. }
  split; [exact Hbefore|]. split.
  - intros t' H. rewrite La.
    replace (Qleb (t + inject_Z (i * 2)) t') with true; [reflexivity|].
    symmetry. apply Qleb_true. exact H.
  - intros t' Ht Htt Hw. apply Hbefore.
    apply within_two_windows; [apply interval_seconds_pos | assumption..].
Qed.

Lemma X16_counter_kept_two_intervals_witness :
  live "sw:ip:1.2.3.4:960" 1079
    (snd (check "ip:1.2.3.4" (per 3 "minute") 1000 empty))
  = Some "1"%string.
Proof.
  apply (proj1 (X16_counter_kept_two_intervals "ip:1.2.3.4" (per 3 "minute") 1000
                  empty 0 0 eq_refl eq_refl ltac:(vm_compute; reflexivity)) 1079%Q).
  vm_compute. reflexivity.
Defined.

(** X17. With counters [c] and [p] that are not negative, the weighted
    rule lies between two plain ones: a request is allowed whenever
    [c + p < rate] and refused whenever [c >= rate]; at the first second
    of a window the previous window counts in full, and the request is
    allowed exactly when [c + p < rate].  An allowed request leaves at
    most [rate - c - 1] remaining; a refused one reports the time to the
    next window, between 1 and [interval_seconds], as [retry_after]. *)
Theorem X17_window_rule_bounds (identifier : string) (options : policy) (t : Q)
    (st : storage) (c p : Z) :
  let R := default 60 (rate options) in
  let i := Utils.get_interval_in_seconds (default "minute"%string (interval options)) in
  let w := current_window (now_s t) i in
  int_of_str (default "0"%string (live (window_key identifier w) t st)) = Some c ->
  int_of_str (default "0"%string (live (window_key identifier (w - i)) t st)) = Some p ->
  0 <= c -> 0 <= p ->
  exists d st',
    check identifier options t st = (Ok d, st')
    /\ (c + p < R -> allowed d = true)
    /\ (R <= c -> allowed d = false)
    /\ (now_s t mod i = 0 -> allowed d = (c + p <? R))
    /\ (allowed d = true -> remaining d <= R - c - 1)
    /\ (allowed d = false -> retry_after d = reset_seconds d /\ 1 <= retry_after d <= i).
Proof.
  intros R i w Hc Hp H0c H0p.
  assert (Hi : 0 < i) by apply interval_seconds_pos.
  pose proof (window_check_reads identifier options t st c p Hc Hp) as Hk.
  cbv zeta in Hk. fold R i w in Hk.
  eexists _, _. split; [exact Hk|]. cbn [allowed remaining retry_after reset_seconds].
  pose proof (window_position_bounds (now_s t) i Hi) as [Hlo Hhi].
  pose proof (inject_Z_nonneg p H0p) as Hqp.
  set (pos := window_position (now_s t) i) in *.
  assert (Hw : (inject_Z c <= weighted_count c p (now_s t) i <= inject_Z (c + p))%Q).
  { unfold weighted_count. fold pos. rewrite inject_Z_plus.
    assert (0 <= inject_Z p * (1 - pos))%Q by (apply Qmult_le_0_compat; lra).
    assert (inject_Z p * (1 - pos) <= inject_Z p)%Q by nra.
    lra. }
  destruct Hw as [Hw1 Hw2].
  split; [|split; [|split; [|split]]].
  - intros H. apply Qltb_true. rewrite Zlt_Qlt in H. lra.
  - intros H. apply Qltb_false. rewrite Zle_Qle in H. lra.
  - intros H. apply Qltb_inject. unfold weighted_count, window_position.
    rewrite H, inject_Z_plus. change (inject_Z 0) with 0%Q. field.
    pose proof (inject_Z_pos i Hi). lra.
  - intros Ha. rewrite Ha. apply Qltb_true in Ha.
    assert (HR : c < R).
    { rewrite Zlt_Qlt. lra. }
    apply Z.max_lub; [lia|]. apply int_of_float_upper; [|lia].
    replace (R - c - 1) with (R + - c + - (1)) by lia.
    rewrite !inject_Z_plus, inject_Z_opp. change (inject_Z (- (1))) with (- (1))%Q.
    lra.
  - intros Ha. rewrite Ha. split; [reflexivity|].
    pose proof (Z.mod_pos_bound (now_s t) i Hi). lia.
Qed.

Lemma X17_window_rule_bounds_witness :
  exists d st',
    check "ip:1.2.3.4" (per 3 "minute") 1000 empty = (Ok d, st')
    /\ allowed d = true.
Proof.
  destruct (X17_window_rule_bounds "ip:1.2.3.4" (per 3 "minute") 1000 empty 0 0
              eq_refl eq_refl ltac:(lia) ltac:(lia))
    as (d & st' & H & Ha & _).
  exists d, st'. split; [exact H|]. apply Ha. vm_compute. reflexivity.
Defined.

Lemma window_reset_store (self_interval : option string) (identifier : string)
    (options : option policy) (t : Q) (st : storage) :
  let i :=
    Utils.get_interval_in_seconds
      (default (default "minute"%string self_interval) (options ≫= interval)) in
  let w := current_window (now_s t) i in
  reset self_interval identifier options t st
  = (Ok true,
     set (window_key identifier (w - i)) "0" None t
       (set (window_key identifier w) "0" None t st)).
Proof. reflexivity. Qed.

(** X18. After a reset, every check that falls in the window of the
    reset and uses the same interval finds both counters at 0, whatever
    was counted before: it is allowed exactly when the rate is
    positive, and then leaves [rate - 1] requests. *)
Theorem X18_window_reset_then_check (self_interval : option string)
    (identifier : string) (reset_options : option policy) (options : policy)
    (t t' : Q) (st : storage) :
  let R := default 60 (rate options) in
  let i := Utils.get_interval_in_seconds (default "minute"%string (interval options)) in
  Utils.get_interval_in_seconds
    (default (default "minute"%string self_interval) (reset_options ≫= interval)) = i ->
  current_window (now_s t') i = current_window (now_s t) i ->
  fst (reset self_interval identifier reset_options t st) = Ok true
  /\ exists d st',
       check identifier options t' (snd (reset self_interval identifier reset_options t st))
       = (Ok d, st')
       /\ allowed d = (0 <? R) /\ limit d = R
       /\ (1 <= R -> remaining d = R - 1 /\ retry_after d = 0).
Proof.
  intros R i Ei Ew.
  assert (Hi : 0 < i) by apply interval_seconds_pos.
  pose proof (window_reset_store self_interval identifier reset_options t st) as Hr.
  cbv zeta in Hr. rewrite Ei in Hr. rewrite Hr. cbn [fst snd]. split; [reflexivity|].
  set (w := current_window (now_s t) i) in *.
  set (st1 := set (window_key identifier (w - i)) "0" None t
                (set (window_key identifier w) "0" None t st)).
  pose proof (window_keys_differ identifier w i Hi) as Hne.
  assert (Lc : live (window_key identifier w) t' st1 = Some "0"%string).
  { rewrite live_lookup. unfold st1. rewrite !set_no_ttl_data, !set_no_ttl_expirations.
    rewrite lookup_insert_ne, lookup_insert_eq by congruence.
    rewrite lookup_delete_ne, lookup_delete_eq by congruence. reflexivity. }
  assert (Lp : live (window_key identifier (w - i)) t' st1 = Some "0"%string).
  { rewrite live_lookup. unfold st1. rewrite !set_no_ttl_data, !set_no_ttl_expirations.
    rewrite lookup_insert_eq, lookup_delete_eq. reflexivity. }
  assert (Hc : int_of_str
                 (default "0"%string
                    (live (window_key identifier (current_window (now_s t') i)) t' st1))
               = Some 0) by (rewrite Ew, Lc; reflexivity).
  assert (Hp : int_of_str
                 (default "0"%string
                    (live (window_key identifier (current_window (now_s t') i - i)) t' st1))
               = Some 0) by (rewrite Ew, Lp; reflexivity).
  pose proof (window_check_reads identifier options t' st1 0 0 Hc Hp) as Hk.
  cbv zeta in Hk. fold R i in Hk.
  pose proof (weighted_no_history 0 (now_s t') i) as Hz.
  rewrite (Qltb_inject _ 0 R Hz) in Hk.
  eexists _, _. split; [exact Hk|]. cbn [allowed limit remaining retry_after].
  split; [reflexivity|]. split; [reflexivity|].
  intros HR. replace (0 <? R) with true by (symmetry; apply Z.ltb_lt; lia).
  split; [|reflexivity].
  rewrite (int_of_float_whole _ (R - 1)); [lia| |lia].
  rewrite Hz. replace (R - 1) with (R + - (1)) by lia.
  rewrite inject_Z_plus. change (inject_Z (- (1))) with (- (1))%Q.
  change (inject_Z 0) with 0%Q. ring.
Qed.

Lemma X18_window_reset_then_check_witness :
  exists d st',
    check "ip:1.2.3.4" (per 3 "minute") 1010
      (snd (reset None "ip:1.2.3.4" None 1000
              (snd (repeat_check check 5 "ip:1.2.3.4" (per 3 "minute") 990 empty))))
    = (Ok d, st')
    /\ allowed d = (0 <? 3) /\ limit d = 3
    /\ (1 <= 3 -> remaining d = 3 - 1 /\ retry_after d = 0).
Proof.
  apply (X18_window_reset_then_check None "ip:1.2.3.4" None (per 3 "minute") 1000 1010
           (snd (repeat_check check 5 "ip:1.2.3.4" (per 3 "minute") 990 empty))
           eq_refl eq_refl).
Defined.

(** X19. [calculate_reset] raises [ZeroDivisionError] for a window of
    size 0; for a positive size it returns a number of seconds between
    1 and the size, which added to the current second gives the start
    of the next window; and it is the [reset] every sliding-window
    decision reports for its interval. *)
Theorem X19_calculate_reset (window_size : Z) (t : Q) :
  (window_size = 0 -> Utils.calculate_reset window_size t = Raise ZeroDivisionError)
  /\ (0 < window_size ->
      exists r,
        Utils.calculate_reset window_size t = Ok r
        /\ 1 <= r <= window_size
        /\ now_s t + r = current_window (now_s t) window_size + window_size)
  /\ (forall identifier options st d st',
        check identifier options t st = (Ok d, st') ->
        Utils.calculate_reset
          (Utils.get_interval_in_seconds (default "minute"%string (interval options))) t
        = Ok (reset_seconds d)).
Proof.
  split; [|split].
  - intros ->. reflexivity.
  - intros Hw. unfold Utils.calculate_reset.
    replace (window_size =? 0) with false by (symmetry; apply Z.eqb_neq; lia).
    eexists. split; [reflexivity|]. fold (now_s t).
    pose proof (Z.mod_pos_bound (now_s t) window_size Hw).
    pose proof (Z.div_mod (now_s t) window_size ltac:(lia)).
    unfold current_window. split; [lia | nia].
  - intros identifier options st d st' H.
    set (i := Utils.get_interval_in_seconds (default "minute"%string (interval options))).
    assert (Hi : 0 < i) by apply interval_seconds_pos.
    unfold Utils.calculate_reset.
    replace (i =? 0) with false by (symmetry; apply Z.eqb_neq; lia).
    fold (now_s t). f_equal.
    destruct (_get_window_counts
                (window_key identifier (current_window (now_s t) i))
                (window_key identifier (current_window (now_s t) i - i)) t st)
      as [[[c p]|e] st0] eqn:E.
    + rewrite (check_after_counts identifier options t st st0 c p E) in H.
      injection H as <- _. reflexivity.
    + unfold check, Run.bind in H. fold i in H. rewrite E in H. discriminate H.
Qed.

Lemma X19_calculate_reset_witness :
  exists r,
    Utils.calculate_reset 60 1000 = Ok r
    /\ 1 <= r <= 60
    /\ now_s 1000 + r = current_window (now_s 1000) 60 + 60.
Proof.
  apply (proj1 (proj2 (X19_calculate_reset 60 1000))). lia.
Defined.



Lemma no_colon (s : string) :
  every int_char s -> forall a b, s <> a +:+ ":" +:+ b.
Proof.
  intros Hs a. revert s Hs. induction a as [|x a IH]; intros s Hs b E; subst s.
  - rewrite append_nil_l, append_cons in Hs. destruct Hs as [[Hd|Hm] _].
    + destruct Hd as (_ & _ & _ & _ & _ & _ & _ & Hcolon). congruence.
    + discriminate Hm.
  - rewrite append_cons in Hs. destruct Hs as [_ Hs]. exact (IH _ Hs b eq_refl).
Qed.

Lemma colon_split (d d' : string) :
  (forall a b, d <> a +:+ ":" +:+ b) -> (forall a b, d' <> a +:+ ":" +:+ b) ->
  forall A B, A +:+ ":" +:+ d = B +:+ ":" +:+ d' -> A = B.
Proof.
  intros Hd Hd'. induction A as [|x A IH]; intros [|y B] E.
  - reflexivity.
  - rewrite append_nil_l, !append_cons, append_nil_l in E. injection E as _ E.
    destruct (Hd B d' E).
  - rewrite append_nil_l, !append_cons, append_nil_l in E. injection E as _ E.
    symmetry in E. destruct (Hd' A d E).
  - rewrite !append_cons in E. injection E as -> E. f_equal. exact (IH B E).
Qed.

(** Window keys of different identifiers never coincide. *)
Lemma window_key_identifier (A B : string) (w w' : Z) :
  window_key A w = window_key B w' -> A = B.
Proof.
  unfold window_key. intros E. apply append_inj_l in E.
  apply (colon_split (str_int w) (str_int w')); [| | exact E];
    apply no_colon, str_int_every.
Qed.

Lemma window_read_store (ck pk : string) (t : Q) (st : storage) :
  snd (_get_window_counts ck pk t st) = snd (get pk t (snd (get ck t st))).
Proof.
  unfold _get_window_counts, Run.bind, Run.call, Run.ret, Run.convert.
  destruct (get ck t st) as [v1 s1]. cbn [snd].
  destruct (get pk t s1) as [v2 s2]. cbn [snd].
  destruct v1 as [x|], v2 as [z|]; cbn;
    repeat match goal with
           | |- context [int_of_str ?a] => destruct (int_of_str a); cbn
           end; reflexivity.
Qed.

Lemma window_read_depends_on_live (ck pk : string) (t : Q) (st1 st2 : storage) :
  ck <> pk ->
  live ck t st1 = live ck t st2 -> live pk t st1 = live pk t st2 ->
  fst (_get_window_counts ck pk t st1) = fst (_get_window_counts ck pk t st2).
Proof.
  intros Hne Hb Hl.
  rewrite <- (live_after_get_other pk ck t st1), <- (live_after_get_other pk ck t st2)
    in Hl by congruence.
  unfold _get_window_counts, live, Run.bind, Run.call, Run.ret, Run.convert in *.
  destruct (get ck t st1) as [v1 s1], (get ck t st2) as [v1' s1']. cbn [fst snd] in *.
  destruct (get pk t s1) as [v2 s2], (get pk t s1') as [v2' s2']. cbn [fst snd] in *.
  subst v1' v2'.
  destruct v1 as [x|], v2 as [z|]; cbn;
    repeat match goal with
           | |- context [int_of_str ?a] => destruct (int_of_str a); cbn
           end; reflexivity.
Qed.

Lemma window_decision_depends_on_live (identifier : string) (options : policy) (t : Q)
    (st1 st2 : storage) :
  let i := Utils.get_interval_in_seconds (default "minute"%string (interval options)) in
  let w := current_window (now_s t) i in
  live (window_key identifier w) t st1 = live (window_key identifier w) t st2 ->
  live (window_key identifier (w - i)) t st1
  = live (window_key identifier (w - i)) t st2 ->
  fst (check identifier options t st1) = fst (check identifier options t st2).
Proof.
  intros i w Hc Hp.
  assert (Hi : 0 < i) by apply interval_seconds_pos.
  pose proof (window_read_depends_on_live _ _ t st1 st2
                (window_keys_differ identifier w i Hi) Hc Hp) as H.
  unfold check, Run.bind. fold i w.
  destruct (_get_window_counts _ _ t st1) as [[[c1 p1]|e1] s1],
           (_get_window_counts _ _ t st2) as [[[c2 p2]|e2] s2];
    cbn [fst] in H; try discriminate H.
  - injection H as -> ->.
    destruct (Qltb _ _); unfold Run.call, Run.ret;
      repeat match goal with
             | |- context [incr ?k ?t ?s] => destruct (incr k t s); cbn
             | |- context [expire ?k ?l ?t ?s] => destruct (expire k l t s); cbn
             end; reflexivity.
  - injection H as ->. reflexivity.
Qed.

(** A check touches no key but the two window keys it reads. *)
Lemma window_check_frame (identifier : string) (options : policy) (t : Q)
    (st : storage) (key : string) :
  let i := Utils.get_interval_in_seconds (default "minute"%string (interval options)) in
  let w := current_window (now_s t) i in
  key <> window_key identifier w -> key <> window_key identifier (w - i) ->
  _data (snd (check identifier options t st)) !! key = _data st !! key
  /\ _expirations (snd (check identifier options t st)) !! key
     = _expirations st !! key.
Proof.
  intros i w Hc Hp.
  set (cur := window_key identifier w) in *.
  set (prev := window_key identifier (w - i)) in *.
  set (st0 := snd (get prev t (snd (get cur t st)))).
  assert (H0 : _data st0 !! key = _data st !! key
               /\ _expirations st0 !! key = _expirations st !! key).
  { unfold st0. rewrite !get_other_data, !get_other_expirations by assumption. auto. }
  pose proof (window_read_store cur prev t st) as Hs. fold st0 in Hs.
  unfold check, Run.bind. fold i w cur prev.
  destruct (_get_window_counts cur prev t st) as [[[c p]|e] s]; cbn [snd] in Hs; subst s;
    [|exact H0].
  destruct (Qltb _ _); [|exact H0].
  unfold Run.call, Run.ret. rewrite (incr_shape cur t st0).
  set (S1 := set cur _ None t (snd (get cur t st0))).
  assert (H1 : _data S1 !! key = _data st !! key
               /\ _expirations S1 !! key = _expirations st !! key).
  { unfold S1. rewrite set_no_ttl_data, set_no_ttl_expirations.
    rewrite lookup_insert_ne, lookup_delete_ne by congruence.
    rewrite get_other_data, get_other_expirations by assumption. exact H0. }
  unfold expire. destruct (_data S1 !! cur); cbn [snd _data _expirations]; [|exact H1].
  rewrite lookup_insert_ne by congruence. exact H1.
Qed.

(** X21. Windows of different identifiers are independent, with no
    exception: a check for [A] changes no key but the two window keys of
    [A], which are never a window key of another identifier [B], so it
    does not change what a check for [B] decides or raises. *)
Theorem X21_windows_are_independent (A B : string) (o o' : policy) (t t' : Q)
    (st : storage) :
  A <> B ->
  fst (check B o' t' (snd (check A o t st))) = fst (check B o' t' st)
  /\ (forall w w', window_key A w <> window_key B w')
  /\ (forall w' tt, live (window_key B w') tt (snd (check A o t st))
                    = live (window_key B w') tt st).
Proof.
  intros Hne.
  assert (K : forall w w', window_key A w <> window_key B w').
  { intros w w' E. apply Hne. exact (window_key_identifier A B w w' E). }
  assert (L : forall w' tt, live (window_key B w') tt (snd (check A o t st))
                            = live (window_key B w') tt st).
  { intros w' tt. apply live_ext; apply (window_check_frame A o t st);
      intros E; symmetry in E; exact (K _ _ E). }
  split; [|split; [exact K | exact L]].
  apply window_decision_depends_on_live; apply L.
Qed.

Lemma X21_windows_are_independent_witness :
  fst (check "ip:5.6.7.8" (per 1 "minute") 1000
         (snd (check "ip:1.2.3.4" (per 1 "minute") 1000 empty)))
  = fst (check "ip:5.6.7.8" (per 1 "minute") 1000 empty).
Proof.
  apply (proj1 (X21_windows_are_independent "ip:1.2.3.4" "ip:5.6.7.8"
                  (per 1 "minute") (per 1 "minute") 1000 1000 empty
                  ltac:(discriminate))).
Defined.

End WindowBehaviour.

(** ** The limiter *)

Section LimiterBehaviour.

Import Py MemoryStorage RateLimiter Session Examples.

Lemma bucket_key_not_window (A B : string) (w : Z) :
  TokenBucket.bucket_key A <> SlidingWindow.window_key B w
  /\ TokenBucket.last_update_key A <> SlidingWindow.window_key B w.
Proof.
  unfold TokenBucket.bucket_key, TokenBucket.last_update_key, SlidingWindow.window_key.
  split; intros E; rewrite !append_cons in E; discriminate E.
Qed.

Lemma bucket_reset_frame (identifier : string) (opts : option policy) (t : Q)
    (st : MemoryStorage.storage) (key : string) :
  key <> TokenBucket.bucket_key identifier ->
  key <> TokenBucket.last_update_key identifier ->
  _data (snd (TokenBucket.reset identifier opts t st)) !! key = _data st !! key
  /\ _expirations (snd (TokenBucket.reset identifier opts t st)) !! key
     = _expirations st !! key.
Proof.
  intros Hb Hl. unfold TokenBucket.reset, Run.bind, Run.write, Run.ret. cbn [snd].
  rewrite !set_no_ttl_data, !set_no_ttl_expirations.
  rewrite !lookup_insert_ne, !lookup_delete_ne by congruence. auto.
Qed.

Lemma window_reset_frame (self_interval : option string) (identifier : string)
    (opts : option policy) (t : Q) (st : MemoryStorage.storage) (key : string) :
  (forall w, key <> SlidingWindow.window_key identifier w) ->
  _data (snd (SlidingWindow.reset self_interval identifier opts t st)) !! key
  = _data st !! key
  /\ _expirations (snd (SlidingWindow.reset self_interval identifier opts t st)) !! key
     = _expirations st !! key.
Proof.
  intros Hk. rewrite window_reset_store. cbn [snd].
  rewrite !set_no_ttl_data, !set_no_ttl_expirations.
  rewrite !lookup_insert_ne, !lookup_delete_ne by (intros E; symmetry in E; exact (Hk _ E)).
  auto.
Qed.

(** X22. [reset] looks the algorithm up by name, the name given with
    the call first: a name that is neither [token_bucket] nor
    [sliding_window] raises [KeyError] and changes nothing, where a
    check with such a limiter runs the token bucket.  And since a check
    never looks at the name given with the call, a reset of the
    algorithm the limiter does not run succeeds without changing any
    later decision. *)
Theorem X22_reset_dispatch (self : limiter) (identifier : string)
    (opts : option policy) (t : Q) (w : world) :
  let name := default (self_algorithm self) (opts ≫= algorithm) in
  (name <> "token_bucket"%string -> name <> "sliding_window"%string ->
   reset self identifier opts t w = (Raise KeyError, w)
   /\ (opts ≫= algorithm = None ->
       forall request o t',
         fst (check self request o t' w)
         = fst (TokenBucket.check (get_client_identifier self request)
                  (effective_options self
                     (Utils.ci_path (Utils.normalize_client_info request)) o)
                  t' (storage w))))
  /\ (name = "token_bucket"%string \/ name = "sliding_window"%string ->
      fst (reset self identifier opts t w) = Ok true)
  /\ (name = "sliding_window"%string -> self_algorithm self <> "sliding_window"%string ->
      forall request o t',
        fst (check self request o t' (snd (reset self identifier opts t w)))
        = fst (check self request o t' w))
  /\ (name = "token_bucket"%string -> self_algorithm self = "sliding_window"%string ->
      forall request o t',
        fst (check self request o t' (snd (reset self identifier opts t w)))
        = fst (check self request o t' w)).
Proof.
  intros name. unfold reset. fold name.
  split; [|split; [|split]].
  - intros H1 H2.
    apply String.eqb_neq in H1 as E1. apply String.eqb_neq in H2 as E2.
    rewrite E1, E2. destruct w as [h st]. split; [reflexivity|].
    intros Hn request o t'.
    assert (Hs : self_algorithm self = name).
    { unfold name. rewrite Hn. reflexivity. }
    destruct (check_dispatch self request o t' {| heap := h; storage := st |}) as [Hd _].
    rewrite Hd, Hs, E2. reflexivity.
  - intros [H|H]; rewrite H; reflexivity.
  - intros Hn Hs request o t'. rewrite Hn. cbn [String.eqb Ascii.eqb Bool.eqb].
    apply String.eqb_neq in Hs.
    destruct (check_dispatch self request o t' w) as [Hd _].
    rewrite Hd, Hs. clear Hd.
    match goal with
    | |- fst (check self request o t' ?w1) = _ =>
        destruct (check_dispatch self request o t' w1) as [Hd _]; rewrite Hd, Hs
    end.
    destruct (SlidingWindow.reset _ identifier opts t (storage w)) as [r st1] eqn:Er.
    cbn [storage snd].
    assert (Est : st1 = snd (SlidingWindow.reset (opt_interval (options self))
                               identifier opts t (storage w)))
      by (rewrite Er; reflexivity).
    subst st1.
    apply decision_depends_on_live; apply live_ext;
      apply window_reset_frame; intros w0; apply bucket_key_not_window.
  - intros Hn Hs request o t'. rewrite Hn. cbn [String.eqb Ascii.eqb Bool.eqb].
    destruct (check_dispatch self request o t' w) as [Hd _].
    rewrite Hd, Hs. clear Hd.
    match goal with
    | |- fst (check self request o t' ?w1) = _ =>
        destruct (check_dispatch self request o t' w1) as [Hd _]; rewrite Hd, Hs
    end.
    cbn [String.eqb Ascii.eqb Bool.eqb].
    destruct (TokenBucket.reset identifier opts t (storage w)) as [r st1] eqn:Er.
    cbn [storage snd].
    assert (Est : st1 = snd (TokenBucket.reset identifier opts t (storage w)))
      by (rewrite Er; reflexivity).
    subst st1.
    apply window_decision_depends_on_live; apply live_ext;
      apply bucket_reset_frame; intros E; symmetry in E;
      revert E; apply bucket_key_not_window.
Qed.

Lemma X22_reset_dispatch_witness :
  reset (limiter_of no_options) "ip:1.2.3.4"
    (Some {| rate := None; interval := None; algorithm := Some "leaky_bucket"%string |})
    1000 (world_of no_options)
  = (Raise KeyError, world_of no_options).
Proof.
  apply (proj1 (X22_reset_dispatch (limiter_of no_options) "ip:1.2.3.4"
                  (Some {| rate := None; interval := None;
                           algorithm := Some "leaky_bucket"%string |})
                  1000 (world_of no_options)));
    discriminate.
Defined.

(** What one step does to the counters. *)
Lemma step_exact (self : limiter) (o : op) (s : state) :
  sound self s ->
  counters self (step self o s)
  = match outcome self o s with
    | Some r =>
        {| requests_total := requests_total (counters self s) + 1;
           throttled_total :=
             throttled_total (counters self s) + (if denied r then 1 else 0) |}
    | None => counters self s
    end.
Proof.
  destruct s as [w handed]. intros [[m Hm] Hh]. unfold counters.
  cbn [fst snd] in *. rewrite Hm. cbn [default from_option id].
  destruct o as [request opts t|identifier opts t| |k m']; cbn [step outcome].
  - cbn [fst]. rewrite (check_counters _ _ _ _ _ m Hm). reflexivity.
  - cbn [fst]. rewrite reset_heap, Hm. reflexivity.
  - destruct (get_metrics_copy self w m Hm) as [_ Hkeep].
    destruct (get_metrics self w) as [l w']. cbn [fst snd] in *.
    rewrite Hkeep. reflexivity.
  - destruct (handed !! k) as [l|] eqn:El; cbn [fst].
    + assert (Hl : l <> metrics self).
      { rewrite Forall_forall in Hh. apply Hh, list_elem_of_lookup. eauto. }
      unfold dict_update. cbn [heap]. rewrite lookup_insert_ne by exact Hl.
      rewrite Hm. reflexivity.
    + rewrite Hm. reflexivity.
Qed.

Lemma run_exact (self : limiter) (ops : list op) : forall s,
  sound self s ->
  requests_total (counters self (run self ops s))
  = requests_total (counters self s) + Z.of_nat (length (outcomes self ops s))
  /\ throttled_total (counters self (run self ops s))
     = throttled_total (counters self s)
       + Z.of_nat (length (List.filter denied (outcomes self ops s))).
Proof.
  induction ops as [|o ops IH]; intros s Hs.
  - cbn. lia.
  - change (run self (o :: ops) s) with (run self ops (step self o s)).
    destruct (IH (step self o s) (step_sound self o s Hs)) as [IH1 IH2].
    rewrite IH1, IH2, (step_exact self o s Hs). cbn [outcomes].
    destruct (outcome self o s) as [r|]; [|lia].
    cbn [requests_total throttled_total List.filter length].
    destruct (denied r); cbn [length]; lia.
Qed.

(** X23. The counters of a limiter count what its callers did: from its
    construction on, [requests_total] is the number of checks made --
    those that raised included -- and [throttled_total] the number of
    checks that returned a refusal, whatever resets, metric reads and
    overwritten metric copies came in between. *)
Theorem X23_counters_count_checks (o : options_t) (h : gmap ref metrics_t)
    (ops : list op) :
  let self := fst (init o h) in
  let start := (snd (init o h), []) in
  requests_total (counters self (run self ops start))
  = Z.of_nat (length (outcomes self ops start))
  /\ throttled_total (counters self (run self ops start))
     = Z.of_nat (length (List.filter denied (outcomes self ops start)))
  /\ 0 <= throttled_total (counters self (run self ops start))
     <= requests_total (counters self (run self ops start)).
Proof.
  intros self start.
  destruct (run_exact self ops start (init_sound o h)) as [H1 H2].
  assert (H0 : counters self start = zero_metrics).
  { unfold counters, self, start, init. cbn. rewrite lookup_insert_eq. reflexivity. }
  rewrite H0 in H1, H2. cbn [zero_metrics requests_total throttled_total] in H1, H2.
  rewrite H1, H2. split; [lia|]. split; [lia|].
  pose proof (List.filter_length_le denied (outcomes self ops start)). lia.
Qed.

Lemma limit_is_rate_bucket (identifier : string) (p : policy) (t : Q)
    (st : MemoryStorage.storage) (d : decision) :
  fst (TokenBucket.check identifier p t st) = Ok d -> limit d = default 60 (rate p).
Proof.
  intros H.
  destruct (TokenBucket._get_bucket_state (TokenBucket.bucket_key identifier)
              (TokenBucket.last_update_key identifier) (default 60 (rate p)) t st)
    as [[[tk lu]|e] st0] eqn:E.
  - rewrite (check_after_state identifier p t st st0 tk lu E) in H. cbn [fst] in H.
    destruct (Qeq_bool _ 0); [discriminate H|]. injection H as <-. reflexivity.
  - unfold TokenBucket.check, Run.bind in H. rewrite E in H. discriminate H.
Qed.

Lemma limit_is_rate_window (identifier : string) (p : policy) (t : Q)
    (st : MemoryStorage.storage) (d : decision) :
  fst (SlidingWindow.check identifier p t st) = Ok d -> limit d = default 60 (rate p).
Proof.
  intros H.
  set (i := Utils.get_interval_in_seconds (default "minute"%string (interval p))).
  destruct (SlidingWindow._get_window_counts
              (SlidingWindow.window_key identifier
                 (SlidingWindow.current_window (SlidingWindow.now_s t) i))
              (SlidingWindow.window_key identifier
                 (SlidingWindow.current_window (SlidingWindow.now_s t) i - i)) t st)
    as [[[c q]|e] st0] eqn:E.
  - rewrite (check_after_counts identifier p t st st0 c q E) in H. cbn [fst] in H.
    injection H as <-. reflexivity.
  - unfold SlidingWindow.check, Run.bind in H. fold i in H. rewrite E in H.
    discriminate H.
Qed.

(** X24. The options of a check are chosen whole, never merged: the
    entry of [endpoint_overrides] for the path if there is one, else the
    options given with the call unless they are missing or empty, else
    the options of the limiter.  The limit reported is the [rate] of the
    chosen options alone, 60 when they have none -- also when the
    limiter's own options name a rate. *)
Theorem X24_options_chosen_whole (self : limiter) (request : Utils.request)
    (opts : option policy) (t : Q) (w : world) (d : decision) :
  let path := Utils.ci_path (Utils.normalize_client_info request) in
  fst (check self request opts t w) = Ok d ->
  (forall p, endpoint_overrides (options self) !! path = Some p ->
             limit d = default 60 (rate p))
  /\ (forall p, endpoint_overrides (options self) !! path = None ->
                opts = Some p -> policy_truthy p = true ->
                limit d = default 60 (rate p))
  /\ (endpoint_overrides (options self) !! path = None ->
      opts = None
      \/ opts = Some {| rate := None; interval := None; algorithm := None |} ->
      limit d = default 60 (opt_rate (options self))).
Proof.
  intros path H.
  destruct (check_dispatch self request opts t w) as [Hd _]. fold path in Hd.
  rewrite Hd in H. clear Hd.
  assert (Hl : limit d = default 60 (rate (effective_options self path opts))).
  { destruct (String.eqb (self_algorithm self) "sliding_window");
      [exact (limit_is_rate_window _ _ _ _ _ H) | exact (limit_is_rate_bucket _ _ _ _ _ H)]. }
  rewrite Hl. unfold effective_options. split; [|split].
  - intros p ->. reflexivity.
  - intros p -> -> ->. reflexivity.
  - intros -> [->| ->]; reflexivity.
Qed.

Lemma X24_options_chosen_whole_witness :
  exists d,
    fst (check (limiter_of route_without_rate) (request_from "1.2.3.4" "/api/report")
           None 1000 (world_of route_without_rate))
    = Ok d
    /\ limit d = 60.
Proof.
  destruct (fst (check (limiter_of route_without_rate)
                   (request_from "1.2.3.4" "/api/report") None 1000
                   (world_of route_without_rate))) as [d|e] eqn:E;
    [|vm_compute in E; discriminate E].
  exists d. split; [reflexivity|].
  apply (proj1 (X24_options_chosen_whole (limiter_of route_without_rate)
                  (request_from "1.2.3.4" "/api/report") None 1000
                  (world_of route_without_rate) d E)
               {| rate := None; interval := Some "hour"%string; algorithm := None |}).
  vm_compute. reflexivity.
Defined.

(** The algorithm a limiter runs. *)
Lemma outcomes_repeat (self : limiter) (request : Utils.request)
    (opts : option policy) (t : Q) (n : nat) : forall (w : world) (handed : list ref),
  outcomes self (replicate n (Check request opts t)) (w, handed)
  = fst (repeat_check
           (if String.eqb (self_algorithm self) "sliding_window"
            then SlidingWindow.check else TokenBucket.check)
           n (get_client_identifier self request)
           (effective_options self
              (Utils.ci_path (Utils.normalize_client_info request)) opts)
           t (storage w)).
Proof.
  induction n as [|n IH]; intros w handed; [reflexivity|].
  cbn [replicate outcomes outcome step repeat_check fst].
  rewrite IH.
  destruct (check_dispatch self request opts t w) as [Hd Hs].
  rewrite Hd, Hs.
  destruct (String.eqb (self_algorithm self) "sliding_window");
    match goal with
    | |- context [repeat_check ?c n ?i ?e t (snd ?run)] =>
        destruct run as [r st1]; cbn [fst snd];
        destruct (repeat_check c n i e t st1); reflexivity
    end.
Qed.

Lemma denied_allowances (rs : list (result decision)) :
  length (List.filter denied rs)
  = length (List.filter (fun a => match a with Some false => true | _ => false end)
              (allowances rs)).
Proof.
  induction rs as [|[d|e] rs IH]; [reflexivity| |exact IH].
  cbn [List.filter allowances map denied]. fold (allowances rs).
  destruct (allowed d); cbn [negb length]; [exact IH | rewrite IH; reflexivity].
Qed.

Lemma refusals_counted (R : Z) (n : nat) : forall k : nat,
  Z.of_nat
    (length (List.filter (fun a => match a with Some false => true | _ => false end)
               (map (fun j => Some (Z.of_nat j <? R)) (seq k n))))
  = Z.max 0 (Z.of_nat k + Z.of_nat n - R) - Z.max 0 (Z.of_nat k - R).
Proof.
  induction n as [|n IH]; intros k; [cbn [seq map List.filter length]; lia|].
  cbn [seq map List.filter]. specialize (IH (S k)).
  destruct (Z.ltb_spec (Z.of_nat k) R); cbn [length]; lia.
Qed.

Lemma new_limiter_burst (o : options_t) (h : gmap ref metrics_t)
    (request : Utils.request) (opts : option policy) (t : Q) (n : nat) :
  let self := fst (init o h) in
  let R :=
    default 60
      (rate (effective_options self
               (Utils.ci_path (Utils.normalize_client_info request)) opts)) in
  1 <= R ->
  allowances (outcomes self (replicate n (Check request opts t)) (snd (init o h), []))
  = map (fun j => Some (Z.of_nat j <? R)) (seq 0 n).
Proof.
  intros self R HR.
  set (identifier := get_client_identifier self request).
  set (effective :=
         effective_options self (Utils.ci_path (Utils.normalize_client_info request))
           opts) in *.
  rewrite outcomes_repeat. fold identifier effective.
  change (storage (snd (init o h))) with empty.
  destruct (String.eqb (self_algorithm self) "sliding_window").
  - rewrite (window_burst_from identifier effective t n 0 empty);
      [reflexivity | rewrite live_empty; reflexivity..].
  - rewrite (burst_from identifier effective t n HR 0 empty
               (snd (get (TokenBucket.last_update_key identifier) t
                       (snd (get (TokenBucket.bucket_key identifier) t empty))))
               (inject_Z R)).
    + reflexivity.
    + fold R. lia.
    + apply get_bucket_state_total.
      * apply bucket_keys_differ.
      * rewrite live_empty. reflexivity.
      * rewrite live_empty. reflexivity.
    + fold R. rewrite Z.sub_0_r. reflexivity.
Qed.

(** X25. A limiter does what its algorithm does.  Of [n] checks of one
    request made at one instant on a new limiter, whichever of the two
    algorithms it runs and wherever the options come from, check number
    [j] (from 0) is allowed exactly when [j < rate], for a rate of at
    least 1; afterwards [requests_total] is [n] and [throttled_total]
    is the excess [max 0 (n - rate)]. *)
Theorem X25_limiter_admits_rate (o : options_t) (h : gmap ref metrics_t)
    (request : Utils.request) (opts : option policy) (t : Q) (n : nat) :
  let self := fst (init o h) in
  let start := (snd (init o h), []) in
  let ops := replicate n (Check request opts t) in
  let R :=
    default 60
      (rate (effective_options self
               (Utils.ci_path (Utils.normalize_client_info request)) opts)) in
  1 <= R ->
  allowances (outcomes self ops start)
  = map (fun j => Some (Z.of_nat j <? R)) (seq 0 n)
  /\ requests_total (counters self (run self ops start)) = Z.of_nat n
  /\ throttled_total (counters self (run self ops start))
     = Z.max 0 (Z.of_nat n - R).
Proof.
  intros self start ops R HR.
  pose proof (new_limiter_burst o h request opts t n HR) as Ha.
  fold self start ops in Ha.
  split; [exact Ha|].
  destruct (run_exact self ops start (init_sound o h)) as [H1 H2].
  assert (H0 : counters self start = zero_metrics).
  { unfold counters, self, start, init. cbn. rewrite lookup_insert_eq. reflexivity. }
  rewrite H0 in H1, H2. cbn [zero_metrics requests_total throttled_total] in H1, H2.
  rewrite H1, H2. split.
  - assert (Hlen : length (allowances (outcomes self ops start)) = n)
      by (rewrite Ha, length_map, length_seq; reflexivity).
    unfold allowances in Hlen. rewrite length_map in Hlen. lia.
  - rewrite denied_allowances, Ha, refusals_counted. lia.
Qed.

Lemma X25_limiter_admits_rate_witness :
  allowances
    (outcomes (limiter_of route_without_rate)
       (replicate 7 (Check (request_from "1.2.3.4" "/") None 1000))
       (world_of route_without_rate, []))
  = map (fun j => Some (Z.of_nat j <? 5)) (seq 0 7).
Proof.
  apply (proj1 (X25_limiter_admits_rate route_without_rate ∅
                  (request_from "1.2.3.4" "/") None 1000 7
                  ltac:(vm_compute; discriminate))).
Defined.

End LimiterBehaviour.

(** ** Keys and configuration *)

Section KeysAndConfiguration.

Import Py Utils Config.

Lemma colon_free_append (a b : string) :
  ~ every (fun c => c <> ":"%char) (a +:+ ":" +:+ b).
Proof.
  induction a as [|x a IH]; intros H.
  - rewrite append_nil_l, append_cons in H. destruct H as [H _]. congruence.
  - rewrite append_cons in H. destruct H as [_ H]. exact (IH H).
Qed.

Lemma split_at_first_colon (a a' b b' : string) :
  every (fun c => c <> ":"%char) a -> every (fun c => c <> ":"%char) a' ->
  a +:+ ":" +:+ b = a' +:+ ":" +:+ b' -> a = a' /\ b = b'.
Proof.
  revert a'. induction a as [|x a IH]; intros [|y a'] Ha Ha' E.
  - rewrite !append_nil_l, !append_cons, !append_nil_l in E. injection E as E. auto.
  - rewrite append_nil_l, !append_cons, append_nil_l in E. injection E as E _.
    destruct Ha' as [Hy _]. congruence.
  - rewrite append_nil_l, !append_cons, append_nil_l in E. injection E as E _.
    destruct Ha as [Hx _]. congruence.
  - rewrite !append_cons in E. injection E as -> E.
    destruct Ha as [_ Ha], Ha' as [_ Ha'].
    destruct (IH a' Ha Ha' E) as [-> ->]. auto.
Qed.

Lemma truthy_nonempty (r : string) : r <> ""%string -> truthy r = true.
Proof. destruct r; [congruence | reflexivity]. Qed.

(** X26. [generate_key] joins its arguments with colons, an empty
    resource counting as none.  The keys of both algorithms follow this
    scheme.  The key does not tell where the identifier ends: an
    identifier with a colon in it gives the key of a shorter identifier
    with a resource; when neither prefix nor identifier holds a colon,
    different arguments give different keys. *)
Theorem X26_generate_key :
  (forall p i, generate_key p i (Some ""%string) = generate_key p i None)
  /\ (forall p i r, r <> ""%string ->
        generate_key p i (Some r) = generate_key p (i +:+ ":" +:+ r) None)
  /\ (forall i, TokenBucket.bucket_key i = generate_key "tb" i None
                /\ TokenBucket.last_update_key i = generate_key "tb" i (Some "last"%string))
  /\ (forall i w, SlidingWindow.window_key i w = generate_key "sw" i (Some (str_int w)))
  /\ (forall p p' i i' : string,
        every (fun c => c <> ":"%char) p -> every (fun c => c <> ":"%char) p' ->
        every (fun c => c <> ":"%char) i -> every (fun c => c <> ":"%char) i' ->
        (generate_key p i None = generate_key p' i' None -> p = p' /\ i = i')
        /\ (forall r r', r <> ""%string -> r' <> ""%string ->
              generate_key p i (Some r) = generate_key p' i' (Some r') ->
              p = p' /\ i = i' /\ r = r')
        /\ (forall r, r <> ""%string ->
              generate_key p i (Some r) <> generate_key p' i' None)).
Proof.
  split; [reflexivity|]. split; [|split; [|split]].
  - intros p i r Hr. unfold generate_key. rewrite (truthy_nonempty r Hr). reflexivity.
  - intros i. split; reflexivity.
  - intros i w. unfold generate_key, SlidingWindow.window_key.
    replace (truthy (str_int w)) with true; [reflexivity|].
    unfold str_int. destruct (w <? 0); [reflexivity|].
    destruct (str_nat_head w) as (c & r & _ & ->). reflexivity.
  - intros p p' i i' Hp Hp' Hi Hi'. unfold generate_key. split; [|split].
    + intros E. exact (split_at_first_colon _ _ _ _ Hp Hp' E).
    + intros r r' Hr Hr'. rewrite (truthy_nonempty r Hr), (truthy_nonempty r' Hr').
      intros E. destruct (split_at_first_colon _ _ _ _ Hp Hp' E) as [-> E'].
      destruct (split_at_first_colon _ _ _ _ Hi Hi' E') as [-> ->]. auto.
    + intros r Hr. rewrite (truthy_nonempty r Hr). intros E.
      destruct (split_at_first_colon _ _ _ _ Hp Hp' E) as [_ E'].
      rewrite <- E' in Hi'. exact (colon_free_append _ _ Hi').
Qed.

Lemma X26_generate_key_witness :
  generate_key "tb" "ip:1.2.3.4" (Some "last"%string)
  = generate_key "tb" "ip:1.2.3.4:last" None.
Proof.
  apply (proj1 (proj2 X26_generate_key) "tb"%string "ip:1.2.3.4"%string "last"%string).
  discriminate.
Defined.

(** The dictionary [normalize_config] returns, when it returns. *)
Lemma normalize_config_shape (config c' : gmap string value) :
  normalize_config config = inr c' ->
  exists n,
    c' = <["enabled"%string := default (VBool true) (config !! "enabled"%string)]>
           (<["interval"%string :=
                default (VStr "minute") (config !! "interval"%string)]>
              (<["rate"%string := VInt n]> config))
    /\ match config !! "rate"%string with
       | Some (VInt m) => n = m
       | Some (VBool b) => n = (if b then 1 else 0)
       | Some (VFloat x) => n = int_of_float x
       | Some (VStr s) => n = default 60 (int_of_str s)
       | Some (VInfinity _) => False
       | _ => n = 60
       end.
Proof.
  unfold normalize_config.
  destruct (config !! "rate"%string) as [[| b | m | x | neg | | s | l | d]|];
    cbn [int_of_value]; try (intros [= <-]; eexists; split; reflexivity);
    try discriminate.
  destruct (int_of_str s); intros [= <-]; eexists; split; reflexivity.
Qed.

(** X27. [normalize_config] raises for one input only, a [rate] that is
    an infinite float ([OverflowError] is not caught).  Otherwise it
    returns the configuration with [rate] an integer -- the given
    integer, the truncated float, the number a text spells, 0 or 1 for a
    boolean, and 60 when the rate is missing, [None], not a number or of
    another type; it is not checked to be positive -- with [interval]
    and [enabled] present, given or defaulted to [minute] and [True],
    and every other entry as given.  Normalising twice is the same as
    normalising once. *)
Theorem X27_normalize_config (config : gmap string value) :
  (normalize_config config = inl IntOverflowError
   <-> exists negative, config !! "rate"%string = Some (VInfinity negative))
  /\ (forall e, normalize_config config = inl e -> e = IntOverflowError)
  /\ (forall c', normalize_config config = inr c' ->
        (exists n,
           c' !! "rate"%string = Some (VInt n)
           /\ match config !! "rate"%string with
              | Some (VInt m) => n = m
              | Some (VBool b) => n = (if b then 1 else 0)
              | Some (VFloat x) => n = int_of_float x
              | Some (VStr s) => n = default 60 (int_of_str s)
              | Some (VInfinity _) => False
              | _ => n = 60
              end)
        /\ c' !! "interval"%string
           = Some (default (VStr "minute") (config !! "interval"%string))
        /\ c' !! "enabled"%string
           = Some (default (VBool true) (config !! "enabled"%string))
        /\ (forall key, key <> "rate"%string -> key <> "interval"%string ->
                        key <> "enabled"%string -> c' !! key = config !! key)
        /\ normalize_config c' = inr c').
Proof.
  split; [|split].
  - unfold normalize_config. split.
    + destruct (config !! "rate"%string) as [[| b | m | x | neg | | s | l | d]|];
        cbn [int_of_value]; try discriminate; [eauto|].
      destruct (int_of_str s); discriminate.
    + intros [neg ->]. reflexivity.
  - unfold normalize_config. intros e.
    destruct (config !! "rate"%string) as [[| b | m | x | neg | | s | l | d]|];
      cbn [int_of_value]; try discriminate; [intros [= <-]; reflexivity|].
    destruct (int_of_str s); discriminate.
  - intros c' H. destruct (normalize_config_shape config c' H) as (n & -> & Hn).
    set (e := default (VBool true) (config !! "enabled"%string)).
    set (i := default (VStr "minute") (config !! "interval"%string)).
    assert (Hr : (<["enabled"%string := e]>
                    (<["interval"%string := i]> (<["rate"%string := VInt n]> config)))
                 !! "rate"%string = Some (VInt n)).
    { rewrite !lookup_insert_ne by discriminate. apply lookup_insert_eq. }
    assert (Hi : (<["enabled"%string := e]>
                    (<["interval"%string := i]> (<["rate"%string := VInt n]> config)))
                 !! "interval"%string = Some i).
    { rewrite lookup_insert_ne by discriminate. apply lookup_insert_eq. }
    assert (He : (<["enabled"%string := e]>
                    (<["interval"%string := i]> (<["rate"%string := VInt n]> config)))
                 !! "enabled"%string = Some e) by apply lookup_insert_eq.
    split; [exists n; split; [exact Hr | exact Hn]|].
    split; [exact Hi|]. split; [exact He|]. split.
    + intros key H1 H2 H3. rewrite !lookup_insert_ne by congruence. reflexivity.
    + unfold normalize_config. rewrite Hr, Hi, He. cbn [int_of_value default from_option id].
      f_equal. rewrite (insert_id _ "rate"%string (VInt n) Hr).
      rewrite (insert_id _ "interval"%string i Hi).
      apply (insert_id _ "enabled"%string e He).
Qed.

Lemma X27_normalize_config_witness :
  normalize_config
    (<["enabled"%string := VBool true]>
       (<["interval"%string := VStr "minute"]>
          (<["rate"%string := VInt (-5)]> {[ "rate"%string := VStr " -5 " ]})))
  = inr (<["enabled"%string := VBool true]>
           (<["interval"%string := VStr "minute"]>
              (<["rate"%string := VInt (-5)]> {[ "rate"%string := VStr " -5 " ]}))).
Proof.
  apply (proj2 (proj2 (X27_normalize_config {[ "rate"%string := VStr " -5 " ]}))).
  vm_compute. reflexivity.
Defined.

End KeysAndConfiguration.

(** ** The FastAPI middleware *)

Section MiddlewareBehaviour.

Import Py RateLimiter Session Examples FastAPI.

Context {Response App Error : Type}.
Variable set_header : string -> string -> Response -> Response.
Variable call_next : Utils.request -> App -> (Error + Response) * App.




End MiddlewareBehaviour.


(** ** What [retry_after] promises *)

Section BucketRetry.

Import Py MemoryStorage TokenBucket Examples.

Lemma floor_above (x : Q) (n : Z) : (inject_Z n <= x)%Q -> n <= Qfloor x.
Proof.
  intros H. rewrite <- (Qfloor_Z n). apply Qfloor_resp_le. exact H.
Qed.





End BucketRetry.

Section WindowRetry.

Import Py MemoryStorage SlidingWindow Examples.

Lemma int_of_float_shift (t : Q) (k : Z) :
  (0 <= t)%Q -> 0 <= k -> int_of_float (t + inject_Z k) = int_of_float t + k.
Proof.
  intros Ht Hk. pose proof (inject_Z_nonneg k Hk) as Hqk.
  rewrite !int_of_float_floor by lra.
  pose proof (Qfloor_le t) as H1. pose proof (Qfloor_le (t + inject_Z k)) as H2.
  assert (Ha : Qfloor t + k <= Qfloor (t + inject_Z k)).
  { apply floor_above. rewrite inject_Z_plus. lra. }
  assert (Hb : Qfloor (t + inject_Z k) + - k <= Qfloor t).
  { apply floor_above. rewrite inject_Z_plus, inject_Z_opp. lra. }
  lia.
Qed.

(** The reads of a check drop nothing that a later read would find. *)
Lemma live_after_gets_later (key k1 k2 : string) (t t' : Q) (st : storage) :
  (t <= t')%Q ->
  live key t' (snd (get k2 t (snd (get k1 t st)))) = live key t' st.
Proof.
  intros Htt.
  assert (H : forall k s, live key t' (snd (get k t s)) = live key t' s).
  { intros k s. destruct (decide (key = k)) as [<-|Hne].
    - rewrite !live_lookup. unfold get.
      destruct (_data s !! key) as [v|] eqn:Hd; [|cbn; rewrite Hd; reflexivity].
      destruct (_expirations s !! key) as [e|] eqn:He;
        [|cbn; rewrite Hd, He; reflexivity].
      destruct (Qleb e t) eqn:Hx; cbn.
      + rewrite lookup_delete_eq, (Qleb_mono e t t' Htt Hx). reflexivity.
      + rewrite Hd, He. reflexivity.
    - apply live_ext; [apply get_other_data | apply get_other_expirations]; exact Hne. }
  rewrite !H. reflexivity.
Qed.

Lemma repeat_check_snd (ck : string -> policy -> Q -> Run.M decision) (n : nat)
    (identifier : string) (options : policy) (t : Q) (st : storage) :
  snd (repeat_check ck (S n) identifier options t st)
  = snd (repeat_check ck n identifier options t (snd (ck identifier options t st))).
Proof.
  cbn [repeat_check]. destruct (ck identifier options t st) as [r st1]. cbn [snd].
  destruct (repeat_check ck n identifier options t st1). reflexivity.
Qed.

(** The counter after a run of checks that are all within the rate. *)
Lemma window_burst_state (identifier : string) (options : policy) (t : Q) (n : nat) :
  let R := default 60 (rate options) in
  let i := Utils.get_interval_in_seconds (default "minute"%string (interval options)) in
  let cur := window_key identifier (current_window (now_s t) i) in
  let prev := window_key identifier (current_window (now_s t) i - i) in
  forall (c : Z) (st : storage),
    int_of_str (default "0"%string (live cur t st)) = Some c ->
    int_of_str (default "0"%string (live prev t st)) = Some 0 ->
    c + Z.of_nat (S n) <= R ->
    (forall tt,
       live cur tt (snd (repeat_check check (S n) identifier options t st))
       = if Qleb (t + inject_Z (i * 2)) tt then None
         else Some (str_int (c + Z.of_nat (S n))))
    /\ live prev t (snd (repeat_check check (S n) identifier options t st))
       = live prev t st.
Proof.
  intros R i cur prev. induction n as [|n IH]; intros c st Hc Hp Hle.
  - destruct (window_check_live identifier options t st c 0 Hc Hp) as (La & _ & Lp).
    cbv zeta in La, Lp. fold R i cur prev in La, Lp.
    rewrite (Qltb_inject _ c R (weighted_no_history c (now_s t) i)) in La.
    rewrite repeat_check_snd. cbn [repeat_check snd].
    split; [|exact Lp]. intros tt. rewrite (La ltac:(apply Z.ltb_lt; lia) tt).
    replace (c + Z.of_nat 1) with (c + 1) by lia. reflexivity.
  - destruct (window_check_live identifier options t st c 0 Hc Hp) as (La & _ & Lp).
    cbv zeta in La, Lp. fold R i cur prev in La, Lp.
    rewrite (Qltb_inject _ c R (weighted_no_history c (now_s t) i)) in La.
    assert (Hi : 0 < i) by apply interval_seconds_pos.
    assert (Hx : Qleb (t + inject_Z (i * 2)) t = false).
    { apply Qleb_false. pose proof (inject_Z_pos (i * 2) ltac:(lia)). lra. }
    rewrite repeat_check_snd.
    destruct (IH (c + 1) (snd (check identifier options t st))) as [I1 I2].
    + rewrite (La ltac:(apply Z.ltb_lt; lia) t), Hx. apply int_of_str_str_int.
    + rewrite Lp. exact Hp.
    + lia.
    + split; [|rewrite I2; exact Lp]. intros tt. rewrite I1.
      replace (c + 1 + Z.of_nat (S n)) with (c + Z.of_nat (S (S n))) by lia.
      reflexivity.
Qed.

Lemma window_burst_frame (identifier : string) (options : policy) (t : Q) (n : nat)
    (key : string) :
  let i := Utils.get_interval_in_seconds (default "minute"%string (interval options)) in
  let w := current_window (now_s t) i in
  key <> window_key identifier w -> key <> window_key identifier (w - i) ->
  forall st,
    _data (snd (repeat_check check n identifier options t st)) !! key = _data st !! key
    /\ _expirations (snd (repeat_check check n identifier options t st)) !! key
       = _expirations st !! key.
Proof.
  intros i w Hc Hp. induction n as [|n IH]; intros st; [auto|].
  rewrite repeat_check_snd.
  destruct (IH (snd (check identifier options t st))) as [-> ->].
  apply window_check_frame; assumption.
Qed.

(** X30. The sliding window's [retry_after] is the time to the start of
    the next window, and that can be too short.  After a window has
    admitted [rate] requests for an identifier the store had not seen,
    the next check is refused with a [retry_after] of at least 1; the
    check made exactly [retry_after] seconds later falls on the first
    second of the next window, where the full window still counts in
    full, and is refused again. *)
Theorem X30_window_retry_after_too_short (identifier : string) (options : policy)
    (t : Q) (st : storage) :
  let R := default 60 (rate options) in
  let st1 := snd (repeat_check check (Z.to_nat R) identifier options t st) in
  1 <= R -> (0 <= t)%Q ->
  (forall w tt, live (window_key identifier w) tt st = None) ->
  exists d st2 d' st3,
    check identifier options t st1 = (Ok d, st2)
    /\ allowed d = false /\ 1 <= retry_after d
    /\ check identifier options (t + inject_Z (retry_after d)) st2 = (Ok d', st3)
    /\ allowed d' = false.
Proof.
  intros R st1 HR Ht Hnone.
  set (i := Utils.get_interval_in_seconds (default "minute"%string (interval options))).
  assert (Hi : 0 < i) by apply interval_seconds_pos.
  set (now := now_s t).
  set (w := current_window now i).
  destruct (Z.to_nat R) as [|m] eqn:Em; [lia|].
  assert (ER : Z.of_nat (S m) = R) by lia.
  destruct (window_burst_state identifier options t m 0 st) as [Lcur Lprev].
  { rewrite Hnone. reflexivity. }
  { rewrite Hnone. reflexivity. }
  { fold R. lia. }
  cbv zeta in Lcur, Lprev. fold i now w st1 in Lcur, Lprev.
  rewrite Z.add_0_l, ER in Lcur. rewrite Hnone in Lprev.
  assert (Hx : Qleb (t + inject_Z (i * 2)) t = false).
  { apply Qleb_false. pose proof (inject_Z_pos (i * 2) ltac:(lia)). lra. }
  (* the refusal *)
  pose proof (window_check_reads identifier options t st1 R 0) as Hk.
  cbv zeta in Hk. fold R i now w in Hk.
  rewrite (Qltb_inject _ R R (weighted_no_history R now i)), Z.ltb_irrefl in Hk.
  specialize (Hk ltac:(rewrite Lcur, Hx; apply int_of_str_str_int)
                 ltac:(rewrite Lprev; reflexivity)).
  set (r := i - now mod i) in *.
  pose proof (Z.mod_pos_bound now i Hi) as Hmod.
  assert (Hr : 1 <= r <= i) by (unfold r; lia).
  set (st2 := snd (get (window_key identifier (w - i)) t
                     (snd (get (window_key identifier w) t st1)))) in *.
  set (t' := (t + inject_Z r)%Q).
  assert (Htt : (t <= t')%Q).
  { unfold t'. pose proof (inject_Z_nonneg r ltac:(lia)). lra. }
  (* the clock at the retry *)
  assert (Enow : now_s t' = now + r).
  { unfold t', now_s. apply int_of_float_shift; [exact Ht | lia]. }
  assert (Emul : now + r = (now / i + 1) * i).
  { unfold r. pose proof (Z.div_mod now i ltac:(lia)). lia. }
  assert (Ew : current_window (now_s t') i = w + i).
  { unfold current_window. rewrite Enow, Emul, Z.div_mul by lia.
    unfold w, current_window. lia. }
  assert (Em0 : now_s t' mod i = 0).
  { rewrite Enow, Emul. apply Z.mod_mul. lia. }
  (* what the retry reads *)
  assert (Hc' : int_of_str
                  (default "0"%string
                     (live (window_key identifier (current_window (now_s t') i)) t' st2))
                = Some 0).
  { rewrite Ew. unfold st2. rewrite live_after_gets_later by exact Htt.
    rewrite (live_ext _ t' st st1).
    - rewrite Hnone. reflexivity.
    - apply (window_burst_frame identifier options t (S m));
        intros E; apply window_key_inj in E; fold i now w in E; lia.
    - apply (window_burst_frame identifier options t (S m));
        intros E; apply window_key_inj in E; fold i now w in E; lia. }
  assert (Hp' : int_of_str
                  (default "0"%string
                     (live (window_key identifier (current_window (now_s t') i - i)) t'
                        st2))
                = Some R).
  { rewrite Ew. replace (w + i - i) with w by lia.
    unfold st2. rewrite live_after_gets_later by exact Htt.
    rewrite Lcur.
    replace (Qleb (t + inject_Z (i * 2)) t') with false.
    - apply int_of_str_str_int.
    - symmetry. apply Qleb_false. unfold t'.
      assert (Hq : (inject_Z r < inject_Z (i * 2))%Q) by (rewrite <- Zlt_Qlt; lia).
      lra. }
  pose proof (window_check_reads identifier options t' st2 0 R Hc' Hp') as Hk'.
  cbv zeta in Hk'. fold R i in Hk'.
  assert (Ea : Qltb (weighted_count 0 R (now_s t') i) (inject_Z R) = false).
  { apply Qltb_false. unfold weighted_count, window_position. rewrite Em0.
    change (inject_Z 0) with 0%Q. unfold Qdiv. rewrite Qmult_0_l. lra. }
  rewrite Ea in Hk'.
  eexists _, st2, _, _. split; [exact Hk|]. cbn [allowed retry_after].
  split; [reflexivity|]. split; [lia|]. split; [exact Hk'|]. reflexivity.
Qed.

Lemma X30_window_retry_after_too_short_witness :
  exists d st2 d' st3,
    check "ip:1.2.3.4" (per 3 "minute") 1000
      (snd (repeat_check check (Z.to_nat 3) "ip:1.2.3.4" (per 3 "minute") 1000 empty))
    = (Ok d, st2)
    /\ allowed d = false /\ 1 <= retry_after d
    /\ check "ip:1.2.3.4" (per 3 "minute") (1000 + inject_Z (retry_after d)) st2
       = (Ok d', st3)
    /\ allowed d' = false.
Proof.
  apply (X30_window_retry_after_too_short "ip:1.2.3.4" (per 3 "minute") 1000 empty).
  - vm_compute. discriminate.
  - vm_compute. discriminate.
  - intros w tt. apply live_empty.
Defined.

End WindowRetry.
